(** * Deep pagination: the sequence builder and its validation

    A shallow embedding of the pagination generator (validateInput,
    validateJumpValues, findLowerValuesFor, findLargerValuesFor, addPage,
    generatePaginationArray, generatePagination) and the proofs of its
    specified properties.

    Numbers.  The builder only ever computes with integers (sums,
    differences, products by 4 and remainders of integers), so a
    JavaScript number that passed validation is modelled as a
    mathematical integer [Z].  The program computes in doubles: the
    model is the program only as long as the values stay in the
    safe-integer range, up to [MAX_SAFE_INTEGER] = 2^53 - 1.  From 2^53
    on a sum or difference is rounded, and the loop counter [page++]
    stops advancing, so that the loop of the builder never ends for
    [max >= 2^53], while the fold of the model always does.  The
    remainder operator [%] truncates towards zero and takes the sign of
    the dividend: it is [Z.rem].

    Arrays.  A JavaScript array is a [list]; reading outside the array
    yields [undefined], here [None].  An array holds at most
    [MAX_ARRAY_LENGTH] = 2^32 - 1 elements: [Array.from] throws a
    [RangeError] for a larger length, which the model has (the simple
    mode meets it with a pad of 2^30 or more); a [push] beyond the limit
    throws as well, which the lists of the model do not.

    Range.  The properties of the helpers are therefore stated for safe
    integers, and those of the entry point for the requests of [inRange]:
    [max] a safe integer, and the array, which never holds more than
    [min(max, 7 + 4 * pad)] elements, within the length limit. *)

From stdpp Require Import base decidable option list list_numbers strings.
From Stdlib Require Import ZArith Lia Sorting.Sorted.

Local Open Scope Z_scope.

(** ** Outcomes *)

Inductive jumpReason : Type :=
  | EmptyJumps
  | NonPositiveJump
  | UnsortedJumps.

(** The errors thrown.  The validators throw plain [Error] objects that
    differ in their message; the constructors carry the names the
    specification gives them.  [InvalidArrayLength] is the [RangeError]
    that the engine throws when an array is created with a length above
    the limit. *)
Inductive error : Type :=
  | InvalidCurrentPage
  | InvalidMaxPages
  | CurrentExceedsMax
  | InvalidPad
  | InvalidJumpValues (reason : jumpReason)
  | InvalidArrayLength.

(** The message of the error object thrown. *)
Definition message (e : error) : string :=
  match e with
  | InvalidCurrentPage => "Current page must be a positive integer"
  | InvalidMaxPages => "Max pages must be a positive integer"
  | CurrentExceedsMax => "Current page cannot be greater than max pages"
  | InvalidPad => "Pad must be a non-negative integer"
  | InvalidJumpValues EmptyJumps => "Jump values must be a non-empty array"
  | InvalidJumpValues NonPositiveJump => "All jump values must be positive integers"
  | InvalidJumpValues UnsortedJumps => "Jump values must be sorted in descending order"
  | InvalidArrayLength => "Invalid array length"
  end.

(** A call either returns or throws. *)
Inductive outcome (A : Type) : Type :=
  | Returns (a : A)
  | Throws (e : error).
Global Arguments Returns {A} a.
Global Arguments Throws {A} e.

(** The largest length of an array, 2^32 - 1. *)
Definition MAX_ARRAY_LENGTH : Z := 2 ^ 32 - 1.

(** [Array.from({ length: n }, (_, i) => f(i))], for an integer [n]: the
    array is created with length [n] first, which throws a [RangeError]
    above the limit. *)
Definition Array_from {A} (n : Z) (f : Z -> A) : outcome (list A) :=
  if bool_decide (n > MAX_ARRAY_LENGTH) then Throws InvalidArrayLength
  else Returns (f <$> seqZ 0 n).

(** ** Tokens and arrays *)

(** An element of the [pages] array: [(number | string)]. *)
Inductive token : Type :=
  | Page (n : Z)
  | Sym (s : string).

Global Instance token_eq_dec : EqDecision token.
Proof. solve_decision. Defined.

(** [a.length] *)
Definition len {A} (a : list A) : Z := Z.of_nat (length a).

(** [a[i]]: [None] is [undefined]. *)
Definition item {A} (a : list A) (i : Z) : option A :=
  if decide (0 <= i) then a !! Z.to_nat i else None.

(** [a[i] = x] for an index inside the array.  Every write of the program
    is guarded so that the index is inside (see [addPage]); outside, where
    JavaScript would grow the array, the model leaves it unchanged. *)
Definition store {A} (a : list A) (i : Z) (x : A) : list A :=
  if decide (0 <= i < len a) then <[Z.to_nat i := x]> a else a.

(** [a.findIndex(f)] *)
Fixpoint findIndex_from {A} (f : A -> bool) (a : list A) (i : Z) : Z :=
  match a with
  | [] => -1
  | x :: r => if f x then i else findIndex_from f r (i + 1)
  end.

Definition findIndex {A} (f : A -> bool) (a : list A) : Z :=
  findIndex_from f a 0.

(** [a.indexOf(x)], with strict equality on tokens. *)
Definition indexOf (a : list token) (x : token) : Z :=
  findIndex (fun y => bool_decide (y = x)) a.

(** [for (let i = 0; i < n; ++i) body], threading the loop state. *)
Definition for_loop {S} (n : Z) (body : Z -> S -> S) (s : S) : S :=
  foldl (fun s i => body i s) s (seqZ 0 n).

(** [x === gapSymbol] and [x === n] for a possibly undefined array element. *)
Definition is_sym (gapSymbol : string) (x : option token) : bool :=
  match x with
  | Some (Sym s) => bool_decide (s = gapSymbol)
  | _ => false
  end.

Definition is_num (n : Z) (x : option token) : bool :=
  match x with
  | Some (Page m) => bool_decide (m = n)
  | _ => false
  end.

(** [(x as number) + 1 !== y].  On a string, [+ 1] appends the character
    1; on [undefined] it gives NaN, which differs from everything. *)
Definition succ_differs (x y : option token) : bool :=
  match x, y with
  | Some (Page a), Some (Page b) => negb (bool_decide (a + 1 = b))
  | Some (Sym s), Some (Sym t) => negb (bool_decide ((s +:+ "1")%string = t))
  | _, _ => true
  end.

(** ** Constants *)

Definition DEFAULT_GAP : string := "…".
Definition DEFAULT_JUMP_VALUES : list Z :=
  [50000; 25000; 10000; 5000; 1000; 500; 250; 100; 50; 25; 10; 5; 1].
Definition DEFAULT_PAD : Z := 2.

(** ** Anchor searches *)

(** [jumps[i]] where the program uses the value in arithmetic.  The table
    is never empty when the searches run (it was validated, or it is the
    default table) and these reads are inside it ([jumpIndex_inside],
    [margin_inside], [refined_inside]); 0 stands for the unreachable
    [undefined]. *)
Definition jumpAt (jumps : list Z) (i : Z) : Z := default 0 (item jumps i).

(** [jumpIndex >= 0 ? jumpIndex : jumps.length - 1] *)
Definition orLast (jumps : list Z) (jumpIndex : Z) : Z :=
  if decide (0 <= jumpIndex) then jumpIndex else len jumps - 1.

Definition findLowerValuesFor (min max iteration pad : Z) (jumps : list Z) : Z :=
  let jumpIndex := orLast jumps (findIndex (fun jump => bool_decide (jump < max)) jumps) in
  let margin :=
    for_loop (pad - iteration) (fun _ margin =>
      if bool_decide (jumpIndex - margin - 1 < len jumps) &&
         match item jumps (jumpIndex - margin - 1) with
         | Some j => bool_decide (max - Z.rem max (jumpAt jumps jumpIndex) - j > min)
         | None => false
         end
      then margin + 1 else margin) 0 in
  if bool_decide (iteration <= 0) then
    if bool_decide (Z.rem max (jumpAt jumps jumpIndex) = 0) then
      if bool_decide (margin <> 0)
      then max - jumpAt jumps jumpIndex - jumpAt jumps (jumpIndex - margin)
      else max - jumpAt jumps jumpIndex
    else
      if bool_decide (margin <> 0)
      then max - Z.rem max (jumpAt jumps jumpIndex) - jumpAt jumps (jumpIndex - margin)
      else max - Z.rem max (jumpAt jumps jumpIndex)
  else max - jumpAt jumps (jumpIndex - margin).

Definition findLargerValuesFor (min max iteration : Z) (jumps : list Z) : Z :=
  let jumpIndex :=
    orLast jumps
      (findIndex (fun jump => bool_decide (jump < max) &&
                              bool_decide (min - Z.rem min jump + jump < max)) jumps) in
  let jumpIndex :=
    for_loop iteration (fun _ jumpIndex =>
      if bool_decide (jumpIndex + 1 < len jumps) &&
         bool_decide (min - Z.rem min (jumpAt jumps (jumpIndex + 1))
                      + jumpAt jumps (jumpIndex + 1) < max)
      then jumpIndex + 1 else jumpIndex) jumpIndex in
  if bool_decide (Z.rem min (jumpAt jumps jumpIndex) = 0)
  then min + jumpAt jumps jumpIndex
  else min - Z.rem min (jumpAt jumps jumpIndex) + jumpAt jumps jumpIndex.

(** ** The append rule *)

(** The backward scan of [addPage]:
    [for (let i = from; i >= 0; --i) if (p[i] + 1 !== p[i+1]) { gapAt = i + 1; break; }]
    with [n = from + 1] iterations left; -1 when the loop ends without a hit. *)
Fixpoint scanGap (pagination : list token) (n : nat) : Z :=
  match n with
  | O => -1
  | S i =>
      if succ_differs (pagination !! i) (pagination !! S i)
      then Z.of_nat i + 1
      else scanGap pagination i
  end.

(** The shifting loop of [addPage]: every element from [gapAt] on moves one
    slot to the right, the last slot having been pushed beforehand. *)
Definition shiftRight (pagination : list token) (gapAt : Z) : list token :=
  for_loop (len pagination - gapAt - 2) (fun i pagination =>
    match item pagination (len pagination - 3 - i) with
    | Some x => store pagination (len pagination - 2 - i) x
    | None => pagination
    end) pagination.

(** The closing fix of [addPage]: the window [[index 1, index 2]]. *)
Definition fixSmallGap (pagination : list token) (gapSymbol : string) : list token :=
  if is_sym gapSymbol (item pagination 1) && is_num 3 (item pagination 2)
  then store pagination 1 (Page 2)
  else pagination.

Definition addPage (pagination : list token) (page position : Z) (gapSymbol : string)
  : list token :=
  let lastItem := item pagination (len pagination - 1) in
  let secondLastItem := item pagination (len pagination - 2) in
  let pagination :=
    if is_sym gapSymbol lastItem && is_num (page - 2) secondLastItem then
      let pagination := store pagination (len pagination - 1) (Page (page - 1)) in
      let pagination := pagination ++ [Page page] in
      if bool_decide (position < 1) then
        let gapAt := scanGap pagination (Z.to_nat (len pagination - 1)) in
        if bool_decide (0 <= gapAt) then
          let pagination := pagination ++ [Page page] in
          let pagination := shiftRight pagination gapAt in
          store pagination gapAt (Sym gapSymbol)
        else pagination
      else pagination
    else if negb (is_num page lastItem) then pagination ++ [Page page]
    else pagination in
  fixSmallGap pagination gapSymbol.

(** ** The builder *)

(** [(x as number)] for the last element of the array.  The builder
    applies it where the array is not empty and holds no string but the
    gap symbol ([inv_head], [inv_wf]); 0 stands for the unreachable rest. *)
Definition numberOf (x : option token) : Z :=
  match x with
  | Some (Page n) => n
  | _ => 0
  end.

(** The left-side batch: the chain of lower anchors, the distinct ones
    above 1 kept in [tempPages] (in the order found, i.e. descending). *)
Definition lowerAnchors (pagination : list token) (current pad : Z) (jumpValues : list Z)
  : list Z :=
  snd (for_loop (pad + 1) (fun i '(value, tempPages) =>
         let value := findLowerValuesFor 1 value i pad jumpValues in
         if bool_decide (value > 1) && bool_decide (indexOf pagination (Page value) < 0)
         then (value, tempPages ++ [value])
         else (value, tempPages))
       (current - pad - 1, [])).

(** One turn of the loop over [page]. *)
Definition loopBody (current max pad : Z) (gapSymbol : string) (jumpValues : list Z)
    (pagination : list token) (page : Z) : list token :=
  let minPagesForComplex := 7 + pad * 4 in
  if bool_decide (page = 1) || bool_decide (page = max) || bool_decide (page = current)
  then addPage pagination page 0 gapSymbol
  else if bool_decide (page < current) &&
          bool_decide (indexOf pagination (Sym gapSymbol) < 0) &&
          (bool_decide (len pagination < pad + 2) && bool_decide (pad > 0))
  then
    let tempPages := reverse (lowerAnchors pagination current pad jumpValues) in
    let pagination := foldl (fun pagination p => addPage pagination p (-1) gapSymbol)
                            pagination tempPages in
    pagination ++ [Sym gapSymbol]
  else if bool_decide (page >= current - pad) && bool_decide (page <= current + pad)
  then addPage pagination page 0 gapSymbol
  else if bool_decide (page > current) then
    if bool_decide (current + pad + 1 = page) && negb (bool_decide (page = max - 1))
    then pagination ++ [Sym gapSymbol]
    else if bool_decide (len pagination < minPagesForComplex - 1) then
      let lastPage := item pagination (len pagination - 1) in
      let baseValue := if is_sym gapSymbol lastPage then page else numberOf lastPage in
      let value :=
        findLargerValuesFor baseValue max (minPagesForComplex - len pagination - 2)
                            jumpValues in
      if bool_decide (value < max)
      then addPage pagination value 1 gapSymbol
      else addPage pagination page 1 gapSymbol
    else pagination
  else pagination.

Definition generatePaginationArray (current max pad : Z) (gapSymbol : string)
    (jumpValues : list Z) : outcome (list token) :=
  let minPagesForComplex := 7 + pad * 4 in
  if bool_decide (max < minPagesForComplex)
  then Array_from max (fun i => Page (i + 1))
  else Returns (foldl (loopBody current max pad gapSymbol jumpValues) [] (seqZ 1 max)).

(** ** Validation and the entry point *)

(** A number as a caller may pass it: an integer, or a value on which
    [Number.isInteger] is false (a fraction, NaN, an infinity). *)
Inductive number : Type :=
  | Int (z : Z)
  | NonInt.

(** [Number.isInteger(x) && x > lower]; the validators test its negation,
    [!Number.isInteger(x) || x < lower + 1]. *)
Definition isIntegerAbove (lower : Z) (x : number) : bool :=
  match x with
  | Int z => bool_decide (z > lower)
  | NonInt => false
  end.

(** The integer carried by a number; only used on numbers that passed
    [Number.isInteger]. *)
Definition intOf (x : number) : Z :=
  match x with
  | Int z => z
  | NonInt => 0
  end.

(** The loop of [validateJumpValues] over adjacent entries:
    [jumps[i] <= jumps[i + 1]] throws. *)
Fixpoint descending (jumps : list Z) : bool :=
  match jumps with
  | a :: (b :: _) as rest => if bool_decide (a <= b) then false else descending rest
  | _ => true
  end.

(** [jumps] is always an array here (the caller passes a copy made with
    the spread syntax), so of [!Array.isArray(jumps) || jumps.length === 0]
    only the length test remains. *)
Definition validateJumpValues (jumps : list number) : outcome unit :=
  if bool_decide (len jumps = 0) then Throws (InvalidJumpValues EmptyJumps)
  else if negb (forallb (isIntegerAbove 0) jumps)
  then Throws (InvalidJumpValues NonPositiveJump)
  else if negb (descending (intOf <$> jumps))
  then Throws (InvalidJumpValues UnsortedJumps)
  else Returns tt.

(** [pad] is [None] for [undefined]. *)
Definition validateInput (current max : number) (pad : option number) : outcome unit :=
  if negb (isIntegerAbove 0 current) then Throws InvalidCurrentPage
  else if negb (isIntegerAbove 0 max) then Throws InvalidMaxPages
  else if bool_decide (intOf current > intOf max) then Throws CurrentExceedsMax
  else
    match pad with
    | Some pad => if negb (isIntegerAbove (-1) pad) then Throws InvalidPad else Returns tt
    | None => Returns tt
    end.

Record PaginationOptions : Type := {
  current : number;
  max : number;
  pad : option number;
  gapSymbol : option string;
  jumpValues : option (list number);
}.

Record PaginationResult : Type := {
  pages : list token;
  hasPrevious : bool;
  hasNext : bool;
  totalPages : Z;
  currentPage : Z;
}.

(** The optional fields are [None] when the caller leaves them out.  An
    array is truthy even when empty, so a supplied jump table is always
    validated. *)
Definition generatePagination (options : PaginationOptions) : outcome PaginationResult :=
  let current := options.(current) in
  let max := options.(max) in
  let pad := default (Int DEFAULT_PAD) options.(pad) in
  let gapSymbol := default DEFAULT_GAP options.(gapSymbol) in
  let jumpValues := options.(jumpValues) in
  match validateInput current max (Some pad) with
  | Throws e => Throws e
  | Returns _ =>
      let jumps :=
        match jumpValues with
        | Some given => intOf <$> given
        | None => DEFAULT_JUMP_VALUES
        end in
      match
        match jumpValues with
        | Some given => validateJumpValues given
        | None => Returns tt
        end
      with
      | Throws e => Throws e
      | Returns _ =>
          match
            generatePaginationArray (intOf current) (intOf max) (intOf pad) gapSymbol jumps
          with
          | Throws e => Throws e
          | Returns pages =>
              Returns {| pages := pages;
                         hasPrevious := bool_decide (intOf current > 1);
                         hasNext := bool_decide (intOf current < intOf max);
                         totalPages := intOf max;
                         currentPage := intOf current |}
          end
      end
  end.

(** * Vocabulary of the specification *)

(** ** Well-formed requests *)

Definition positiveInteger (x : number) : Prop := exists z, x = Int z /\ 0 < z.
Definition nonNegativeInteger (x : number) : Prop := exists z, x = Int z /\ 0 <= z.

(** A jump table as the data model asks for it: non-empty, positive
    integers, strictly descending. *)
Definition validJumps (given : list number) : Prop :=
  given <> [] /\ Forall positiveInteger given /\ Sorted Z.gt (intOf <$> given).

(** The checks on [current], [max] and [pad]. *)
Definition inputOK (o : PaginationOptions) : Prop :=
  positiveInteger o.(current) /\ positiveInteger o.(max) /\
  intOf o.(current) <= intOf o.(max) /\
  (forall x, o.(pad) = Some x -> nonNegativeInteger x).

Definition validRequest (o : PaginationOptions) : Prop :=
  inputOK o /\ (forall given, o.(jumpValues) = Some given -> validJumps given).

(** The values the builder runs with, after defaulting. *)
Definition currentOf (o : PaginationOptions) : Z := intOf o.(current).
Definition maxOf (o : PaginationOptions) : Z := intOf o.(max).
Definition padOf (o : PaginationOptions) : Z := intOf (default (Int DEFAULT_PAD) o.(pad)).
Definition gapOf (o : PaginationOptions) : string := default DEFAULT_GAP o.(gapSymbol).
Definition jumpsOf (o : PaginationOptions) : list Z :=
  match o.(jumpValues) with
  | Some given => intOf <$> given
  | None => DEFAULT_JUMP_VALUES
  end.

(** ** The range in which the model is the program *)

(** [Number.MAX_SAFE_INTEGER], 2^53 - 1. *)
Definition MAX_SAFE_INTEGER : Z := 2 ^ 53 - 1.

(** An integer on which the arithmetic of doubles is exact. *)
Definition safeInteger (z : Z) : Prop := - MAX_SAFE_INTEGER <= z <= MAX_SAFE_INTEGER.

(** The requests in range: [max], and with it [current] and every page
    number, is a safe integer, so that the loop over the pages ends and
    computes exactly; and the array fits the length limit.  In simple
    mode the array has [max] elements, in complex mode never more than
    [7 + 4 * pad], which is then at most [max]: never more than the
    smaller of the two. *)
Definition inRange (o : PaginationOptions) : Prop :=
  maxOf o <= MAX_SAFE_INTEGER /\
  Z.min (maxOf o) (7 + padOf o * 4) <= MAX_ARRAY_LENGTH.

(** The requests of the simple mode that ask for an array above the
    length limit. *)
Definition tooLong (o : PaginationOptions) : Prop :=
  maxOf o < 7 + padOf o * 4 /\ MAX_ARRAY_LENGTH < maxOf o.

(** The errors of the validation. *)
Definition validationError (e : error) : Prop := e <> InvalidArrayLength.

(** The array of the builder when [Array.from] does not throw. *)
Definition builtPages (current max pad : Z) (gapSymbol : string) (jumpValues : list Z)
  : list token :=
  match generatePaginationArray current max pad gapSymbol jumpValues with
  | Returns pages => pages
  | Throws _ => (fun i => Page (i + 1)) <$> seqZ 0 max
  end.

(** The result of a call that passes validation. *)
Definition resultOf (o : PaginationOptions) : PaginationResult :=
  {| pages := builtPages (currentOf o) (maxOf o) (padOf o) (gapOf o) (jumpsOf o);
     hasPrevious := bool_decide (currentOf o > 1);
     hasNext := bool_decide (currentOf o < maxOf o);
     totalPages := maxOf o;
     currentPage := currentOf o |}.

(** The first violated check, in the order of the validation. *)
Inductive violates (o : PaginationOptions) : error -> Prop :=
  | violates_current :
      ~ positiveInteger o.(current) ->
      violates o InvalidCurrentPage
  | violates_max :
      positiveInteger o.(current) -> ~ positiveInteger o.(max) ->
      violates o InvalidMaxPages
  | violates_order :
      positiveInteger o.(current) -> positiveInteger o.(max) ->
      intOf o.(current) > intOf o.(max) ->
      violates o CurrentExceedsMax
  | violates_pad x :
      positiveInteger o.(current) -> positiveInteger o.(max) ->
      intOf o.(current) <= intOf o.(max) ->
      o.(pad) = Some x -> ~ nonNegativeInteger x ->
      violates o InvalidPad
  | violates_empty :
      inputOK o -> o.(jumpValues) = Some [] ->
      violates o (InvalidJumpValues EmptyJumps)
  | violates_positive given :
      inputOK o -> o.(jumpValues) = Some given -> given <> [] ->
      ~ Forall positiveInteger given ->
      violates o (InvalidJumpValues NonPositiveJump)
  | violates_sorted given :
      inputOK o -> o.(jumpValues) = Some given -> given <> [] ->
      Forall positiveInteger given -> ~ Sorted Z.gt (intOf <$> given) ->
      violates o (InvalidJumpValues UnsortedJumps).

(** The page numbers of an array, left to right. *)
Definition pageNumbers (p : list token) : list Z :=
  omap (fun t => match t with Page n => Some n | Sym _ => None end) p.

(** ** Requests used as examples *)

Definition page_50_of_100 : PaginationOptions :=
  {| current := Int 50; max := Int 100; pad := None; gapSymbol := None; jumpValues := None |}.

Definition page_3_of_100 : PaginationOptions :=
  {| current := Int 3; max := Int 100; pad := Some (Int 2); gapSymbol := Some "-"%string;
     jumpValues := None |}.

Definition page_3_of_5 : PaginationOptions :=
  {| current := Int 3; max := Int 5; pad := None; gapSymbol := None; jumpValues := None |}.

Definition page_45_of_100_custom : PaginationOptions :=
  {| current := Int 45; max := Int 100; pad := Some (Int 2); gapSymbol := None;
     jumpValues := Some [Int 500; Int 100; Int 50; Int 25; Int 10; Int 5; Int 1] |}.

Definition page_15_of_100_pad_1 : PaginationOptions :=
  {| current := Int 15; max := Int 100; pad := Some (Int 1); gapSymbol := Some "..."%string;
     jumpValues := Some [Int 2000; Int 500; Int 100; Int 50; Int 25; Int 10; Int 1] |}.

Definition page_100_of_100_pad_0 : PaginationOptions :=
  {| current := Int 100; max := Int 100; pad := Some (Int 0); gapSymbol := None;
     jumpValues := None |}.

Definition page_5_of_20 : PaginationOptions :=
  {| current := Int 5; max := Int 20; pad := None; gapSymbol := None; jumpValues := None |}.

Definition page_97_of_100 : PaginationOptions :=
  {| current := Int 97; max := Int 100; pad := None; gapSymbol := None; jumpValues := None |}.

(** * Predicates of the proofs *)

(** [run a b] is the ascending run of page numbers [a .. b]. *)
Definition run (a b : Z) : list token := Page <$> seqZ a (b - a + 1).

(** No step of the backward scan fires inside the list. *)
Fixpoint consec (l : list token) : Prop :=
  match l with
  | x :: (y :: _) as r => succ_differs (Some x) (Some y) = false /\ consec r
  | _ => True
  end.

(** The outcomes of [addPage] before its closing fix: nothing to do, a
    plain push, a closed one-page gap, and a closed gap re-opened at the
    nearest discontinuity to the left. *)
Inductive added (g : string) (p : list token) (page position : Z) : list token -> Prop :=
  | added_same :
      last p = Some (Page page) ->
      added g p page position p
  | added_push :
      last p <> Some (Page page) ->
      (forall init, p <> init ++ [Page (page - 2); Sym g]) ->
      added g p page position (p ++ [Page page])
  | added_collapse init :
      p = init ++ [Page (page - 2); Sym g] ->
      1 <= position \/ consec (init ++ [Page (page - 2); Page (page - 1); Page page]) ->
      added g p page position (init ++ [Page (page - 2); Page (page - 1); Page page])
  | added_reopen init a b :
      p = init ++ [Page (page - 2); Sym g] ->
      position < 1 ->
      init ++ [Page (page - 2); Page (page - 1); Page page] = a ++ b ->
      a <> [] -> b <> [] ->
      succ_differs (last a) (head b) = true ->
      consec b ->
      added g p page position (a ++ Sym g :: b).

(** Every string in the array is the gap symbol. *)
Definition wf (g : string) (p : list token) : Prop :=
  Forall (fun t => t = Sym g \/ exists n, t = Page n) p.

(** The number of gap symbols in the array. *)
Fixpoint gaps (g : string) (p : list token) : nat :=
  match p with
  | [] => 0
  | t :: r => (if decide (t = Sym g) then 1 else 0) + gaps g r
  end.

(** No two neighbours are the same token: neither the same page number
    twice nor, in a well-formed array, two gap symbols. *)
Fixpoint noAdj (p : list token) : Prop :=
  match p with
  | x :: (y :: _) as r => x <> y /\ noAdj r
  | _ => True
  end.

(** The closing fix has nothing left to do. *)
Definition nofix (g : string) (p : list token) : Prop :=
  ~ (p !! 1%nat = Some (Sym g) /\ p !! 2%nat = Some (Page 3)).

(** The length, counting a trailing gap symbol twice: the next page may
    close that gap and re-open one further left. *)
Definition weight (g : string) (p : list token) : Z :=
  len p + (if decide (last p = Some (Sym g)) then 1 else 0).

Definition isPage (t : token) : Prop := exists n, t = Page n.

(** [w] occurs in [p] as a block of neighbouring elements. *)
Definition infix (w p : list token) : Prop := exists a b, p = a ++ w ++ b.

(** The array ends in a one-page gap that [page] closes. *)
Definition collapsible (g : string) (p : list token) (page : Z) : Prop :=
  exists init, p = init ++ [Page (page - 2); Sym g].

(** The guard of the left-side batch. *)
Definition leftBatch (current pad : Z) (g : string) (p : list token) (page : Z) : Prop :=
  page < current /\ (Sym g ∉ p) /\ len p < pad + 2 /\ 0 < pad.

(** What a turn of the loop does to the array, branch by branch. *)
Inductive turn (current max pad : Z) (g : string) (jumps : list Z)
    (p : list token) (page : Z) : list token -> Prop :=
  | turn_always :
      page = 1 \/ page = max \/ page = current ->
      turn current max pad g jumps p page (addPage p page 0 g)
  | turn_left :
      page <> 1 -> page <> max -> page <> current -> leftBatch current pad g p page ->
      turn current max pad g jumps p page
        (foldl (fun p v => addPage p v (-1) g) p
               (reverse (lowerAnchors p current pad jumps)) ++ [Sym g])
  | turn_window :
      page <> 1 -> page <> max -> page <> current -> ~ leftBatch current pad g p page ->
      current - pad <= page <= current + pad ->
      turn current max pad g jumps p page (addPage p page 0 g)
  | turn_gap :
      page <> 1 -> page <> max -> current + pad + 1 = page -> page <> max - 1 ->
      turn current max pad g jumps p page (p ++ [Sym g])
  | turn_anchor v :
      page <> 1 -> page <> max -> current + pad < page ->
      len p < 7 + pad * 4 - 1 ->
      turn current max pad g jumps p page (addPage p v 1 g)
  | turn_skip :
      page <> 1 -> page <> max -> page <> current -> ~ leftBatch current pad g p page ->
      page < current - pad \/ current + pad < page ->
      turn current max pad g jumps p page p.

(** Where the run that ends in the window starts: at the window's first
    page, or at 1 when the window touches the first two pages. *)
Definition runStart (current pad : Z) : Z :=
  if decide (current - pad <= 2) then 1 else current - pad.

(** A trailing gap symbol right of the window is the one pushed after
    the window, and the last page does not close it. *)
Definition tailOK (current max pad : Z) (g : string) (p : list token) : Prop :=
  last p = Some (Sym g) ->
  exists init, p = init ++ [Page (current + pad); Sym g] /\ current + pad + 1 <> max - 1.

(** The state of the array after the turn of page [q]. *)
Record Inv (current max pad : Z) (g : string) (q : Z) (p : list token) : Prop := {
  inv_head : head p = Some (Page 1);
  inv_wf : wf g p;
  inv_nofix : nofix g p;
  inv_noAdj : noAdj p;
  inv_gaps : q <= current + pad -> (gaps g p <= 1)%nat;
  inv_weight :
    q <= current + pad ->
    weight g p <= 2 * pad + 4 + Z.max 0 (q - (current - pad) + 1);
  inv_left :
    0 < pad -> q < current ->
    (Sym g ∈ p) \/ (p = run 1 q /\ (q = 1 \/ current - pad <= q));
  inv_window :
    runStart current pad <= q <= current + pad ->
    run (runStart current pad) q `suffix_of` p \/
    (q < current /\ runStart current pad <= q - 1 /\
     (run (runStart current pad) (q - 1) ++ [Sym g]) `suffix_of` p);
  inv_after :
    current + pad < q ->
    infix (run (runStart current pad) (current + pad)) p /\
    tailOK current max pad g p /\
    len p <= 7 + pad * 4 - 1 + (if decide (q = max) then 1 else 0);
  inv_last : q = max -> last p = Some (Page max);
}.

(** * Array primitives *)

Section arrays.
Context {A : Type}.
Implicit Types (a b : list A) (x y : A).

Lemma len_app a b : len (a ++ b) = len a + len b.
Proof. unfold len. rewrite length_app. lia. Qed.

Lemma len_nonneg a : 0 <= len a.
Proof. unfold len. lia. Qed.

Lemma item_lookup a (i : nat) : item a (Z.of_nat i) = a !! i.
Proof. unfold item. rewrite decide_True by lia. by rewrite Nat2Z.id. Qed.

Lemma item_neg a i : i < 0 -> item a i = None.
Proof. intros. unfold item. by rewrite decide_False by lia. Qed.

Lemma item_last a : item a (len a - 1) = last a.
Proof.
  unfold item, len. destruct a as [|x a]; [done|].
  rewrite decide_True by (simpl; lia). rewrite last_lookup. f_equal. simpl. lia.
Qed.

Lemma item_second_last a y x : item (a ++ [y; x]) (len (a ++ [y; x]) - 2) = Some y.
Proof.
  rewrite len_app. unfold item, len. simpl. rewrite decide_True by lia.
  rewrite lookup_app_r by lia.
  match goal with |- _ !! ?i = _ => by replace i with 0%nat by lia end.
Qed.

Lemma store_last a x y : store (a ++ [x]) (len (a ++ [x]) - 1) y = a ++ [y].
Proof.
  unfold store. rewrite len_app. unfold len. simpl. rewrite decide_True by lia.
  match goal with |- <[?i:=_]> _ = _ => replace i with (length a + 0)%nat by lia end.
  by rewrite insert_app_r.
Qed.

Lemma for_loop_S {S} (n : nat) (body : Z -> S -> S) (s : S) :
  for_loop (Z.of_nat (Datatypes.S n)) body s
  = body (Z.of_nat n) (for_loop (Z.of_nat n) body s).
Proof. unfold for_loop. rewrite seqZ_S, foldl_app. simpl. by rewrite Z.add_0_l. Qed.

Lemma for_loop_nonpos {S} n (body : Z -> S -> S) (s : S) :
  n <= 0 -> for_loop n body s = s.
Proof. intros. unfold for_loop. by rewrite seqZ_nil. Qed.

(** A loop invariant rule for [for_loop]. *)
Lemma for_loop_ind {S} (P : Z -> S -> Prop) n (body : Z -> S -> S) (s : S) :
  P 0 s ->
  (forall i t, 0 <= i < n -> P i t -> P (i + 1) (body i t)) ->
  P (Z.max 0 n) (for_loop n body s).
Proof.
  intros H0 Hstep. destruct (decide (n <= 0)) as [Hn|Hn].
  { rewrite for_loop_nonpos by done. by rewrite Z.max_l by lia. }
  rewrite Z.max_r by lia.
  assert (forall k : nat, Z.of_nat k <= n -> P (Z.of_nat k) (for_loop (Z.of_nat k) body s)) as Hk.
  { induction k as [|k IH]; intros Hle.
    - by rewrite for_loop_nonpos.
    - rewrite for_loop_S. replace (Z.of_nat (Datatypes.S k)) with (Z.of_nat k + 1) by lia.
      apply Hstep; [lia|]. apply IH. lia. }
  specialize (Hk (Z.to_nat n)). rewrite Z2Nat.id in Hk by lia. apply Hk. lia.
Qed.
End arrays.

(** * The append rule, structurally *)

(** The shifting loop followed by the write at [gapAt] inserts the gap
    symbol at [gapAt]. *)
Lemma shiftRight_insert (p : list token) (x y : token) (k : nat) :
  last p = Some x -> (k < length p)%nat ->
  store (shiftRight (p ++ [x]) (Z.of_nat k)) (Z.of_nat k) y = take k p ++ y :: drop k p.
Proof.
  intros Hlast Hk. set (l := p ++ [x]). set (n := len p).
  assert (len l = n + 1) as Hl by (unfold l; rewrite len_app; done).
  pose (P := fun (i : Z) (t : list token) =>
    length t = length l /\
    forall j : nat, t !! j = if decide (n - i <= Z.of_nat j <= n - 1)
                             then l !! (j - 1)%nat else l !! j).
  assert (P (Z.max 0 (len l - Z.of_nat k - 2)) (shiftRight l (Z.of_nat k))) as [Hlen Hget].
  { unfold shiftRight. apply for_loop_ind.
    - split; [done|]. intros j. rewrite decide_False by lia. done.
    - intros i t Hi [Hlen Hget]. assert (len t = n + 1) as Ht by (unfold len in *; lia).
      rewrite Ht. replace (n + 1 - 3 - i) with (Z.of_nat (Z.to_nat (n - 2 - i))) by (unfold n, len in *; lia).
      rewrite item_lookup, Hget, decide_False by lia.
      destruct (l !! Z.to_nat (n - 2 - i)) as [v|] eqn:Hv.
      2:{ apply lookup_ge_None in Hv. unfold len in *. lia. }
      unfold store. rewrite decide_True by lia. split; [by rewrite length_insert|].
      intros j. destruct (decide (j = Z.to_nat (n + 1 - 2 - i))) as [->|Hne].
      + rewrite list_lookup_insert_eq by (unfold len in *; lia).
        rewrite decide_True by lia. rewrite <- Hv. f_equal. lia.
      + rewrite list_lookup_insert_ne by done. rewrite Hget.
        destruct (decide (n - i <= Z.of_nat j <= n - 1)), (decide (n - (i + 1) <= Z.of_nat j <= n - 1));
          try done; lia. }
  rewrite Z.max_r in Hget by (unfold n, len in *; lia).
  apply list_eq. intros j. unfold store. rewrite decide_True by (unfold len in *; lia).
  rewrite Nat2Z.id.
  destruct (decide (j = k)) as [->|Hne].
  - rewrite list_lookup_insert_eq by (unfold len in *; lia).
    rewrite lookup_app_r by (rewrite length_take; lia).
    rewrite length_take. by replace (k - k `min` length p)%nat with 0%nat by lia.
  - rewrite list_lookup_insert_ne by done. rewrite Hget.
    destruct (decide (j < k)%nat).
    + rewrite decide_False by lia. unfold l. rewrite lookup_app_l by lia.
      rewrite lookup_app_l by (rewrite length_take; lia). by rewrite lookup_take_lt.
    + rewrite (lookup_app_r (take k p)) by (rewrite length_take; lia).
      rewrite length_take. replace (j - k `min` length p)%nat with (S (j - k - 1))%nat by lia.
      simpl. rewrite lookup_drop. replace (k + (j - k - 1))%nat with (j - 1)%nat by lia.
      case_decide.
      * unfold l. rewrite lookup_app_l by (unfold n, len in *; lia). done.
      * destruct (decide (j = length p)) as [->|].
        -- unfold l. rewrite list_lookup_middle by done. rewrite <- Hlast, last_lookup.
           f_equal. lia.
        -- rewrite !lookup_ge_None_2; [done| |]; unfold l, n, len in *;
             rewrite ?length_app; simpl; lia.
Qed.

Lemma run_empty a b : b < a -> run a b = [].
Proof. intros. unfold run. by rewrite seqZ_nil by lia. Qed.

Lemma run_cons a b : a <= b -> run a b = Page a :: run (a + 1) b.
Proof.
  intros. unfold run. rewrite seqZ_cons by lia. simpl.
  replace (Z.succ a) with (a + 1) by lia.
  by replace (Z.pred (b - a + 1)) with (b - (a + 1) + 1) by lia.
Qed.

Lemma run_snoc a b : a <= b + 1 -> run a (b + 1) = run a b ++ [Page (b + 1)].
Proof.
  intros. unfold run. replace (b + 1 - a + 1) with ((b - a + 1) + 1) by lia.
  rewrite seqZ_app by lia. rewrite fmap_app. f_equal.
  by replace (a + (b - a + 1)) with (b + 1) by lia.
Qed.

Lemma run_single a : run a a = [Page a].
Proof. rewrite run_cons by lia. by rewrite run_empty by lia. Qed.

Lemma length_run a b : a <= b + 1 -> len (run a b) = b - a + 1.
Proof. intros. unfold run, len. rewrite length_fmap, length_seqZ. lia. Qed.

Lemma run_app a b c : a <= b + 1 -> b <= c -> run a c = run a b ++ run (b + 1) c.
Proof.
  intros. unfold run. replace (c - a + 1) with ((b - a + 1) + (c - (b + 1) + 1)) by lia.
  rewrite seqZ_app by lia. rewrite fmap_app. do 3 f_equal. lia.
Qed.

Lemma elem_of_run a b t : t ∈ run a b <-> exists n, t = Page n /\ a <= n <= b.
Proof.
  unfold run. rewrite list_elem_of_fmap. setoid_rewrite elem_of_seqZ.
  split; intros (n & ? & ?); exists n; split; auto; lia.
Qed.

Lemma last_run a b : a <= b -> last (run a b) = Some (Page b).
Proof.
  intros. replace b with ((b - 1) + 1) at 1 by lia. rewrite run_snoc by lia.
  rewrite last_snoc. f_equal. f_equal. lia.
Qed.

Lemma len_cons {A} (x : A) (a : list A) : len (x :: a) = len a + 1.
Proof. unfold len. simpl. lia. Qed.

Lemma len_nil {A} : len (@nil A) = 0.
Proof. done. Qed.

Lemma succ_differs_page x n :
  succ_differs x (Some (Page n)) = false -> x = Some (Page (n - 1)).
Proof.
  destruct x as [[m|s]|]; simpl; try done.
  rewrite negb_false_iff, bool_decide_eq_true. intros. do 2 f_equal. lia.
Qed.

Lemma consec_run_end l n :
  consec l -> last l = Some (Page n) -> l = run (n - len l + 1) n.
Proof.
  induction l as [|x [|y r] IH]; intros Hc Hlast; [done| |].
  - simpl in Hlast. injection Hlast as ->. rewrite len_cons, len_nil.
    replace (n - (0 + 1) + 1) with n by lia. by rewrite run_single.
  - destruct Hc as [Hd Hc]. specialize (IH Hc Hlast).
    assert (y = Page (n - len (y :: r) + 1)) as Hy.
    { rewrite run_cons in IH by (rewrite len_cons; pose proof (len_nonneg r); lia).
      by injection IH. }
    rewrite (len_cons x).
    rewrite run_cons by (pose proof (len_nonneg (y :: r)); lia).
    replace (n - (len (y :: r) + 1) + 1 + 1) with (n - len (y :: r) + 1) by lia.
    rewrite <- IH. f_equal.
    rewrite Hy in Hd. apply succ_differs_page in Hd. injection Hd as ->. f_equal. lia.
Qed.

Lemma consec_run a b : consec (run a b).
Proof.
  destruct (decide (b < a)) as [|Hab]; [by rewrite run_empty|].
  assert (exists k : nat, b = a + Z.of_nat k) as [k ->] by (exists (Z.to_nat (b - a)); lia).
  clear Hab. revert a. induction k as [|k IH]; intros a.
  - rewrite Z.add_0_r, run_single. done.
  - rewrite run_cons by lia. specialize (IH (a + 1)).
    replace (a + 1 + Z.of_nat k) with (a + Z.of_nat (S k)) in IH by lia.
    rewrite run_cons in IH |- * by lia. split; [|done].
    simpl. by rewrite bool_decide_eq_true_2.
Qed.

Lemma consec_lookup l :
  (forall j : nat, (S j < length l)%nat -> succ_differs (l !! j) (l !! S j) = false) ->
  consec l.
Proof.
  induction l as [|x [|y r] IH]; intros H; [done..|]. split.
  - apply (H 0%nat). simpl. lia.
  - apply IH. intros j Hj. apply (H (S j)). simpl in *. lia.
Qed.

Lemma consec_app_inv l1 l2 : consec (l1 ++ l2) -> consec l1 /\ consec l2.
Proof.
  induction l1 as [|x [|y r] IH]; intros H.
  - done.
  - split; [done|]. destruct l2; [done|]. by destruct H.
  - destruct H as [Hd H]. destruct (IH H) as [H1 H2]. by repeat split.
Qed.

Lemma consec_mid l1 x y l2 :
  consec (l1 ++ x :: y :: l2) -> succ_differs (Some x) (Some y) = false.
Proof. intros H. apply consec_app_inv in H as [_ H]. by destruct H. Qed.

Lemma scanGap_none p n :
  scanGap p n = -1 ->
  forall j : nat, (j < n)%nat -> succ_differs (p !! j) (p !! S j) = false.
Proof.
  induction n as [|n IH]; intros H j Hj; [lia|]. simpl in H.
  destruct (succ_differs (p !! n) (p !! S n)) eqn:Hd; [lia|].
  destruct (decide (j = n)) as [->|]; [done|]. apply IH; [done|lia].
Qed.

Lemma scanGap_some p n :
  scanGap p n <> -1 ->
  exists i : nat, (i < n)%nat /\ scanGap p n = Z.of_nat i + 1 /\
    succ_differs (p !! i) (p !! S i) = true /\
    forall j : nat, (i < j < n)%nat -> succ_differs (p !! j) (p !! S j) = false.
Proof.
  induction n as [|n IH]; intros H; [done|]. simpl in H |- *.
  destruct (succ_differs (p !! n) (p !! S n)) eqn:Hd.
  - exists n. repeat split; [lia|done|]. intros; lia.
  - destruct (IH H) as (i & Hi & Hs & Hdi & Hrest). exists i. repeat split; [lia|done..|].
    intros j Hj. destruct (decide (j = n)) as [->|]; [done|]. apply Hrest. lia.
Qed.

(** A list ends with no, one or at least two elements. *)
Lemma snoc2_cases {A} (p : list A) :
  p = [] \/ (exists x, p = [x]) \/ exists init y x, p = init ++ [y; x].
Proof.
  destruct p as [|x p] using rev_ind; [by left|]. right.
  destruct p as [|y p _] using rev_ind; [left; by exists x|].
  right. exists p, y, x. by rewrite <- app_assoc.
Qed.

Lemma snoc2_inj {A} (l1 l2 : list A) y1 x1 y2 x2 :
  l1 ++ [y1; x1] = l2 ++ [y2; x2] -> l1 = l2 /\ y1 = y2 /\ x1 = x2.
Proof.
  intros H. apply app_inj_2 in H as [? H]; [|done]. by injection H.
Qed.

Lemma last_snoc2 {A} (l : list A) y x : last (l ++ [y; x]) = Some x.
Proof. by rewrite last_app. Qed.

Lemma last_snoc3 {A} (l : list A) z y x : last (l ++ [z; y; x]) = Some x.
Proof. by rewrite last_app. Qed.

Lemma store_last2 {A} (l : list A) y x z :
  store (l ++ [y; x]) (len (l ++ [y; x]) - 1) z = l ++ [y; z].
Proof.
  rewrite (cons_middle y l [x]), app_assoc, store_last, <- app_assoc. done.
Qed.

Lemma is_sym_true g x : is_sym g x = true <-> x = Some (Sym g).
Proof.
  destruct x as [[n|s]|]; simpl; try (split; done).
  rewrite bool_decide_eq_true. split; [by intros ->|by intros [= ->]].
Qed.

Lemma is_num_true n x : is_num n x = true <-> x = Some (Page n).
Proof.
  destruct x as [[m|s]|]; simpl; try (split; done).
  rewrite bool_decide_eq_true. split; [by intros ->|by intros [= ->]].
Qed.

Lemma addPage_cases g p page position :
  exists core, added g p page position core /\
               addPage p page position g = fixSmallGap core g.
Proof.
  unfold addPage. cbv zeta. rewrite item_last.
  destruct (is_sym g (last p) && is_num (page - 2) (item p (len p - 2))) eqn:Hc.
  - apply andb_true_iff in Hc as [Hs Hn].
    apply is_sym_true in Hs. apply is_num_true in Hn.
    destruct (snoc2_cases p) as [->|[[x ->]|(init & y & x & ->)]]; [done..|].
    rewrite item_second_last in Hn. injection Hn as ->.
    rewrite last_snoc2 in Hs. injection Hs as ->.
    rewrite store_last2.
    replace ((init ++ [Page (page - 2); Page (page - 1)]) ++ [Page page])
      with (init ++ [Page (page - 2); Page (page - 1); Page page])
      by (by rewrite <- app_assoc).
    remember (init ++ [Page (page - 2); Page (page - 1); Page page]) as p1 eqn:Hp1.
    assert (last p1 = Some (Page page)) as Hlast.
    { subst p1. by rewrite last_snoc3. }
    assert (length p1 = S (S (S (length init)))) as Hlen.
    { subst p1. rewrite length_app. simpl. lia. }
    case_bool_decide as Hpos.
    2:{ exists p1. split; [|done]. subst p1. eapply added_collapse; [done|left; lia]. }
    destruct (decide (scanGap p1 (Z.to_nat (len p1 - 1)) = -1)) as [Hg|Hg].
    + rewrite Hg. rewrite bool_decide_eq_false_2 by lia.
      exists p1. split; [|done].
      assert (consec p1) as Hcons.
      { apply consec_lookup. intros j Hj. eapply scanGap_none; [done|]. unfold len. lia. }
      subst p1. eapply added_collapse; [done|by right].
    + destruct (scanGap_some _ _ Hg) as (i & Hi & -> & Hd & Hrest).
      unfold len in Hi.
      rewrite bool_decide_eq_true_2 by lia.
      replace (Z.of_nat i + 1) with (Z.of_nat (S i)) by lia.
      rewrite shiftRight_insert; [|done|lia].
      exists (take (S i) p1 ++ Sym g :: drop (S i) p1). split; [|done].
      eapply added_reopen; [done|done|by rewrite <- Hp1, take_drop|..].
      * intros Ht. apply (f_equal length) in Ht. rewrite length_take, length_nil in Ht. lia.
      * intros Ht. apply (f_equal length) in Ht. rewrite length_drop, length_nil in Ht. lia.
      * rewrite last_lookup, length_take, head_lookup, lookup_drop.
        replace (pred (S i `min` length p1)) with i by lia.
        rewrite lookup_take_lt by lia.
        by replace (S i + 0)%nat with (S i) by lia.
      * apply consec_lookup. intros j Hj. rewrite !lookup_drop.
        replace (S i + S j)%nat with (S (S i + j)) by lia.
        apply Hrest. rewrite length_drop in Hj. unfold len. lia.
  - apply andb_false_iff in Hc.
    assert (forall init, p <> init ++ [Page (page - 2); Sym g]) as Hno.
    { intros init ->. rewrite last_snoc2, item_second_last in Hc.
      destruct Hc as [Hc|Hc]; simpl in Hc; by rewrite bool_decide_eq_true_2 in Hc. }
    destruct (is_num page (last p)) eqn:Hn; simpl.
    + apply is_num_true in Hn. exists p. split; [by apply added_same|done].
    + exists (p ++ [Page page]). split; [|done]. apply added_push; [|done].
      intros Hl. apply is_num_true in Hl. congruence.
Qed.

Lemma item_1 {A} (a : list A) : item a 1 = a !! 1%nat.
Proof. apply (item_lookup a 1). Qed.

Lemma item_2 {A} (a : list A) : item a 2 = a !! 2%nat.
Proof. apply (item_lookup a 2). Qed.

Lemma store_1 {A} (x y z : A) (r : list A) : store (x :: y :: r) 1 z = x :: z :: r.
Proof.
  unfold store. rewrite !len_cons. pose proof (len_nonneg r).
  by rewrite decide_True by lia.
Qed.

(** The closing fix either leaves the array alone or rewrites its
    second slot. *)
Lemma fixSmallGap_cases g p :
  (fixSmallGap p g = p /\
   ~ (p !! 1%nat = Some (Sym g) /\ p !! 2%nat = Some (Page 3))) \/
  (exists x r, p = x :: Sym g :: Page 3 :: r /\
               fixSmallGap p g = x :: Page 2 :: Page 3 :: r).
Proof.
  unfold fixSmallGap. rewrite item_1, item_2.
  destruct (is_sym g (p !! 1%nat) && is_num 3 (p !! 2%nat)) eqn:Hc.
  - right. apply andb_true_iff in Hc as [Hs Hn].
    apply is_sym_true in Hs. apply is_num_true in Hn.
    destruct p as [|x [|y [|z r]]]; try done.
    injection Hs as ->. injection Hn as ->. exists x, r. by rewrite store_1.
  - left. split; [done|]. intros [H1 H2].
    apply andb_false_iff in Hc as [Hc|Hc].
    + rewrite <- is_sym_true in H1. congruence.
    + rewrite <- is_num_true in H2. congruence.
Qed.

(** * State predicates of the builder *)

Section predicates.
Variable g : string.
Implicit Types (p a b : list token).

Lemma gaps_app a b : gaps g (a ++ b) = (gaps g a + gaps g b)%nat.
Proof. induction a as [|t a IH]; simpl; [done|]. rewrite IH. lia. Qed.

Lemma gaps_cons t p : gaps g (t :: p) = (gaps g [t] + gaps g p)%nat.
Proof. simpl. lia. Qed.

Lemma gaps_page n : gaps g [Page n] = 0%nat.
Proof. done. Qed.

Lemma gaps_sym : gaps g [Sym g] = 1%nat.
Proof. simpl. by rewrite decide_True. Qed.

Lemma gaps_0 p : gaps g p = 0%nat <-> Sym g ∉ p.
Proof.
  induction p as [|t p IH]; simpl.
  - split; [intros _; apply not_elem_of_nil|done].
  - rewrite not_elem_of_cons. case_decide as Ht.
    + subst t. split; [lia|]. by intros [? _].
    + rewrite <- IH. split; [intros; split; [congruence|lia]|intros [_ ?]; lia].
Qed.

Lemma wf_app a b : wf g (a ++ b) <-> wf g a /\ wf g b.
Proof. apply Forall_app. Qed.

Lemma wf_pages p : Forall isPage p -> wf g p.
Proof. intros H. eapply Forall_impl; [done|]. intros t [n ->]. right. by exists n. Qed.

Lemma isPage_run (m n : Z) : Forall isPage (run m n).
Proof. apply Forall_forall. intros t Ht. apply elem_of_run in Ht as (k & -> & _). by exists k. Qed.

Lemma noAdj_app a b :
  noAdj (a ++ b) <->
  noAdj a /\ noAdj b /\ (forall x y, last a = Some x -> head b = Some y -> x <> y).
Proof.
  induction a as [|x [|y a] IH].
  - simpl. split; [intros; repeat split; [done|done]|tauto].
  - destruct b as [|y b]; simpl.
    + split; [intros; repeat split; done|done].
    + split.
      * intros [Hxy Hb]. repeat split; [done|]. intros ?? [= <-] [= <-]. done.
      * intros (_ & Hb & Hl). split; [|done]. by apply Hl.
  - change ((x :: y :: a) ++ b) with (x :: ((y :: a) ++ b)).
    change (noAdj (x :: (y :: a) ++ b)) with (x <> y /\ noAdj ((y :: a) ++ b)).
    rewrite IH. change (noAdj (x :: y :: a)) with (x <> y /\ noAdj (y :: a)).
    rewrite (last_cons_cons x y a). tauto.
Qed.

Lemma noAdj_run (m n : Z) : noAdj (run m n).
Proof.
  destruct (decide (n < m)) as [|Hmn]; [by rewrite run_empty|].
  assert (exists k : nat, n = m + Z.of_nat k) as [k ->] by (exists (Z.to_nat (n - m)); lia).
  clear Hmn. revert m. induction k as [|k IH]; intros m.
  - rewrite Z.add_0_r, run_single. done.
  - rewrite run_cons by lia. specialize (IH (m + 1)).
    replace (m + 1 + Z.of_nat k) with (m + Z.of_nat (S k)) in IH by lia.
    rewrite run_cons in IH |- * by lia. split; [|done]. intros [=]. lia.
Qed.

(** Reading [noAdj] by indices. *)
Lemma noAdj_lookup p (i : nat) x :
  noAdj p -> p !! i = Some x -> p !! S i = Some x -> False.
Proof.
  revert i. induction p as [|y [|z p] IH]; intros i Hp Hi Hsi; [done| |].
  - by destruct i.
  - destruct Hp as [Hne Hp]. destruct i as [|i]; simpl in *.
    + congruence.
    + by eapply IH.
Qed.

(** ** The closing fix *)

Lemma fixSmallGap_id p : nofix g p -> fixSmallGap p g = p.
Proof.
  intros Hn. destruct (fixSmallGap_cases g p) as [[-> _]|(x & r & -> & _)]; [done|].
  by destruct Hn.
Qed.

Lemma fixSmallGap_nofix p : nofix g (fixSmallGap p g).
Proof.
  destruct (fixSmallGap_cases g p) as [[-> ?]|(x & r & -> & ->)]; [done|].
  by intros [[=] _].
Qed.

Lemma fixSmallGap_head p : head (fixSmallGap p g) = head p.
Proof. by destruct (fixSmallGap_cases g p) as [[-> ?]|(x & r & -> & ->)]. Qed.

Lemma fixSmallGap_last p : last (fixSmallGap p g) = last p.
Proof. by destruct (fixSmallGap_cases g p) as [[-> ?]|(x & r & -> & ->)]. Qed.

Lemma fixSmallGap_len p : len (fixSmallGap p g) = len p.
Proof. by destruct (fixSmallGap_cases g p) as [[-> ?]|(x & r & -> & ->)]. Qed.

Lemma fixSmallGap_wf p : wf g p -> wf g (fixSmallGap p g).
Proof.
  destruct (fixSmallGap_cases g p) as [[-> ?]|(x & r & -> & ->)]; [done|].
  unfold wf. rewrite !Forall_cons. intros (? & _ & ? & ?).
  repeat split; try done. right. by exists 2.
Qed.

Lemma fixSmallGap_gaps p : (gaps g (fixSmallGap p g) <= gaps g p)%nat.
Proof.
  destruct (fixSmallGap_cases g p) as [[-> ?]|(x & r & -> & ->)]; [done|].
  rewrite (gaps_cons x), (gaps_cons (Page 2)), (gaps_cons x (Sym g :: _)), (gaps_cons (Sym g)).
  rewrite gaps_page, gaps_sym. lia.
Qed.

Lemma fixSmallGap_noAdj p :
  head p = Some (Page 1) -> noAdj p -> noAdj (fixSmallGap p g).
Proof.
  destruct (fixSmallGap_cases g p) as [[-> ?]|(x & r & -> & ->)]; [done|].
  intros [= ->] (_ & _ & H). by repeat split.
Qed.

(** A block of page numbers survives the fix: the fix only rewrites a
    gap symbol. *)
Lemma fixSmallGap_infix w p :
  Forall isPage w -> infix w p -> infix w (fixSmallGap p g).
Proof.
  intros Hw (a & b & Hp).
  destruct (fixSmallGap_cases g p) as [[-> ?]|(x & r & Hp' & ->)]; [by exists a, b|].
  rewrite Hp' in Hp. clear Hp'.
  assert (Sym g ∉ w) as Hg.
  { intros Hin. rewrite Forall_forall in Hw. by destruct (Hw _ Hin). }
  destruct a as [|x' [|y' a]]; simpl in Hp.
  - destruct w as [|t [|t' w]]; simpl in Hp.
    + exists [], (x :: Page 2 :: Page 3 :: r). done.
    + injection Hp as <- <-. by exists [], (Page 2 :: Page 3 :: r).
    + injection Hp as _ <- _. destruct Hg. apply elem_of_cons. right. apply elem_of_cons. by left.
  - injection Hp as <- Hp. destruct w as [|t w]; simpl in Hp.
    + subst b. by exists [x], (Page 2 :: Page 3 :: r).
    + injection Hp as <- _. destruct Hg. apply elem_of_cons. by left.
  - injection Hp as <- <- Hp. exists (x :: Page 2 :: a), b. simpl. by rewrite <- Hp.
Qed.

Lemma fixSmallGap_suffix w p :
  Forall isPage w -> w `suffix_of` p -> w `suffix_of` fixSmallGap p g.
Proof.
  intros Hw [k Hp].
  destruct (fixSmallGap_cases g p) as [[-> ?]|(x & r & Hp' & ->)]; [by exists k|].
  rewrite Hp' in Hp. clear Hp'.
  assert (Sym g ∉ w) as Hg.
  { intros Hin. rewrite Forall_forall in Hw. by destruct (Hw _ Hin). }
  destruct k as [|x' [|y' k]]; simpl in Hp.
  - subst w. destruct Hg. apply elem_of_cons. right. apply elem_of_cons. by left.
  - injection Hp as <- <-. destruct Hg. apply elem_of_cons. by left.
  - injection Hp as <- <- Hp. exists (x :: Page 2 :: k). simpl. by rewrite <- Hp.
Qed.
End predicates.

(** * Properties of the append rule *)

Section appendRule.
Variable g : string.
Implicit Types (p a b init w : list token) (page position : Z).

Local Abbreviation collapsible := (collapsible g).

Lemma head_app_cons {A} (l : list A) x r r' :
  head (l ++ x :: r) = head (l ++ x :: r').
Proof. by destruct l. Qed.

Lemma head_app_ne {A} (l r : list A) : l <> [] -> head (l ++ r) = head l.
Proof. by destruct l. Qed.

Lemma last_app_ne {A} (l r : list A) : r <> [] -> last (l ++ r) = last r.
Proof.
  intros Hr. rewrite last_app. destruct (last r) eqn:Hl; [done|].
  by apply last_None in Hl.
Qed.

Lemma not_collapsible_last p page :
  last p <> Some (Sym g) -> ~ collapsible p page.
Proof. intros Hl [init ->]. by rewrite last_snoc2 in Hl. Qed.

(** Without a closable gap the rule pushes or does nothing. *)
Lemma addPage_simple p page position :
  ~ collapsible p page ->
  (last p = Some (Page page) /\ addPage p page position g = fixSmallGap p g) \/
  (last p <> Some (Page page) /\
   addPage p page position g = fixSmallGap (p ++ [Page page]) g).
Proof.
  intros Hnc. destruct (addPage_cases g p page position) as (core & Hadd & ->).
  destruct Hadd as [Hl|Hl _|init Hp _|init a b Hp _ _ _ _ _ _].
  - by left.
  - by right.
  - destruct Hnc. by exists init.
  - destruct Hnc. by exists init.
Qed.

Lemma nofix_nogap p : Sym g ∉ p -> nofix g p.
Proof. intros Hn [H1 _]. apply Hn. by eapply list_elem_of_lookup_2. Qed.

(** On an array without gap symbol. *)
Lemma addPage_nogap p page position :
  Sym g ∉ p ->
  (last p = Some (Page page) /\ addPage p page position g = p) \/
  (last p <> Some (Page page) /\ addPage p page position g = p ++ [Page page]).
Proof.
  intros Hn.
  destruct (addPage_simple p page position) as [[Hl ->]|[Hl ->]].
  - intros [init ->]. apply Hn. rewrite elem_of_app, !elem_of_cons. tauto.
  - left. split; [done|]. by apply fixSmallGap_id, nofix_nogap.
  - right. split; [done|]. apply fixSmallGap_id, nofix_nogap.
    rewrite elem_of_app, list_elem_of_singleton. by intros [?|?].
Qed.

Lemma addPage_nil page position : addPage [] page position g = [Page page].
Proof. by destruct (addPage_nogap [] page position) as [[? ?]|[_ ->]]; [apply not_elem_of_nil|..]. Qed.

Lemma addPage_last p page position :
  last (addPage p page position g) = Some (Page page).
Proof.
  destruct (addPage_cases g p page position) as (core & Hadd & ->).
  rewrite fixSmallGap_last.
  destruct Hadd as [Hl|Hl _|init Hp _|init a b Hp _ Hab _ Hb _ _].
  - done.
  - by rewrite last_snoc.
  - by rewrite last_snoc3.
  - rewrite last_app_ne by done. rewrite last_cons.
    assert (last b = Some (Page page)) as ->; [|done].
    rewrite <- (last_app_ne a b), <- Hab by done. by rewrite last_snoc3.
Qed.

Lemma addPage_head p page position :
  head p = Some (Page 1) -> head (addPage p page position g) = Some (Page 1).
Proof.
  intros Hh. destruct (addPage_cases g p page position) as (core & Hadd & ->).
  rewrite fixSmallGap_head.
  destruct Hadd as [Hl|Hl _|init Hp _|init a b Hp _ Hab Ha _ _ _].
  - done.
  - rewrite head_app_ne; [done|]. by intros ->.
  - subst p. by rewrite (head_app_cons init _ _ [Sym g]).
  - rewrite head_app_ne, <- (head_app_ne a b), <- Hab by done.
    subst p. by rewrite (head_app_cons init _ _ [Sym g]).
Qed.

Lemma addPage_wf p page position : wf g p -> wf g (addPage p page position g).
Proof.
  intros Hwf. destruct (addPage_cases g p page position) as (core & Hadd & ->).
  apply fixSmallGap_wf.
  assert (forall n, wf g [Page n]) as Hpage.
  { intros n. apply Forall_singleton. right. by exists n. }
  assert (forall init, p = init ++ [Page (page - 2); Sym g] ->
            wf g (init ++ [Page (page - 2); Page (page - 1); Page page])) as Hcore.
  { intros init ->. apply wf_app in Hwf as [Hi _]. apply wf_app. split; [done|].
    repeat apply Forall_cons_2; try (right; by eexists). apply Forall_nil_2. }
  destruct Hadd as [Hl|Hl _|init Hp _|init a b Hp _ Hab _ _ _ _].
  - done.
  - apply wf_app. by split.
  - by apply Hcore.
  - specialize (Hcore _ Hp). rewrite Hab in Hcore. apply wf_app in Hcore as [Ha Hb].
    apply wf_app. split; [done|]. apply Forall_cons_2; [by left|done].
Qed.

Lemma addPage_gaps p page position :
  (gaps g (addPage p page position g) <= gaps g p)%nat.
Proof.
  destruct (addPage_cases g p page position) as (core & Hadd & ->).
  etrans; [apply fixSmallGap_gaps|].
  assert (forall init, gaps g (init ++ [Page (page - 2); Sym g])
            = S (gaps g (init ++ [Page (page - 2); Page (page - 1); Page page]))) as Hcore.
  { intros init. rewrite !gaps_app. simpl. rewrite decide_True by done. lia. }
  destruct Hadd as [Hl|Hl _|init Hp _|init a b Hp _ Hab _ _ _ _].
  - done.
  - rewrite gaps_app. simpl. lia.
  - subst p. rewrite Hcore. lia.
  - subst p. rewrite Hcore, Hab, !gaps_app, (gaps_cons g (Sym g)), gaps_sym. lia.
Qed.

Lemma weight_bounds p : len p <= weight g p <= len p + 1.
Proof. unfold weight. case_decide; lia. Qed.

Lemma weight_page p n : last p = Some (Page n) -> weight g p = len p.
Proof. intros Hl. unfold weight. rewrite Hl. rewrite decide_False by done. lia. Qed.

Lemma weight_gap p : weight g (p ++ [Sym g]) = len p + 2.
Proof.
  unfold weight. rewrite last_snoc, decide_True by done. rewrite len_app, len_cons, len_nil. lia.
Qed.

(** The weight grows by at most one with each added page. *)
Lemma addPage_weight p page position :
  weight g (addPage p page position g) <= weight g p + 1.
Proof.
  rewrite (weight_page _ page) by apply addPage_last.
  destruct (addPage_cases g p page position) as (core & Hadd & ->).
  rewrite fixSmallGap_len.
  assert (forall init, len (init ++ [Page (page - 2); Page (page - 1); Page page])
            = weight g (init ++ [Page (page - 2); Sym g])) as Hcore.
  { intros init. unfold weight. rewrite last_snoc2, decide_True by done.
    rewrite !len_app, !len_cons, !len_nil. lia. }
  pose proof (weight_bounds p).
  destruct Hadd as [Hl|Hl _|init Hp _|init a b Hp _ Hab _ _ _ _].
  - lia.
  - rewrite len_app, len_cons, len_nil. lia.
  - subst p. rewrite Hcore. lia.
  - subst p. rewrite <- Hcore, Hab, !len_app, len_cons. lia.
Qed.

(** The length grows by at most one unless a gap is closed and re-opened. *)
Lemma addPage_len p page position :
  1 <= position \/ ~ collapsible p page ->
  len (addPage p page position g) <= len p + 1.
Proof.
  intros Hor. destruct (addPage_cases g p page position) as (core & Hadd & ->).
  rewrite fixSmallGap_len.
  destruct Hadd as [Hl|Hl _|init Hp _|init a b Hp Hpos Hab _ _ _ _].
  - lia.
  - rewrite len_app, len_cons, len_nil. lia.
  - subst p. rewrite !len_app, !len_cons, !len_nil. lia.
  - destruct Hor as [?|Hnc]; [lia|]. destruct Hnc. by exists init.
Qed.

Lemma addPage_noAdj p page position :
  head p = Some (Page 1) -> noAdj p ->
  1 <= position \/ (gaps g p <= 1)%nat \/ ~ collapsible p page ->
  noAdj (addPage p page position g).
Proof.
  intros Hh Hna Hor.
  pose proof (addPage_head p page position Hh) as Hh'.
  destruct (addPage_cases g p page position) as (core & Hadd & Heq).
  rewrite Heq in Hh' |- *. rewrite fixSmallGap_head in Hh'.
  apply fixSmallGap_noAdj; [done|]. clear Heq Hh'.
  assert (forall init, p = init ++ [Page (page - 2); Sym g] ->
            noAdj (init ++ [Page (page - 2); Page (page - 1); Page page])) as Hcore.
  { intros init ->.
    rewrite (cons_middle (Page (page - 2)) init [Sym g]), app_assoc in Hna.
    apply noAdj_app in Hna as (Hna & _ & _).
    rewrite (cons_middle (Page (page - 2)) init), app_assoc.
    apply noAdj_app. split; [done|]. split.
    - split; [|done]. intros [=]. lia.
    - intros x y. rewrite last_snoc. intros [= <-] [= <-] [=]. lia. }
  destruct Hadd as [Hl|Hl _|init Hp _|init a b Hp Hpos Hab _ _ _ _].
  - done.
  - apply noAdj_app. split; [done|]. split; [done|].
    intros x y Hx [= <-] ->. done.
  - by apply Hcore.
  - destruct Hor as [?|[Hg|Hnc]]; [lia| |destruct Hnc; by exists init].
    specialize (Hcore _ Hp). rewrite Hab in Hcore.
    apply noAdj_app in Hcore as (Ha & Hb & _).
    assert (gaps g (a ++ b) = 0%nat) as H0.
    { rewrite <- Hab. subst p. rewrite !gaps_app in Hg |- *. simpl in Hg |- *.
      rewrite decide_True in Hg by done. lia. }
    rewrite gaps_app in H0.
    assert (Sym g ∉ a) as Hga by (apply gaps_0; lia).
    assert (Sym g ∉ b) as Hgb by (apply gaps_0; lia).
    apply noAdj_app. split; [done|]. split.
    + change (Sym g :: b) with ([Sym g] ++ b). apply noAdj_app.
      split; [done|]. split; [done|].
      intros x y [= <-] Hy <-. apply Hgb. by eapply head_Some_elem_of.
    + intros x y Hx [= <-] ->. apply Hga. by eapply last_Some_elem_of.
Qed.

End appendRule.

(** * The window and the append rule *)

Section windowRule.
Variable g : string.
Implicit Types (p a b init w : list token) (page position : Z).

Lemma infix_app_r w p r : infix w p -> infix w (p ++ r).
Proof. intros (a & b & ->). exists a, (b ++ r). by rewrite <- !app_assoc. Qed.

Lemma infix_suffix w p : w `suffix_of` p -> infix w p.
Proof. intros [k ->]. exists k, []. by rewrite app_nil_r. Qed.

Lemma infix_of_infix v w p : infix v w -> infix w p -> infix v p.
Proof.
  intros (a & b & ->) (c & d & ->). exists (c ++ a), (b ++ d).
  by rewrite <- !app_assoc.
Qed.

(** A block of page numbers does not reach into a trailing gap symbol. *)
Lemma infix_snoc_gap w p :
  Forall isPage w -> infix w (p ++ [Sym g]) -> infix w p.
Proof.
  intros Hw (a & b & Hp). destruct b as [|x b _] using rev_ind.
  - rewrite app_nil_r in Hp. destruct w as [|y w _] using rev_ind.
    + exists p, []. by rewrite !app_nil_r.
    + rewrite app_assoc in Hp. apply app_inj_tail in Hp as [_ <-].
      rewrite Forall_app, Forall_singleton in Hw. destruct Hw as [_ [n Hn]]. done.
  - rewrite !app_assoc in Hp. apply app_inj_tail in Hp as [-> _].
    exists a, b. by rewrite app_assoc.
Qed.

Lemma addPage_infix w p page position :
  Forall isPage w -> infix w p ->
  1 <= position \/ ~ collapsible g p page ->
  infix w (addPage p page position g).
Proof.
  intros Hw Hin Hor. destruct (addPage_cases g p page position) as (core & Hadd & ->).
  apply fixSmallGap_infix; [done|].
  destruct Hadd as [Hl|Hl _|init Hp _|init a b Hp Hpos Hab _ _ _ _].
  - done.
  - by apply infix_app_r.
  - destruct Hor as [_|Hnc]; [|destruct Hnc; by exists init].
    subst p. rewrite (cons_middle (Page (page - 2)) init [Sym g]), app_assoc in Hin.
    apply infix_snoc_gap in Hin; [|done].
    rewrite (cons_middle (Page (page - 2)) init), app_assoc. by apply infix_app_r.
  - destruct Hor as [?|Hnc]; [lia|]. destruct Hnc. by exists init.
Qed.

(** After a page of the window, the next page extends the run. *)
Lemma addPage_suffix_push s q p position :
  s <= q -> run s q `suffix_of` p ->
  run s (q + 1) `suffix_of` addPage p (q + 1) position g.
Proof.
  intros Hsq Hsuf.
  assert (last p = Some (Page q)) as Hl.
  { destruct Hsuf as [k ->]. rewrite last_app_ne, last_run; [done|lia|].
    rewrite run_cons by lia. done. }
  destruct (addPage_simple g p (q + 1) position) as [[Hl' _]|[_ ->]].
  - apply not_collapsible_last. by rewrite Hl.
  - rewrite Hl in Hl'. injection Hl' as ?. lia.
  - apply fixSmallGap_suffix; [apply isPage_run|].
    rewrite run_snoc by lia. by apply suffix_app.
Qed.

Lemma consec_app_mid a b :
  a <> [] -> b <> [] -> consec (a ++ b) -> succ_differs (last a) (head b) = false.
Proof.
  intros Ha Hb Hc. destruct a as [|x a _] using rev_ind; [done|].
  destruct b as [|y b]; [done|]. rewrite last_snoc. simpl.
  rewrite <- app_assoc in Hc. simpl in Hc. by apply consec_mid in Hc.
Qed.

(** After a skipped page of the window (a gap symbol stands in for it),
    the next page closes the gap and the run is whole again, also when
    a gap is re-opened further left. *)
Lemma addPage_suffix_collapse s q p position :
  s <= q - 1 -> (run s (q - 1) ++ [Sym g]) `suffix_of` p ->
  run s (q + 1) `suffix_of` addPage p (q + 1) position g.
Proof.
  intros Hsq [k Hp].
  assert (p = (k ++ run s (q - 2)) ++ [Page (q + 1 - 2); Sym g]) as Hp'.
  { rewrite Hp. replace (q - 1) with (q - 2 + 1) by lia. rewrite run_snoc by lia.
    rewrite <- !app_assoc. simpl. do 4 f_equal. lia. }
  assert ((k ++ run s (q - 2)) ++ [Page (q + 1 - 2); Page (q + 1 - 1); Page (q + 1)]
          = k ++ run s (q + 1)) as Hrun.
  { rewrite (run_app s (q - 2) (q + 1)) by lia.
    rewrite (run_cons (q - 2 + 1)), (run_cons (q - 2 + 1 + 1)) by lia.
    replace (q - 2 + 1 + 1 + 1) with (q + 1) by lia. rewrite run_single.
    rewrite <- !app_assoc. do 4 f_equal; [f_equal; lia|]. f_equal. f_equal. lia. }
  destruct (addPage_cases g p (q + 1) position) as (core & Hadd & ->).
  apply fixSmallGap_suffix; [apply isPage_run|].
  destruct Hadd as [Hl|_ Hnc|init Hi _|init a b Hi Hpos Hab Ha Hb Hd Hc].
  - rewrite Hp, app_assoc, last_snoc in Hl. done.
  - by destruct (Hnc _ Hp').
  - rewrite Hi in Hp'. apply snoc2_inj in Hp' as (-> & _ & _).
    rewrite Hrun. by exists k.
  - rewrite Hi in Hp'. apply snoc2_inj in Hp' as (-> & _ & _).
    rewrite Hrun in Hab.
    assert (run s (q + 1) `suffix_of` b) as [c ->].
    { destruct (suffix_weak_total (run s (q + 1)) b (k ++ run s (q + 1))) as [Hs|[c Hs]];
        [by exists k|by (exists a)|done|].
      destruct c as [|x c _] using rev_ind; [exists []; by rewrite Hs|].
      rewrite Hs, app_assoc in Hab. apply app_inj_2 in Hab as [Hka _]; [|done].
      assert (succ_differs (last (c ++ [x])) (head b) = false) as Hf.
      { apply consec_app_mid; [by destruct c|done|]. rewrite <- Hs. apply consec_run. }
      rewrite <- Hka, last_app_ne in Hd by (by destruct c). congruence. }
    exists (a ++ Sym g :: c). rewrite <- app_assoc. done.
Qed.

(** ** The left side: either a gap symbol is present or the array is a
    run from 1 *)

Lemma run_from_head l n :
  consec l -> last l = Some (Page n) -> head l = Some (Page 1) -> l = run 1 n.
Proof.
  intros Hc Hl Hh. rewrite (consec_run_end l n Hc Hl) in Hh |- *.
  destruct l as [|x l]; [done|].
  rewrite run_cons in Hh by (rewrite len_cons; pose proof (len_nonneg l); lia).
  injection Hh as ->. done.
Qed.

Lemma addPage_left p page :
  head p = Some (Page 1) -> nofix g p -> (gaps g p <= 1)%nat -> Sym g ∈ p ->
  (Sym g ∈ addPage p page 0 g) \/ addPage p page 0 g = run 1 page.
Proof.
  intros Hh Hnf Hg Hin.
  pose proof (addPage_head g p page 0 Hh) as Hh'.
  pose proof (addPage_last g p page 0) as Hl'.
  destruct (addPage_cases g p page 0) as (core & Hadd & Heq).
  rewrite Heq in Hh', Hl' |- *. rewrite fixSmallGap_head in Hh'. rewrite fixSmallGap_last in Hl'.
  destruct Hadd as [Hl|Hl Hnc|init Hi Hor|init a b Hi Hpos Hab Ha Hb Hd Hc].
  - left. by rewrite fixSmallGap_id.
  - left. rewrite fixSmallGap_id; [apply elem_of_app; by left|].
    intros [H1 H2]. destruct p as [|x [|y [|z p]]]; simpl in *; try done.
    + injection Hh as ->. injection H1 as ->. injection H2 as ->.
      by destruct (Hnc []).
    + by destruct Hnf.
  - right. destruct Hor as [?|Hc]; [lia|].
    rewrite fixSmallGap_id; [by apply run_from_head|].
    rewrite (run_from_head _ page Hc Hl' Hh'). apply nofix_nogap.
    intros Hr. apply elem_of_run in Hr as (n & ? & _). done.
  - assert (gaps g (a ++ b) = 0%nat) as H0.
    { rewrite <- Hab. subst p. rewrite !gaps_app in Hg |- *. simpl in Hg |- *.
      rewrite decide_True in Hg by done. lia. }
    rewrite gaps_app in H0.
    assert (Sym g ∉ a) as Hga by (apply gaps_0; lia).
    assert (last b = Some (Page page)) as Hlb.
    { rewrite <- (last_app_ne a b), <- Hab by done. by rewrite last_snoc3. }
    destruct (fixSmallGap_cases g (a ++ Sym g :: b)) as [[-> _]|(x & r & Hxr & ->)].
    { left. rewrite elem_of_app, elem_of_cons. tauto. }
    right. destruct a as [|x' [|y' a]]; [done| |].
    + injection Hxr as -> ->. simpl in Hh'. injection Hh' as ->.
      pose proof (consec_run_end _ _ Hc Hlb) as Hrun.
      rewrite len_cons in Hrun. rewrite run_cons in Hrun by (pose proof (len_nonneg r); lia).
      injection Hrun as H3 Hr. rewrite Hr at 1.
      replace (page - (len r + 1) + 1) with 3 by lia.
      rewrite (run_cons 1), (run_cons (1 + 1)) by (pose proof (len_nonneg r); lia).
      rewrite (run_cons (1 + 1 + 1)) by (pose proof (len_nonneg r); lia). done.
    + injection Hxr as _ -> _. destruct Hga. rewrite !elem_of_cons. tauto.
Qed.

Lemma addPage_run q position :
  1 <= q -> addPage (run 1 q) (q + 1) position g = run 1 (q + 1).
Proof.
  intros Hq. destruct (addPage_nogap g (run 1 q) (q + 1) position) as [[Hl _]|[_ ->]].
  - intros Hr. apply elem_of_run in Hr as (n & ? & _). done.
  - rewrite last_run in Hl by lia. injection Hl as ?. lia.
  - by rewrite run_snoc by lia.
Qed.

(** ** The batch of lower anchors on an array without gap symbol *)

Lemma addPages_nogap p (temps : list Z) :
  Sym g ∉ p ->
  let r := foldl (fun p v => addPage p v (-1) g) p temps in
  (Sym g ∉ r) /\ len r <= len p + len temps /\
  (head p = Some (Page 1) -> head r = Some (Page 1)) /\
  (wf g p -> wf g r) /\ (noAdj p -> noAdj r) /\
  (forall n, Page n ∈ p -> Page n ∈ r).
Proof.
  revert p. induction temps as [|v temps IH]; intros p Hn; simpl.
  - rewrite len_nil. repeat split; try done. lia.
  - rewrite len_cons.
    destruct (addPage_nogap g p v (-1) Hn) as [[Hl Heq]|[Hl Heq]]; rewrite Heq.
    + destruct (IH p Hn) as (H1 & H2 & H3 & H4 & H5 & H6).
      repeat split; try done. lia.
    + assert (Sym g ∉ p ++ [Page v]) as Hn'.
      { rewrite elem_of_app, list_elem_of_singleton. by intros [?|?]. }
      destruct (IH _ Hn') as (H1 & H2 & H3 & H4 & H5 & H6).
      rewrite len_app, len_cons, len_nil in H2.
      repeat split; try done; [lia|..].
      * intros Hh. apply H3. rewrite head_app_ne; [done|]. by intros ->.
      * intros Hwf. apply H4, wf_app. split; [done|]. apply Forall_singleton. right. by exists v.
      * intros Hna. apply H5, noAdj_app. repeat split; [done|].
        intros x y Hx [= <-] ->. done.
      * intros n Hin. apply H6, elem_of_app. by left.
Qed.
End windowRule.

(** * The lower-anchor search *)

(** Normalise lengths of appended and consed lists. *)
Ltac norm_len :=
  rewrite ?len_app, ?len_cons;
  repeat match goal with
         | |- context [len (@nil ?A)] => change (len (@nil A)) with 0
         end.

Lemma findIndex_from_range {A} (f : A -> bool) (a : list A) (i : Z) :
  (findIndex_from f a i = -1 /\ Forall (fun x => f x = false) a) \/
  (i <= findIndex_from f a i < i + len a).
Proof.
  revert i. induction a as [|x a IH]; intros i; simpl.
  - left. by split.
  - rewrite len_cons. pose proof (len_nonneg a). destruct (f x) eqn:Hx; [right; lia|].
    destruct (IH (i + 1)) as [[-> Hall]|?]; [left|right; lia].
    split; [done|]. by apply Forall_cons.
Qed.

Lemma findIndex_range {A} (f : A -> bool) (a : list A) :
  (findIndex f a = -1 /\ Forall (fun x => f x = false) a) \/
  (0 <= findIndex f a < len a).
Proof.
  unfold findIndex. destruct (findIndex_from_range f a 0) as [?|?]; [by left|right; lia].
Qed.

Lemma findIndex_from_found {A} (f : A -> bool) (a : list A) (i : Z) x :
  x ∈ a -> f x = true -> i <= findIndex_from f a i.
Proof.
  revert i. induction a as [|y a IH]; intros i Hin Hx; [by apply elem_of_nil in Hin|].
  simpl. destruct (f y) eqn:Hy; [lia|].
  apply elem_of_cons in Hin as [->|Hin]; [congruence|].
  specialize (IH (i + 1) Hin Hx). lia.
Qed.

(** [indexOf] is negative exactly when the token is absent. *)
Lemma indexOf_neg (p : list token) (t : token) : indexOf p t < 0 <-> t ∉ p.
Proof.
  unfold indexOf. split.
  - intros Hneg Hin.
    pose proof (findIndex_from_found (fun y => bool_decide (y = t)) p 0 t Hin
                  (bool_decide_eq_true_2 _ eq_refl)) as H.
    unfold findIndex in Hneg. lia.
  - intros Hnin. destruct (findIndex_range (fun y => bool_decide (y = t)) p) as [[-> _]|Hr]; [lia|].
    exfalso. unfold findIndex in Hr.
    assert (forall (a : list token) i, t ∉ a ->
              findIndex_from (fun y => bool_decide (y = t)) a i = -1) as Hall.
    { clear. induction a as [|y a IH]; intros i Hn; [done|]. simpl.
      apply not_elem_of_cons in Hn as [Hne Hn].
      rewrite bool_decide_eq_false_2 by done. by apply IH. }
    rewrite Hall in Hr by done. lia.
Qed.

Section jumpTable.
Variable jumps : list Z.
Hypothesis jumps_nonempty : jumps <> [].
Hypothesis jumps_positive : Forall (fun j => 0 < j) jumps.

Lemma len_jumps_pos : 0 < len jumps.
Proof. destruct jumps; [done|]. rewrite len_cons. pose proof (len_nonneg l). lia. Qed.

(** The index kept after [findIndex] is inside the table. *)
Lemma jumpIndex_inside (f : Z -> bool) :
  0 <= orLast jumps (findIndex f jumps) < len jumps.
Proof.
  unfold orLast. pose proof len_jumps_pos.
  destruct (findIndex_range f jumps) as [[-> _]|?]; case_decide; lia.
Qed.

Lemma jumpAt_nonneg i : 0 <= jumpAt jumps i.
Proof.
  unfold jumpAt. destruct (item jumps i) as [j|] eqn:Hj; simpl; [|lia].
  unfold item in Hj. case_decide; [|done].
  rewrite Forall_forall in jumps_positive.
  apply list_elem_of_lookup_2, jumps_positive in Hj. lia.
Qed.

Lemma jumpAt_pos i : 0 <= i < len jumps -> 0 < jumpAt jumps i.
Proof.
  intros Hi. unfold jumpAt, item. rewrite decide_True by lia.
  destruct (jumps !! Z.to_nat i) as [j|] eqn:Hj; simpl.
  - rewrite Forall_forall in jumps_positive.
    by apply list_elem_of_lookup_2, jumps_positive in Hj.
  - apply lookup_ge_None in Hj. unfold len in Hi. lia.
Qed.

(** The margin of the lower-anchor search never leaves the table: it
    grows only past an entry that exists. *)
Lemma margin_inside min max n jumpIndex :
  0 <= jumpIndex ->
  0 <= for_loop n (fun _ margin =>
         if bool_decide (jumpIndex - margin - 1 < len jumps) &&
            match item jumps (jumpIndex - margin - 1) with
            | Some j => bool_decide (max - Z.rem max (jumpAt jumps jumpIndex) - j > min)
            | None => false
            end
         then margin + 1 else margin) 0 <= jumpIndex.
Proof.
  intros Hji.
  apply (for_loop_ind (fun _ margin => 0 <= margin <= jumpIndex)); [lia|].
  intros i margin _ Hm.
  destruct (item jumps (jumpIndex - margin - 1)) as [j|] eqn:Hj.
  - unfold item in Hj. case_decide; [|done].
    destruct (_ && _); lia.
  - rewrite andb_false_r. lia.
Qed.

(** The index refined by the upper-anchor search stays inside the table. *)
Lemma refined_inside min max n jumpIndex :
  0 <= jumpIndex < len jumps ->
  0 <= for_loop n (fun _ jumpIndex =>
         if bool_decide (jumpIndex + 1 < len jumps) &&
            bool_decide (min - Z.rem min (jumpAt jumps (jumpIndex + 1))
                         + jumpAt jumps (jumpIndex + 1) < max)
         then jumpIndex + 1 else jumpIndex) jumpIndex < len jumps.
Proof.
  intros Hji.
  apply (for_loop_ind (fun _ k => 0 <= k < len jumps)); [lia|].
  intros i k _ Hk. case_bool_decide; simpl; [|lia].
  destruct (bool_decide _); lia.
Qed.

(** Truncating a number to a multiple of a jump moves it towards zero. *)
Lemma rem_towards_zero v j :
  0 < j -> Z.rem v j <> 0 -> v - Z.rem v j <= Z.max (v - 1) 0.
Proof.
  intros Hj Hr. destruct (decide (0 <= v)) as [Hv|Hv].
  - pose proof (Z.rem_nonneg v j ltac:(lia) Hv). lia.
  - assert (Z.rem v j = - Z.rem (- v) j) as Heq.
    { rewrite Z.rem_opp_l by lia. lia. }
    pose proof (Z.rem_le (- v) j ltac:(lia) Hj). lia.
Qed.

(** The first lower anchor lies strictly below a positive ceiling, and
    is never positive below a ceiling that is not. *)
Lemma findLowerValuesFor_first min v pad :
  findLowerValuesFor min v 0 pad jumps <= Z.max (v - 1) 0.
Proof.
  unfold findLowerValuesFor. cbv zeta.
  set (ji := orLast jumps _).
  assert (0 < jumpAt jumps ji) as Hj0 by apply jumpAt_pos, jumpIndex_inside.
  set (margin := for_loop _ _ _).
  pose proof (jumpAt_nonneg (ji - margin)) as Hjm.
  rewrite bool_decide_eq_true_2 by lia.
  repeat case_bool_decide; try lia.
  - pose proof (rem_towards_zero v _ Hj0 ltac:(done)). lia.
  - by apply rem_towards_zero.
Qed.

(** Every later anchor of the chain is at most the one before. *)
Lemma findLowerValuesFor_next min v i pad :
  0 < i -> findLowerValuesFor min v i pad jumps <= v.
Proof.
  intros Hi. unfold findLowerValuesFor. cbv zeta.
  rewrite bool_decide_eq_false_2 by lia.
  match goal with |- _ - jumpAt jumps ?k <= _ => pose proof (jumpAt_nonneg k) end. lia.
Qed.

(** What the batch keeps: values above 1, absent from the array, below
    the window. *)
Lemma lowerAnchors_spec p current pad :
  Forall (fun v => 1 < v <= current - pad - 2 /\ Page v ∉ p)
         (lowerAnchors p current pad jumps) /\
  len (lowerAnchors p current pad jumps) <= Z.max 0 (pad + 1).
Proof.
  unfold lowerAnchors.
  pose (P := fun (i : Z) (s : Z * list Z) =>
    ((i = 0 /\ s.1 = current - pad - 1) \/ (0 < i /\ s.1 <= Z.max (current - pad - 2) 0)) /\
    Forall (fun v => 1 < v <= current - pad - 2 /\ Page v ∉ p) s.2 /\
    len s.2 <= i).
  match goal with |- context [for_loop ?n ?b ?s] =>
    assert (P (Z.max 0 n) (for_loop n b s)) as (_ & Hall & Hlen) end.
  { apply for_loop_ind.
    - unfold P. simpl. split; [left; lia|]. split; [done|]. by rewrite len_nil.
    - intros i [value temps] Hi (Hv & Hall & Hlen). simpl in *.
      set (value' := findLowerValuesFor 1 value i pad jumps).
      assert (value' <= Z.max (current - pad - 2) 0) as Hv'.
      { destruct Hv as [[-> ->]|[Hpos Hv]].
        - pose proof (findLowerValuesFor_first 1 (current - pad - 1) pad).
          fold value' in H. lia.
        - pose proof (findLowerValuesFor_next 1 value i pad Hpos). fold value' in H. lia. }
      destruct (bool_decide (value' > 1) && bool_decide (indexOf p (Page value') < 0)) eqn:Hc.
      + apply andb_true_iff in Hc as [H1 H2].
        apply bool_decide_eq_true in H1, H2. apply indexOf_neg in H2.
        unfold P. simpl. norm_len.
        split; [right; lia|]. split; [|lia].
        apply Forall_app. split; [done|]. apply Forall_singleton. split; [lia|done].
      + unfold P. simpl. split; [right; lia|]. split; [done|lia]. }
  split; [done|]. lia.
Qed.

(** Once the array holds every page below the window, the batch is empty. *)
Lemma lowerAnchors_nil p current pad :
  (forall v, 1 < v <= current - pad - 2 -> Page v ∈ p) ->
  lowerAnchors p current pad jumps = [].
Proof.
  intros Hin. destruct (lowerAnchors_spec p current pad) as [Hall _].
  destruct (lowerAnchors p current pad jumps) as [|v l]; [done|].
  rewrite Forall_cons in Hall. destruct Hall as [[Hv Hn] _]. destruct Hn. by apply Hin.
Qed.
End jumpTable.

(** * One turn of the loop *)

Section turns.
Variables (current max pad : Z) (g : string) (jumps : list Z).
Hypothesis pad_nonneg : 0 <= pad.
Hypothesis current_pos : 1 <= current.

Local Abbreviation leftBatch := (leftBatch current pad g).
Local Abbreviation turn := (turn current max pad g jumps).

Lemma loopBody_turn p page :
  turn p page (loopBody current max pad g jumps p page).
Proof.
  unfold loopBody. cbv zeta.
  destruct (bool_decide (page = 1) || bool_decide (page = max)
            || bool_decide (page = current)) eqn:Ha.
  { apply turn_always. rewrite !orb_true_iff, !bool_decide_eq_true in Ha. tauto. }
  apply not_true_iff_false in Ha. rewrite !orb_true_iff, !bool_decide_eq_true in Ha.
  assert (page <> 1 /\ page <> max /\ page <> current) as (H1 & Hm & Hc) by lia.
  destruct (bool_decide (page < current) && bool_decide (indexOf p (Sym g) < 0)
            && (bool_decide (len p < pad + 2) && bool_decide (pad > 0))) eqn:Hl.
  { apply turn_left; try done.
    rewrite !andb_true_iff, !bool_decide_eq_true, indexOf_neg in Hl.
    unfold leftBatch. repeat split; try tauto; lia. }
  assert (~ leftBatch p page) as Hnl.
  { apply not_true_iff_false in Hl.
    rewrite !andb_true_iff, !bool_decide_eq_true, indexOf_neg in Hl.
    unfold leftBatch. intros (? & ? & ? & ?). apply Hl. repeat split; try done; lia. }
  clear Hl.
  destruct (bool_decide (page >= current - pad) && bool_decide (page <= current + pad)) eqn:Hw.
  { rewrite andb_true_iff, !bool_decide_eq_true in Hw. apply turn_window; try done. lia. }
  apply not_true_iff_false in Hw. rewrite andb_true_iff, !bool_decide_eq_true in Hw.
  destruct (bool_decide (page > current)) eqn:Hr.
  2:{ apply bool_decide_eq_false in Hr. apply turn_skip; try done. lia. }
  apply bool_decide_eq_true in Hr.
  destruct (bool_decide (current + pad + 1 = page) && negb (bool_decide (page = max - 1))) eqn:Hg.
  { rewrite andb_true_iff, negb_true_iff, bool_decide_eq_true, bool_decide_eq_false in Hg.
    apply turn_gap; tauto. }
  clear Hg.
  destruct (bool_decide (len p < 7 + pad * 4 - 1)) eqn:Hlen.
  2:{ apply bool_decide_eq_false in Hlen. apply turn_skip; try done. lia. }
  apply bool_decide_eq_true in Hlen.
  destruct (bool_decide (_ < max)); apply turn_anchor; try done; lia.
Qed.

(** Once the budget is used up, a page right of the window adds nothing. *)
Lemma loopBody_budget p page :
  current + pad < page -> page <> max ->
  (current + pad + 1 = page -> page = max - 1) ->
  7 + pad * 4 - 1 <= len p ->
  loopBody current max pad g jumps p page = p.
Proof.
  intros Hp Hm Hgap Hlen. unfold loopBody. cbv zeta.
  rewrite (bool_decide_eq_false_2 (page = 1)) by lia.
  rewrite (bool_decide_eq_false_2 (page = max)) by lia.
  rewrite (bool_decide_eq_false_2 (page = current)) by lia.
  rewrite (bool_decide_eq_false_2 (page < current)) by lia.
  rewrite (bool_decide_eq_false_2 (page <= current + pad)) by lia.
  rewrite (bool_decide_eq_true_2 (page > current)) by lia.
  rewrite (bool_decide_eq_false_2 (len p < 7 + pad * 4 - 1)) by lia.
  assert (bool_decide (current + pad + 1 = page) && negb (bool_decide (page = max - 1))
          = false) as ->.
  { apply andb_false_iff. destruct (decide (current + pad + 1 = page)) as [He|Hne].
    - right. by rewrite bool_decide_eq_true_2 by auto.
    - left. by rewrite bool_decide_eq_false_2. }
  simpl. by rewrite andb_false_r.
Qed.
End turns.

(** * The loop invariant of the builder (complex mode) *)

Lemma nofix_snoc_gap g p : nofix g p -> nofix g (p ++ [Sym g]).
Proof.
  intros Hn [H1 H2]. apply Hn.
  assert (2 < length p)%nat as Hlen.
  { destruct (decide (2 < length p)%nat); [done|].
    apply lookup_lt_Some in H2 as Hlt. rewrite length_app in Hlt. simpl in Hlt.
    assert (length p = 2)%nat as Hl by lia.
    rewrite lookup_app_r, Hl in H2 by lia. done. }
  rewrite !lookup_app_l in H1, H2 by lia. done.
Qed.

Lemma suffix_last_run s q (p : list token) :
  s <= q -> run s q `suffix_of` p -> last p = Some (Page q).
Proof.
  intros Hsq [k ->]. rewrite last_app_ne; [by apply last_run|].
  by rewrite run_cons by lia.
Qed.

Lemma infix_run_sub a b c d (p : list token) :
  a <= c -> c <= d + 1 -> d <= b -> infix (run a b) p -> infix (run c d) p.
Proof.
  intros Hac Hcd Hdb. apply infix_of_infix.
  exists (run a (c - 1)), (run (d + 1) b).
  rewrite (run_app a (c - 1) b) by lia. rewrite (run_app (c - 1 + 1) d b) by lia.
  by replace (c - 1 + 1) with c by lia.
Qed.

Lemma elem_of_infix_run a b n (p : list token) :
  a <= n <= b -> infix (run a b) p -> Page n ∈ p.
Proof.
  intros Hn (k & r & ->). rewrite !elem_of_app. right; left.
  apply elem_of_run. by exists n.
Qed.

Section invariant.
Variables (current max pad : Z) (g : string) (jumps : list Z).
Hypothesis current_pos : 1 <= current.
Hypothesis current_le_max : current <= max.
Hypothesis pad_nonneg : 0 <= pad.
Hypothesis complex_mode : 7 + pad * 4 <= max.
Hypothesis jumps_nonempty : jumps <> [].
Hypothesis jumps_positive : Forall (fun j => 0 < j) jumps.

Local Abbreviation s := (runStart current pad).
Local Abbreviation leftBatch := (leftBatch current pad g).
Local Abbreviation tailOK := (tailOK current max pad g).
Local Abbreviation Inv := (Inv current max pad g).
Local Abbreviation inv_head := (inv_head current max pad g).
Local Abbreviation inv_wf := (inv_wf current max pad g).
Local Abbreviation inv_nofix := (inv_nofix current max pad g).
Local Abbreviation inv_noAdj := (inv_noAdj current max pad g).
Local Abbreviation inv_gaps := (inv_gaps current max pad g).
Local Abbreviation inv_weight := (inv_weight current max pad g).
Local Abbreviation inv_left := (inv_left current max pad g).
Local Abbreviation inv_window := (inv_window current max pad g).
Local Abbreviation inv_after := (inv_after current max pad g).
Local Abbreviation inv_last := (inv_last current max pad g).

Lemma runStart_le : 1 <= s <= current.
Proof. unfold runStart. case_decide; lia. Qed.

Lemma runStart_cases : (s = 1 /\ current - pad <= 2) \/ (s = current - pad /\ 2 < current - pad).
Proof. unfold runStart. case_decide; lia. Qed.

Lemma tailOK_not_collapsible p : tailOK p -> ~ collapsible g p max.
Proof.
  intros Ht [init Hp]. destruct Ht as (init' & Hp' & Hne).
  { rewrite Hp. apply last_snoc2. }
  rewrite Hp in Hp'. apply snoc2_inj in Hp' as (_ & [=] & _). lia.
Qed.

Lemma tailOK_page p n : last p = Some (Page n) -> tailOK p.
Proof. intros Hl Hg. congruence. Qed.

(** From the current page to the end of the window the array ends with
    the run. *)
Lemma in_window q p :
  Inv q p -> current <= q <= current + pad -> run s q `suffix_of` p.
Proof.
  intros HI Hq. pose proof runStart_le.
  assert (s <= q <= current + pad) as Hs by lia.
  destruct (inv_window q p HI Hs) as [?|(? & _)]; [done|exfalso; lia].
Qed.

(** At and after the end of the window. *)
Lemma past_window q p :
  Inv q p -> current + pad <= q < max ->
  infix (run s (current + pad)) p /\ tailOK p /\ len p <= 7 + pad * 4 - 1 /\
  (q = current + pad -> last p = Some (Page q)).
Proof.
  intros HI Hq. pose proof runStart_le.
  destruct (decide (q = current + pad)) as [->|Hne].
  - assert (current <= current + pad <= current + pad) as Hw by lia.
    pose proof (in_window _ p HI Hw) as Hsuf.
    assert (s <= current + pad) as Hs by lia.
    pose proof (suffix_last_run _ _ _ Hs Hsuf) as Hl.
    assert (current + pad <= current + pad) as Hle by lia.
    pose proof (inv_weight _ p HI Hle). pose proof (weight_bounds g p).
    split; [by apply infix_suffix|]. split; [by eapply tailOK_page|]. split; [lia|done].
  - assert (current + pad < q) as Hlt by lia.
    destruct (inv_after q p HI Hlt) as (Hin & Ht & Hlen).
    rewrite decide_False in Hlen by lia.
    split; [done|]. split; [done|]. split; [lia|]. intros ?; lia.
Qed.

Lemma Inv_first : Inv 1 (loopBody current max pad g jumps [] 1).
Proof.
  assert (loopBody current max pad g jumps [] 1 = [Page 1]) as ->.
  { unfold loopBody. cbv zeta. rewrite (bool_decide_eq_true_2 (1 = 1)) by done.
    simpl. apply addPage_nil. }
  pose proof runStart_le.
  split.
  - done.
  - apply Forall_singleton. right. by exists 1.
  - by intros [[=] _].
  - done.
  - intros _. simpl. lia.
  - intros _. rewrite (weight_page g _ 1) by done. rewrite len_cons. norm_len. lia.
  - intros _ _. right. rewrite run_single. split; [done|by left].
  - intros Hs. left. replace (runStart current pad) with 1 by lia. by rewrite run_single.
  - lia.
  - lia.
Qed.

Lemma addPage_nofix p page position : nofix g (addPage p page position g).
Proof.
  destruct (addPage_cases g p page position) as (core & _ & ->).
  apply fixSmallGap_nofix.
Qed.

(** A turn that adds its own page with position 0: the first, current
    and last page and the pages of the window. *)
Lemma step_add0 q p :
  Inv q p -> 1 <= q < max ->
  q + 1 = max \/ q + 1 = current \/ current - pad <= q + 1 <= current + pad ->
  Inv (q + 1) (addPage p (q + 1) 0 g).
Proof.
  intros HI Hq Hpage. pose proof runStart_le as Hs. pose proof runStart_cases as Hsc.
  pose proof (inv_head q p HI) as Hh.
  assert (q <= current + pad -> (gaps g p <= 1)%nat) as Hg by apply HI.
  assert (current + pad < q + 1 ->
          q + 1 = max /\ infix (run s (current + pad)) p /\
          ~ collapsible g p max /\ len p <= 7 + pad * 4 - 1) as Hpast.
  { intros Hlt. assert (current + pad <= q < max) as Hq' by lia.
    destruct (past_window q p HI Hq') as (Hin & Ht & Hlen & _).
    split; [lia|]. split; [done|]. split; [by apply tailOK_not_collapsible|done]. }
  split.
  - by apply addPage_head.
  - apply addPage_wf, HI.
  - apply addPage_nofix.
  - apply addPage_noAdj; [done|apply HI|].
    destruct (decide (q <= current + pad)) as [Hle|Hgt]; [right; left; by apply Hg|].
    right; right. destruct Hpast as (Hm & _ & Hnc & _); [lia|]. by rewrite Hm.
  - intros Hle. etrans; [apply addPage_gaps|]. apply Hg. lia.
  - intros Hle. assert (q <= current + pad) as Hle' by lia.
    pose proof (inv_weight q p HI Hle'). pose proof (addPage_weight g p (q + 1) 0). lia.
  - intros Hpad Hlt. assert (q < current) as Hlt' by lia.
    destruct (inv_left q p HI Hpad Hlt') as [Hin|[Hp Hor]].
    + destruct (addPage_left g p (q + 1) Hh) as [?|Heq];
        [apply HI|apply Hg; lia|done|by left|].
      right. split; [done|]. right. lia.
    + right. rewrite Hp, addPage_run by lia. split; [done|]. right. lia.
  - intros Hw. destruct (decide (s <= q)) as [Hsq|Hsq].
    + left. assert (s <= q <= current + pad) as Hw' by lia.
      destruct (inv_window q p HI Hw') as [Hsuf|(_ & Hsq' & Hsuf)].
      * by apply addPage_suffix_push.
      * by apply addPage_suffix_collapse.
    + left. replace (runStart current pad) with (q + 1) by lia. rewrite run_single.
      pose proof (addPage_last g p (q + 1) 0) as Hl.
      apply last_Some in Hl as [l' ->]. by exists l'.
  - intros Hlt. destruct (Hpast Hlt) as (Hm & Hin & Hnc & Hlen).
    split; [|split].
    + apply addPage_infix; [apply isPage_run|done|]. right. by rewrite Hm.
    + eapply tailOK_page, addPage_last.
    + rewrite decide_True by done.
      pose proof (addPage_len g p (q + 1) 0) as Hl. rewrite Hm in Hl.
      specialize (Hl (or_intror Hnc)). rewrite <- Hm in Hl. lia.
  - intros <-. apply addPage_last.
Qed.

(** The turn of the left-side batch. *)
Lemma step_left q p :
  Inv q p -> 1 <= q < max -> leftBatch p (q + 1) ->
  Inv (q + 1)
      (foldl (fun p v => addPage p v (-1) g) p
             (reverse (lowerAnchors p current pad jumps)) ++ [Sym g]).
Proof.
  intros HI Hq (Hlt & Hng & Hlen & Hpad).
  pose proof runStart_le as Hs. pose proof runStart_cases as Hsc.
  destruct (lowerAnchors_spec jumps jumps_nonempty jumps_positive p current pad)
    as [Hall Hcount].
  set (temps := reverse (lowerAnchors p current pad jumps)).
  assert (len temps <= pad + 1) as Htemps.
  { unfold temps, len in *. rewrite length_reverse. lia. }
  destruct (addPages_nogap g p temps Hng) as (Hnr & Hlr & Hhr & Hwr & Har & _).
  set (r := foldl _ p temps) in *.
  specialize (Hhr (inv_head q p HI)).
  assert (r <> []) as Hrne by (by intros Hr; rewrite Hr in Hhr).
  assert (q < current) as Hlt' by lia.
  split.
  - by rewrite head_app_ne.
  - apply wf_app. split; [apply Hwr, HI|]. apply Forall_singleton. by left.
  - by apply nofix_snoc_gap, nofix_nogap.
  - apply noAdj_app. split; [apply Har, HI|]. split; [done|].
    intros x y Hx [= <-] ->. apply Hnr. by eapply last_Some_elem_of.
  - intros _. rewrite gaps_app, gaps_sym. apply gaps_0 in Hnr. lia.
  - intros _. rewrite weight_gap. lia.
  - intros _ _. left. apply elem_of_app. right. by apply list_elem_of_singleton.
  - intros Hw. right. split; [done|].
    destruct (inv_left q p HI Hpad Hlt') as [?|[Hp Hor]]; [done|].
    assert (s <= q) as Hsq by lia.
    split; [lia|]. replace (q + 1 - 1) with q by lia.
    assert (temps = []) as Hnil.
    { unfold temps. rewrite (lowerAnchors_nil jumps jumps_nonempty jumps_positive); [done|].
      intros v Hv. rewrite Hp. apply elem_of_run. exists v. split; [done|]. lia. }
    unfold r. rewrite Hnil. simpl. apply suffix_app.
    assert (s <= q <= current + pad) as Hw' by lia.
    destruct (inv_window q p HI Hw') as [?|(_ & _ & [k Hk])]; [done|].
    destruct Hng. rewrite Hk, !elem_of_app, list_elem_of_singleton. tauto.
  - intros ?. lia.
  - intros ?. lia.
Qed.

(** The turn that pushes the gap symbol right of the window. *)
Lemma step_gap q p :
  Inv q p -> 1 <= q < max -> q + 1 <> max ->
  current + pad + 1 = q + 1 -> q + 1 <> max - 1 ->
  Inv (q + 1) (p ++ [Sym g]).
Proof.
  intros HI Hq Hm Hpage Hm1. pose proof runStart_le as Hs.
  assert (current + pad <= q < max) as Hq' by lia.
  destruct (past_window q p HI Hq') as (Hin & Ht & Hlen & Hl).
  specialize (Hl ltac:(lia)).
  assert (q <= current + pad) as Hle by lia.
  pose proof (inv_weight q p HI Hle) as Hw. pose proof (weight_bounds g p).
  pose proof (inv_head q p HI) as Hh.
  split.
  - rewrite head_app_ne; [done|]. by intros ->.
  - apply wf_app. split; [apply HI|]. apply Forall_singleton. by left.
  - apply nofix_snoc_gap, HI.
  - apply noAdj_app. split; [apply HI|]. split; [done|].
    intros x y Hx [= <-] ->. congruence.
  - intros ?. lia.
  - intros ?. lia.
  - intros ? ?. lia.
  - intros ?. lia.
  - intros _. split; [by apply infix_app_r|]. split.
    + intros _. apply last_Some in Hl as [init ->]. exists init.
      rewrite <- app_assoc. simpl. replace (current + pad) with q by lia. split; [done|lia].
    + rewrite decide_False by done. norm_len. lia.
  - intros ?. lia.
Qed.

(** The turn that adds an anchor right of the window. *)
Lemma step_anchor q p v :
  Inv q p -> 1 <= q < max -> q + 1 <> max ->
  current + pad < q + 1 -> len p < 7 + pad * 4 - 1 ->
  Inv (q + 1) (addPage p v 1 g).
Proof.
  intros HI Hq Hm Hpage Hlen.
  assert (current + pad <= q < max) as Hq' by lia.
  destruct (past_window q p HI Hq') as (Hin & Ht & _ & _).
  split.
  - apply addPage_head, HI.
  - apply addPage_wf, HI.
  - apply addPage_nofix.
  - apply addPage_noAdj; [apply HI|apply HI|]. left. lia.
  - intros ?. lia.
  - intros ?. lia.
  - intros ? ?. lia.
  - intros ?. lia.
  - intros _. split; [|split].
    + apply addPage_infix; [apply isPage_run|done|]. left. lia.
    + eapply tailOK_page, addPage_last.
    + rewrite decide_False by done.
      assert (1 <= 1) as Hone by lia.
      pose proof (addPage_len g p v 1 (or_introl Hone)). lia.
  - intros ?. lia.
Qed.

(** A turn that leaves the array alone. *)
Lemma step_skip q p :
  Inv q p -> 1 <= q < max -> q + 1 <> max -> q + 1 <> current ->
  ~ leftBatch p (q + 1) ->
  q + 1 < current - pad \/ current + pad < q + 1 ->
  Inv (q + 1) p.
Proof.
  intros HI Hq Hm Hc Hnl Hpage.
  pose proof runStart_le as Hs. pose proof runStart_cases as Hsc.
  split.
  - apply HI.
  - apply HI.
  - apply HI.
  - apply HI.
  - intros ?. apply HI. lia.
  - intros Hle. assert (q <= current + pad) as Hle' by lia.
    pose proof (inv_weight q p HI Hle'). lia.
  - intros Hpad Hlt. assert (q < current) as Hlt' by lia.
    destruct (inv_left q p HI Hpad Hlt') as [?|[Hp Hor]]; [by left|].
    exfalso. apply Hnl. assert (q = 1) as -> by lia.
    rewrite Hp, run_single. split; [done|]. split.
    + rewrite list_elem_of_singleton. done.
    + rewrite len_cons. norm_len. lia.
  - intros ?. lia.
  - intros Hlt. assert (current + pad <= q < max) as Hq' by lia.
    destruct (past_window q p HI Hq') as (Hin & Ht & Hlen & _).
    split; [done|]. split; [done|]. rewrite decide_False by done. lia.
  - intros ?. lia.
Qed.

Lemma Inv_step q p :
  Inv q p -> 1 <= q < max -> Inv (q + 1) (loopBody current max pad g jumps p (q + 1)).
Proof.
  intros HI Hq.
  destruct (loopBody_turn current max pad g jumps current_pos p (q + 1))
    as [Ha|H1 Hm Hc Hl|H1 Hm Hc Hl Hw|H1 Hm Hg Hm1|v H1 Hm Hr Hlen|H1 Hm Hc Hl Hw].
  - apply step_add0; [done|done|]. lia.
  - by apply step_left.
  - apply step_add0; [done|done|]. lia.
  - by apply step_gap.
  - by apply step_anchor.
  - by apply step_skip.
Qed.

(** The array after the turns of pages [1 .. n]. *)
Lemma Inv_loop (n : nat) :
  1 <= Z.of_nat n <= max ->
  Inv (Z.of_nat n) (foldl (loopBody current max pad g jumps) [] (seqZ 1 (Z.of_nat n))).
Proof.
  induction n as [|n IH]; intros Hn; [lia|].
  rewrite seqZ_S, foldl_app. simpl.
  destruct n as [|n].
  - simpl. apply Inv_first.
  - replace (Z.of_nat (S (S n))) with (Z.of_nat (S n) + 1) by lia.
    replace (1 + Z.of_nat (S n)) with (Z.of_nat (S n) + 1) by lia.
    apply Inv_step; [apply IH|]; lia.
Qed.

Lemma Inv_final :
  Inv max (foldl (loopBody current max pad g jumps) [] (seqZ 1 max)).
Proof.
  pose proof (Inv_loop (Z.to_nat max)) as H. rewrite Z2Nat.id in H by lia.
  apply H. lia.
Qed.
End invariant.

(** * The array built for a well-formed request *)

(** The builder throws exactly when the simple mode asks for an array
    above the length limit. *)
Lemma generatePaginationArray_cases current max pad g jumps :
  (max < 7 + pad * 4 /\ MAX_ARRAY_LENGTH < max /\
   generatePaginationArray current max pad g jumps = Throws InvalidArrayLength) \/
  (~ (max < 7 + pad * 4 /\ MAX_ARRAY_LENGTH < max) /\
   generatePaginationArray current max pad g jumps
   = Returns (builtPages current max pad g jumps)).
Proof.
  unfold builtPages, generatePaginationArray, Array_from. cbv zeta.
  case_bool_decide as Hs; [case_bool_decide as Hl|].
  - left. split; [done|]. split; [lia|done].
  - right. split; [lia|done].
  - right. split; [lia|done].
Qed.

Lemma builtPages_eq current max pad g jumps :
  builtPages current max pad g jumps
  = if bool_decide (max < 7 + pad * 4)
    then (fun i => Page (i + 1)) <$> seqZ 0 max
    else foldl (loopBody current max pad g jumps) [] (seqZ 1 max).
Proof.
  unfold builtPages, generatePaginationArray, Array_from. cbv zeta.
  by repeat case_bool_decide.
Qed.

Lemma simple_mode_run max :
  (fun i => Page (i + 1)) <$> seqZ 0 max = run 1 max.
Proof.
  unfold run. replace (max - 1 + 1) with max by lia.
  change 1 with (1 + 0) at 2.
  rewrite <- (fmap_add_seqZ 1 0 max), <- list_fmap_compose.
  apply list_fmap_ext. intros _ i _. simpl. f_equal. lia.
Qed.

Section array.
Variables (current max pad : Z) (g : string) (jumps : list Z).
Hypothesis current_pos : 1 <= current.
Hypothesis current_le_max : current <= max.
Hypothesis pad_nonneg : 0 <= pad.
Hypothesis jumps_nonempty : jumps <> [].
Hypothesis jumps_positive : Forall (fun j => 0 < j) jumps.

Local Abbreviation built := (builtPages current max pad g jumps).

Lemma built_simple : max < 7 + pad * 4 -> built = run 1 max.
Proof.
  intros Hs. rewrite builtPages_eq.
  rewrite bool_decide_eq_true_2 by done. apply simple_mode_run.
Qed.

Lemma built_complex :
  7 + pad * 4 <= max -> Inv current max pad g max built.
Proof.
  intros Hc. rewrite builtPages_eq.
  rewrite bool_decide_eq_false_2 by lia. by apply Inv_final.
Qed.

Lemma built_head : head built = Some (Page 1).
Proof.
  destruct (decide (max < 7 + pad * 4)) as [Hs|Hc].
  - rewrite built_simple by done. by rewrite run_cons by lia.
  - eapply inv_head, built_complex. lia.
Qed.

Lemma built_last : last built = Some (Page max).
Proof.
  destruct (decide (max < 7 + pad * 4)) as [Hs|Hc].
  - rewrite built_simple by done. apply last_run. lia.
  - eapply inv_last; [apply built_complex; lia|done].
Qed.

Lemma built_noAdj : noAdj built.
Proof.
  destruct (decide (max < 7 + pad * 4)) as [Hs|Hc].
  - rewrite built_simple by done. apply noAdj_run.
  - eapply inv_noAdj, built_complex. lia.
Qed.

Lemma built_wf : wf g built.
Proof.
  destruct (decide (max < 7 + pad * 4)) as [Hs|Hc].
  - rewrite built_simple by done. apply wf_pages, isPage_run.
  - eapply inv_wf, built_complex. lia.
Qed.

Lemma built_len : len built <= 7 + pad * 4.
Proof.
  destruct (decide (max < 7 + pad * 4)) as [Hs|Hc].
  - rewrite built_simple by done. rewrite length_run by lia. lia.
  - assert (7 + pad * 4 <= max) as Hc' by lia.
    pose proof (built_complex Hc') as HI.
    destruct (decide (max <= current + pad)) as [Hle|Hgt].
    + pose proof (inv_weight _ _ _ _ _ _ HI Hle). pose proof (weight_bounds g built). lia.
    + assert (current + pad < max) as Hlt by lia.
      destruct (inv_after _ _ _ _ _ _ HI Hlt) as (_ & _ & Hlen).
      rewrite decide_True in Hlen by done. lia.
Qed.

(** The run that ends in the window is a block of the array. *)
Lemma built_run :
  infix (run (runStart current pad) (Z.min max (current + pad))) built.
Proof.
  pose proof (runStart_le current pad current_pos pad_nonneg) as Hs.
  destruct (decide (max < 7 + pad * 4)) as [Hs'|Hc].
  - rewrite built_simple by done.
    apply (infix_run_sub 1 max); [lia..|]. exists [], []. by rewrite app_nil_r.
  - assert (7 + pad * 4 <= max) as Hc' by lia.
    pose proof (built_complex Hc') as HI.
    destruct (decide (max <= current + pad)) as [Hle|Hgt].
    + rewrite Z.min_l by lia. apply infix_suffix.
      assert (current <= max <= current + pad) as Hw by lia.
      by apply (in_window current max pad g current_pos pad_nonneg).
    + rewrite Z.min_r by lia. assert (current + pad < max) as Hlt by lia.
      by destruct (inv_after _ _ _ _ _ _ HI Hlt) as (? & _ & _).
Qed.

Lemma built_window :
  infix (run (Z.max 1 (current - pad)) (Z.min max (current + pad))) built.
Proof.
  pose proof (runStart_cases current pad) as Hs.
  eapply infix_run_sub; [| | |apply built_run]; lia.
Qed.

Lemma built_current : Page current ∈ built.
Proof. eapply elem_of_infix_run; [|apply built_window]. lia. Qed.
End array.

(** * Validation *)

Lemma isIntegerAbove_positive x : isIntegerAbove 0 x = true <-> positiveInteger x.
Proof.
  destruct x as [z|]; simpl.
  - rewrite bool_decide_eq_true. split.
    + intros. exists z. split; [done|lia].
    + intros (z' & [= <-] & ?). lia.
  - split; [done|]. by intros (z & ? & _).
Qed.

Lemma isIntegerAbove_nonNegative x : isIntegerAbove (-1) x = true <-> nonNegativeInteger x.
Proof.
  destruct x as [z|]; simpl.
  - rewrite bool_decide_eq_true. split.
    + intros. exists z. split; [done|lia].
    + intros (z' & [= <-] & ?). lia.
  - split; [done|]. by intros (z & ? & _).
Qed.

Lemma forallb_positive given :
  forallb (isIntegerAbove 0) given = true <-> Forall positiveInteger given.
Proof.
  rewrite forallb_forall, Forall_forall. setoid_rewrite <- list_elem_of_In.
  by setoid_rewrite isIntegerAbove_positive.
Qed.

Lemma descending_sorted l : descending l = true <-> Sorted Z.gt l.
Proof.
  induction l as [|a [|b l] IH].
  - split; [constructor|done].
  - split; [repeat constructor|done].
  - change (descending (a :: b :: l))
      with (if bool_decide (a <= b) then false else descending (b :: l)).
    case_bool_decide as Hab.
    + split; [done|]. intros Hs. apply Sorted_inv in Hs as [_ Hr].
      apply HdRel_inv in Hr. lia.
    + rewrite IH. split.
      * intros Hs. constructor; [done|]. constructor. lia.
      * intros Hs. by apply Sorted_inv in Hs as [? _].
Qed.

Lemma validateJumpValues_cases given :
  match validateJumpValues given with
  | Returns _ => validJumps given
  | Throws e =>
      (e = InvalidJumpValues EmptyJumps /\ given = []) \/
      (e = InvalidJumpValues NonPositiveJump /\ given <> [] /\
       ~ Forall positiveInteger given) \/
      (e = InvalidJumpValues UnsortedJumps /\ given <> [] /\
       Forall positiveInteger given /\ ~ Sorted Z.gt (intOf <$> given))
  end.
Proof.
  unfold validateJumpValues. case_bool_decide as Hlen.
  { left. split; [done|]. by destruct given. }
  assert (given <> []) as Hne by (by intros ->).
  destruct (forallb (isIntegerAbove 0) given) eqn:Hall; simpl.
  2:{ right; left. split; [done|]. split; [done|].
      rewrite <- forallb_positive. congruence. }
  apply forallb_positive in Hall.
  destruct (descending (intOf <$> given)) eqn:Hd; simpl.
  - apply descending_sorted in Hd. done.
  - right; right. split; [done|]. split; [done|]. split; [done|].
    rewrite <- descending_sorted. congruence.
Qed.

Lemma validateInput_cases (o : PaginationOptions) :
  match validateInput o.(current) o.(max) (Some (default (Int DEFAULT_PAD) o.(pad))) with
  | Returns _ => inputOK o
  | Throws e => violates o e /\ ~ inputOK o
  end.
Proof.
  unfold validateInput.
  destruct (isIntegerAbove 0 (current o)) eqn:Hc; simpl.
  2:{ assert (~ positiveInteger (current o)) as Hn
        by (rewrite <- isIntegerAbove_positive; congruence).
      split; [by apply violates_current|]. by intros (? & _). }
  apply isIntegerAbove_positive in Hc.
  destruct (isIntegerAbove 0 (max o)) eqn:Hm; simpl.
  2:{ assert (~ positiveInteger (max o)) as Hn
        by (rewrite <- isIntegerAbove_positive; congruence).
      split; [by apply violates_max|]. by intros (_ & ? & _). }
  apply isIntegerAbove_positive in Hm.
  case_bool_decide as Ho.
  { split; [by apply violates_order|]. intros (_ & _ & ? & _). lia. }
  destruct (pad o) as [x|] eqn:Hp; simpl.
  - destruct (isIntegerAbove (-1) x) eqn:Hx; simpl.
    + apply isIntegerAbove_nonNegative in Hx.
      split; [done|]. split; [done|]. split; [lia|].
      intros y Hy. rewrite Hp in Hy. injection Hy as <-. done.
    + assert (~ nonNegativeInteger x) as Hn
        by (rewrite <- isIntegerAbove_nonNegative; congruence).
      split; [eapply violates_pad; try done; lia|].
      intros (_ & _ & _ & Hpad). by apply Hn, Hpad.
  - split; [done|]. split; [done|]. split; [lia|].
    intros y Hy. rewrite Hp in Hy. done.
Qed.

(** The builder's part of the call: the built result, or the
    [RangeError] of an array above the length limit. *)
Lemma build_result o :
  let built :=
    match
      generatePaginationArray (currentOf o) (maxOf o) (padOf o) (gapOf o) (jumpsOf o)
    with
    | Throws e => Throws e
    | Returns pages =>
        Returns {| pages := pages;
                   hasPrevious := bool_decide (currentOf o > 1);
                   hasNext := bool_decide (currentOf o < maxOf o);
                   totalPages := maxOf o;
                   currentPage := currentOf o |}
    end in
  (~ tooLong o /\ built = Returns (resultOf o)) \/
  (tooLong o /\ built = Throws InvalidArrayLength).
Proof.
  cbv zeta.
  destruct (generatePaginationArray_cases (currentOf o) (maxOf o) (padOf o) (gapOf o)
              (jumpsOf o)) as [(Hs & Hl & ->)|(Hn & ->)].
  - right. by split.
  - left. by split.
Qed.

(** The call returns the built result, throws the [RangeError] of the
    array length, or throws the first violation. *)
Lemma generatePagination_cases o :
  (validRequest o /\ ~ tooLong o /\ generatePagination o = Returns (resultOf o)) \/
  (validRequest o /\ tooLong o /\ generatePagination o = Throws InvalidArrayLength) \/
  (exists e, violates o e /\ ~ validRequest o /\ generatePagination o = Throws e).
Proof.
  unfold generatePagination. cbv zeta.
  pose proof (validateInput_cases o) as Hi.
  destruct (validateInput _ _ _) as [[]|e].
  2:{ right; right. exists e. destruct Hi as [Hv Hn]. split; [done|]. split; [|done].
      by intros [? _]. }
  pose proof (build_result o) as Hb. cbv zeta in Hb.
  unfold currentOf, maxOf, padOf, gapOf, jumpsOf in Hb.
  destruct (jumpValues o) as [given|] eqn:Hj.
  - pose proof (validateJumpValues_cases given) as Hv.
    destruct (validateJumpValues given) as [[]|e].
    + assert (validRequest o) as Hvalid.
      { split; [done|]. intros y Hy. rewrite Hj in Hy. by injection Hy as <-. }
      destruct Hb as [[Hn Hb]|[Ht Hb]]; [left|right; left]; by rewrite Hb.
    + right; right. exists e. split; [|split; [|done]].
      * destruct Hv as [[-> ->]|[(-> & ? & ?)|(-> & ? & ? & ?)]].
        -- by apply violates_empty.
        -- by eapply violates_positive.
        -- by eapply violates_sorted.
      * intros [_ Hval]. specialize (Hval _ Hj) as (Hne & Hall & Hs).
        destruct Hv as [[_ ?]|[(_ & _ & ?)|(_ & _ & _ & ?)]]; done.
  - assert (validRequest o) as Hvalid.
    { split; [done|]. intros y Hy. by rewrite Hj in Hy. }
    destruct Hb as [[Hn Hb]|[Ht Hb]]; [left|right; left]; by rewrite Hb.
Qed.

Lemma inRange_fits o : inRange o -> ~ tooLong o.
Proof. unfold inRange, tooLong. lia. Qed.

Lemma generatePagination_returns o :
  validRequest o -> inRange o -> generatePagination o = Returns (resultOf o).
Proof.
  intros Hv Hr. apply inRange_fits in Hr.
  destruct (generatePagination_cases o) as [(_ & _ & ?)|[(_ & ? & _)|(e & _ & Hn & _)]];
    done.
Qed.

Lemma violates_unique o e1 e2 : violates o e1 -> violates o e2 -> e1 = e2.
Proof.
  intros H1 H2.
  destruct H1; destruct H2; try done; exfalso; unfold inputOK in *;
    repeat match goal with H : _ /\ _ |- _ => destruct H end;
    first
      [ tauto | lia | congruence
      | match goal with
        | Hall : forall x, pad o = Some x -> _, Hp : pad o = Some ?x |- _ =>
            specialize (Hall _ Hp); tauto
        end ].
Qed.

(** The integers a well-formed request runs the builder with. *)
Lemma validRequest_values o :
  validRequest o ->
  1 <= currentOf o /\ currentOf o <= maxOf o /\ 0 <= padOf o /\
  jumpsOf o <> [] /\ Forall (fun j => 0 < j) (jumpsOf o).
Proof.
  intros [((c & Hc & Hcp) & _ & Hle & Hpad) Hj].
  unfold currentOf, maxOf, padOf, jumpsOf. rewrite Hc in *. simpl in *.
  split; [lia|]. split; [done|]. split.
  - destruct (pad o) as [x|]; simpl; [|unfold DEFAULT_PAD; lia].
    destruct (Hpad x) as (z & -> & ?); done.
  - destruct (jumpValues o) as [given|].
    + destruct (Hj given) as (Hne & Hall & _); [done|]. split.
      * by destruct given.
      * apply Forall_fmap. eapply Forall_impl; [done|].
        intros x (z & -> & ?). done.
    + split; [done|]. unfold DEFAULT_JUMP_VALUES. repeat constructor.
Qed.

(** * Outputs given in the documentation *)

(** The README's basic example: page 5 of 100. *)
Example readme_page_5_of_100 :
  generatePaginationArray 5 100 DEFAULT_PAD DEFAULT_GAP DEFAULT_JUMP_VALUES
  = Returns [Page 1; Page 2; Page 3; Page 4; Page 5; Page 6; Page 7; Sym DEFAULT_GAP;
             Page 10; Page 11; Page 15; Page 20; Page 25; Page 50; Page 100].
Proof. vm_compute. reflexivity. Qed.

(** The README's example with a custom jump table: page 250 of 10000. *)
Example readme_page_250_of_10000 :
  generatePaginationArray 250 10000 DEFAULT_PAD DEFAULT_GAP
                          [1000; 500; 100; 50; 25; 10; 5; 1]
  = Returns [Page 1; Page 50; Page 100; Page 200; Sym DEFAULT_GAP;
             Page 248; Page 249; Page 250; Page 251; Page 252; Sym DEFAULT_GAP;
             Page 300; Page 500; Page 1000; Page 10000].
Proof. vm_compute. reflexivity. Qed.

(** The messages of the three jump-table errors, as the tests expect them. *)
Example jump_table_messages :
  (exists e, generatePagination
      {| current := Int 50; max := Int 100; pad := None; gapSymbol := None;
         jumpValues := Some [] |} = Throws e /\
    message e = "Jump values must be a non-empty array"%string) /\
  (exists e, generatePagination
      {| current := Int 50; max := Int 100; pad := None; gapSymbol := None;
         jumpValues := Some [Int 10; Int 100; Int 1000] |} = Throws e /\
    message e = "Jump values must be sorted in descending order"%string) /\
  (exists e, generatePagination
      {| current := Int 50; max := Int 100; pad := None; gapSymbol := None;
         jumpValues := Some [Int 100; Int (-10); Int 1] |} = Throws e /\
    message e = "All jump values must be positive integers"%string).
Proof. repeat split; eexists; split; vm_compute; reflexivity. Qed.

(** * The specified properties *)

(** Running the builder of a well-formed request. *)
Ltac with_valid_request o Hv Hr :=
  destruct (validRequest_values o Hv) as (Hcur & Hle & Hpad & Hjne & Hjpos);
  exists (resultOf o); split; [by apply generatePagination_returns|]; simpl.

(** C1: for every valid request in range the call returns a non-empty
    [pages] array whose first token is page 1 and whose last token is
    page [max]; when [max = 1] the two coincide in the single token 1. *)
Theorem first_and_last_page (o : PaginationOptions) :
  validRequest o -> inRange o ->
  exists r, generatePagination o = Returns r /\
    r.(pages) <> [] /\
    head r.(pages) = Some (Page 1) /\
    last r.(pages) = Some (Page (maxOf o)) /\
    (maxOf o = 1 -> r.(pages) = [Page 1]).
Proof.
  intros Hv Hr. with_valid_request o Hv Hr.
  pose proof (built_head (currentOf o) (maxOf o) (padOf o) (gapOf o) (jumpsOf o)
                Hcur Hle Hpad Hjne Hjpos) as Hh.
  split; [by intros Hnil; rewrite Hnil in Hh|]. split; [done|]. split.
  - by apply built_last.
  - intros H1. rewrite built_simple by lia. by rewrite H1, run_single.
Qed.

(** C2: for every valid request in range, with any pad and any jump
    table, the page numbers of the near-current window
    [max(1, current - pad) .. min(max, current + pad)] stand in [pages]
    next to each other in ascending order, no gap symbol between them. *)
Theorem window_is_consecutive (o : PaginationOptions) :
  validRequest o -> inRange o ->
  exists r, generatePagination o = Returns r /\
    exists before after,
      r.(pages) =
        before
        ++ (Page <$> seqZ (Z.max 1 (currentOf o - padOf o))
                          (Z.min (maxOf o) (currentOf o + padOf o)
                           - Z.max 1 (currentOf o - padOf o) + 1))
        ++ after.
Proof.
  intros Hv Hr. with_valid_request o Hv Hr.
  by apply (built_window (currentOf o) (maxOf o) (padOf o) (gapOf o) (jumpsOf o)).
Qed.

(** C3: for every valid request in range with [max < 7 + pad * 4], so
    with [max] within the array length limit, the [pages] array is
    exactly the ascending run [1 .. max] and holds no gap symbol (indeed
    no string at all). *)
Theorem simple_mode_lists_every_page (o : PaginationOptions) :
  validRequest o -> inRange o -> maxOf o < 7 + padOf o * 4 ->
  exists r, generatePagination o = Returns r /\
    r.(pages) = Page <$> seqZ 1 (maxOf o) /\
    forall s, Sym s ∉ r.(pages).
Proof.
  intros Hv Hr Hs. with_valid_request o Hv Hr.
  rewrite built_simple by done. split.
  - unfold run. by replace (maxOf o - 1 + 1) with (maxOf o) by lia.
  - intros s Hin. apply elem_of_run in Hin as (n & ? & _). done.
Qed.

(** C4, amended: the call throws one of the errors of the validation
    exactly when the request is malformed, and what it then throws is the
    first violated check in the order current, max, current against max,
    pad, and then, on a supplied jump table, empty, not all positive
    integers, not strictly descending; that error is unique and no
    result is returned.  A call that returns was given a valid request,
    and a valid request in range returns.  A valid request can still
    throw: in simple mode, [max < 7 + pad * 4], with a safe [max] above
    the array length limit, the call throws the [RangeError] of
    [Array.from], which is none of the errors of the validation. *)
Theorem validation_first_violation (o : PaginationOptions) :
  (~ validRequest o <->
   exists e, validationError e /\ generatePagination o = Throws e) /\
  (forall e, validationError e -> generatePagination o = Throws e <-> violates o e) /\
  ((exists r, generatePagination o = Returns r) -> validRequest o) /\
  (validRequest o -> inRange o -> exists r, generatePagination o = Returns r) /\
  (validRequest o -> maxOf o <= MAX_SAFE_INTEGER ->
   maxOf o < 7 + padOf o * 4 -> MAX_ARRAY_LENGTH < maxOf o ->
   generatePagination o = Throws InvalidArrayLength).
Proof.
  assert (forall e, violates o e -> validationError e) as Hval.
  { intros e Hviol. by destruct Hviol. }
  assert (forall e, violates o e -> ~ validRequest o) as Hbad.
  { intros e Hviol.
    destruct Hviol; unfold validRequest, inputOK, validJumps;
      intros [(? & ? & ? & Hpad) Hj];
      first
        [ tauto | lia
        | match goal with
          | Hp : pad o = Some _ |- _ => specialize (Hpad _ Hp); tauto
          | Hg : jumpValues o = Some _ |- _ => specialize (Hj _ Hg); tauto
          end ]. }
  destruct (generatePagination_cases o)
    as [(Hv & Hfit & Hr)|[(Hv & Hlong & Ht)|(e & Hviol & Hn & Ht)]].
  - rewrite Hr. split; [|split; [|split; [|split]]].
    + split; [done|]. by intros (e & _ & ?).
    + intros e _. split; [done|]. intros Hviol. by destruct (Hbad e Hviol).
    + done.
    + intros _ _. by eexists.
    + intros _ _ Hs Hl. destruct Hfit. by split.
  - rewrite Ht. split; [|split; [|split; [|split]]].
    + split; [done|]. intros (e & He & [= <-]). by destruct He.
    + intros e He. split.
      * intros [= <-]. by destruct He.
      * intros Hviol. by destruct (Hbad e Hviol).
    + by intros (r & ?).
    + intros _ Hr. by destruct (inRange_fits o Hr).
    + done.
  - rewrite Ht. split; [|split; [|split; [|split]]].
    + split; [|done]. intros _. exists e. split; [by apply Hval|done].
    + intros e' _. split.
      * by intros [= <-].
      * intros Hviol'. f_equal. by eapply violates_unique.
    + by intros (r & ?).
    + done.
    + done.
Qed.

(** C5: for every valid request in range, no two neighbouring tokens of [pages]
    are the same page number, and no two neighbouring tokens are both the
    gap symbol. *)
Theorem no_adjacent_repeats (o : PaginationOptions) :
  validRequest o -> inRange o ->
  exists r, generatePagination o = Returns r /\
    forall (i : nat) x y,
      r.(pages) !! i = Some x -> r.(pages) !! S i = Some y ->
      (forall n, x = Page n -> y <> Page n) /\
      ~ (x = Sym (gapOf o) /\ y = Sym (gapOf o)).
Proof.
  intros Hv Hr. with_valid_request o Hv Hr.
  pose proof (built_noAdj (currentOf o) (maxOf o) (padOf o) (gapOf o) (jumpsOf o)
                Hcur Hle Hpad Hjne Hjpos) as Hna.
  intros i x y Hx Hy. split.
  - intros n -> ->. exact (noAdj_lookup _ _ _ Hna Hx Hy).
  - intros [-> ->]. exact (noAdj_lookup _ _ _ Hna Hx Hy).
Qed.

(** C6: for every valid request in range the length of [pages] is at most
    [minPagesForComplex = 7 + pad * 4]; and a turn of the loop for a page
    right of the window (a page of the loop, so at most [max], other
    than [max] and the slot of the gap symbol) leaves an array of
    [minPagesForComplex - 1] or more elements as it is, so no anchor is
    added once the budget is used up. *)
Theorem length_within_budget (o : PaginationOptions) :
  validRequest o -> inRange o ->
  exists r, generatePagination o = Returns r /\
    len r.(pages) <= 7 + padOf o * 4 /\
    forall p page,
      currentOf o + padOf o < page -> page <= maxOf o -> page <> maxOf o ->
      (currentOf o + padOf o + 1 = page -> page = maxOf o - 1) ->
      7 + padOf o * 4 - 1 <= len p ->
      loopBody (currentOf o) (maxOf o) (padOf o) (gapOf o) (jumpsOf o) p page = p.
Proof.
  intros Hv Hr. with_valid_request o Hv Hr. split.
  - by apply built_len.
  - intros p page Hp _. by apply loopBody_budget.
Qed.

(** C7, at the request [{current: 1, max: 11, pad: 0}] with the default
    gap symbol and jump table: the request is valid, and the page numbers
    of the returned array are not strictly increasing (6 follows 10). *)
Theorem anchors_out_of_order :
  let o := {| current := Int 1; max := Int 11; pad := Some (Int 0);
              gapSymbol := None; jumpValues := None |} in
  exists r, generatePagination o = Returns r /\
    r.(pages) = [Page 1; Sym DEFAULT_GAP; Page 4; Page 5; Page 10; Page 6; Page 11] /\
    ~ Sorted Z.lt (pageNumbers r.(pages)).
Proof.
  eexists. split; [vm_compute; reflexivity|]. split; [reflexivity|].
  simpl. intros Hs.
  do 3 (apply Sorted_inv in Hs as [Hs _]). apply Sorted_inv in Hs as [_ Hr].
  apply HdRel_inv in Hr. lia.
Qed.

(** C8: for every valid request in range the page number [current] is a
    token of [pages]. *)
Theorem current_page_present (o : PaginationOptions) :
  validRequest o -> inRange o ->
  exists r, generatePagination o = Returns r /\ Page (currentOf o) ∈ r.(pages).
Proof.
  intros Hv Hr. with_valid_request o Hv Hr. by apply built_current.
Qed.

(** C9: for every valid request in range, [hasPrevious] is [current > 1],
    [hasNext] is [current < max], [totalPages] is [max] and
    [currentPage] is [current]. *)
Theorem result_metadata (o : PaginationOptions) :
  validRequest o -> inRange o ->
  exists r, generatePagination o = Returns r /\
    r.(hasPrevious) = bool_decide (currentOf o > 1) /\
    r.(hasNext) = bool_decide (currentOf o < maxOf o) /\
    r.(totalPages) = maxOf o /\
    r.(currentPage) = currentOf o.
Proof.
  intros Hv Hr. exists (resultOf o). split; [by apply generatePagination_returns|done].
Qed.

(** C10: for [{current: 50, max: 100, pad: 1}] with the default gap
    symbol and jump table, [pages] holds 49, 50 and 51 and neither 48
    nor 52. *)
Theorem scenario_50_of_100_pad_1 :
  exists r,
    generatePagination {| current := Int 50; max := Int 100; pad := Some (Int 1);
                          gapSymbol := None; jumpValues := None |} = Returns r /\
    (Page 49 ∈ r.(pages)) /\ (Page 50 ∈ r.(pages)) /\ (Page 51 ∈ r.(pages)) /\
    (Page 48 ∉ r.(pages)) /\ (Page 52 ∉ r.(pages)).
Proof.
  eexists. split; [vm_compute; reflexivity|].
  cbn [pages]. repeat split; compute_done.
Qed.

(** * The properties at concrete requests *)

(** Checks a concrete request against [validRequest]. *)
Ltac valid_request :=
  unfold validRequest, inputOK, validJumps, positiveInteger, nonNegativeInteger,
    currentOf, maxOf, padOf; simpl;
  repeat match goal with
         | |- _ /\ _ => split
         | |- exists z, Int ?a = Int z /\ _ => exists a; split; [reflexivity|lia]
         | |- forall x, Some _ = Some x -> _ => intros ? [= <-]
         | |- forall x, None = Some x -> _ => intros ? [=]
         | |- _ <> [] => discriminate
         | |- Forall _ _ => constructor
         | |- Sorted _ _ => constructor
         | |- HdRel _ _ _ => constructor
         | |- _ <= _ => simpl; lia
         | |- _ < _ => simpl; lia
         | |- _ > _ => simpl; lia
         end.

(** Checks a concrete request against [inRange]. *)
Ltac in_range := split; vm_compute; discriminate.

Lemma first_and_last_page_witness :
  (validRequest page_50_of_100 /\ inRange page_50_of_100) /\
  exists r, generatePagination page_50_of_100 = Returns r /\
    r.(pages) <> [] /\
    head r.(pages) = Some (Page 1) /\
    last r.(pages) = Some (Page 100) /\
    (maxOf page_50_of_100 = 1 -> r.(pages) = [Page 1]).
Proof.
  assert (validRequest page_50_of_100) as Hv by valid_request.
  assert (inRange page_50_of_100) as Hr by in_range.
  split; [split; [exact Hv|exact Hr]|]. exact (first_and_last_page page_50_of_100 Hv Hr).
Defined.

Lemma window_is_consecutive_witness :
  (validRequest page_3_of_100 /\ inRange page_3_of_100) /\
  exists r, generatePagination page_3_of_100 = Returns r /\
    exists before after,
      r.(pages) = before ++ [Page 1; Page 2; Page 3; Page 4; Page 5] ++ after.
Proof.
  assert (validRequest page_3_of_100) as Hv by valid_request.
  assert (inRange page_3_of_100) as Hr by in_range.
  split; [split; [exact Hv|exact Hr]|]. exact (window_is_consecutive page_3_of_100 Hv Hr).
Defined.

Lemma simple_mode_lists_every_page_witness :
  (validRequest page_3_of_5 /\ inRange page_3_of_5 /\
   maxOf page_3_of_5 < 7 + padOf page_3_of_5 * 4) /\
  exists r, generatePagination page_3_of_5 = Returns r /\
    r.(pages) = [Page 1; Page 2; Page 3; Page 4; Page 5] /\
    forall s, Sym s ∉ r.(pages).
Proof.
  assert (validRequest page_3_of_5) as Hv by valid_request.
  assert (maxOf page_3_of_5 < 7 + padOf page_3_of_5 * 4) as Hs by (vm_compute; reflexivity).
  assert (inRange page_3_of_5) as Hr by in_range.
  split; [split; [exact Hv|split; [exact Hr|exact Hs]]|].
  exact (simple_mode_lists_every_page page_3_of_5 Hv Hr Hs).
Defined.

Lemma no_adjacent_repeats_witness :
  (validRequest page_45_of_100_custom /\ inRange page_45_of_100_custom) /\
  exists r, generatePagination page_45_of_100_custom = Returns r /\
    forall (i : nat) x y,
      r.(pages) !! i = Some x -> r.(pages) !! S i = Some y ->
      (forall n, x = Page n -> y <> Page n) /\
      ~ (x = Sym (gapOf page_45_of_100_custom) /\ y = Sym (gapOf page_45_of_100_custom)).
Proof.
  assert (validRequest page_45_of_100_custom) as Hv by valid_request.
  assert (inRange page_45_of_100_custom) as Hr by in_range.
  split; [split; [exact Hv|exact Hr]|].
  exact (no_adjacent_repeats page_45_of_100_custom Hv Hr).
Defined.

Lemma length_within_budget_witness :
  (validRequest page_15_of_100_pad_1 /\ inRange page_15_of_100_pad_1) /\
  exists r, generatePagination page_15_of_100_pad_1 = Returns r /\
    len r.(pages) <= 11 /\
    forall p page,
      15 + 1 < page -> page <= 100 -> page <> 100 ->
      (15 + 1 + 1 = page -> page = 100 - 1) ->
      11 - 1 <= len p ->
      loopBody 15 100 1 "..." [2000; 500; 100; 50; 25; 10; 1] p page = p.
Proof.
  assert (validRequest page_15_of_100_pad_1) as Hv by valid_request.
  assert (inRange page_15_of_100_pad_1) as Hr by in_range.
  split; [split; [exact Hv|exact Hr]|].
  exact (length_within_budget page_15_of_100_pad_1 Hv Hr).
Defined.

Lemma current_page_present_witness :
  (validRequest page_100_of_100_pad_0 /\ inRange page_100_of_100_pad_0) /\
  exists r, generatePagination page_100_of_100_pad_0 = Returns r /\ Page 100 ∈ r.(pages).
Proof.
  assert (validRequest page_100_of_100_pad_0) as Hv by valid_request.
  assert (inRange page_100_of_100_pad_0) as Hr by in_range.
  split; [split; [exact Hv|exact Hr]|].
  exact (current_page_present page_100_of_100_pad_0 Hv Hr).
Defined.

Lemma result_metadata_witness :
  (validRequest page_5_of_20 /\ inRange page_5_of_20) /\
  exists r, generatePagination page_5_of_20 = Returns r /\
    r.(hasPrevious) = true /\ r.(hasNext) = true /\
    r.(totalPages) = 20 /\ r.(currentPage) = 5.
Proof.
  assert (validRequest page_5_of_20) as Hv by valid_request.
  assert (inRange page_5_of_20) as Hr by in_range.
  split; [split; [exact Hv|exact Hr]|]. exact (result_metadata page_5_of_20 Hv Hr).
Defined.

(** C4, at the request [{current: 1, max: 2^32, pad: 2^30}]: the request
    is valid and in simple mode, and the call throws the [RangeError] of
    an array above the length limit, which is no violated check; so
    neither "valid exactly when it returns" nor "what is thrown is the
    first violated check" holds there. *)
Lemma validation_first_violation_counterexample :
  let o := {| current := Int 1; max := Int 4294967296; pad := Some (Int 1073741824);
              gapSymbol := None; jumpValues := None |} in
  validRequest o /\
  generatePagination o = Throws InvalidArrayLength /\
  ~ violates o InvalidArrayLength /\
  ~ (validRequest o <-> exists r, generatePagination o = Returns r) /\
  ~ (forall e, generatePagination o = Throws e <-> violates o e).
Proof.
  intros o.
  assert (validRequest o) as Hv by valid_request.
  assert (generatePagination o = Throws InvalidArrayLength) as Ht
    by (vm_compute; reflexivity).
  assert (~ violates o InvalidArrayLength) as Hn by (intros H; inversion H).
  split; [exact Hv|]. split; [exact Ht|]. split; [exact Hn|]. split.
  - intros [Hr _]. destruct (Hr Hv) as [r Hret]. rewrite Ht in Hret. discriminate.
  - intros Hall. apply Hn, Hall, Ht.
Qed.

(** * Further properties of the anchor searches *)

Lemma findIndex_from_hit {A} (f : A -> bool) (a : list A) (i : Z) :
  0 <= i -> findIndex_from f a i <> -1 ->
  exists x, item a (findIndex_from f a i - i) = Some x /\ f x = true.
Proof.
  revert i. induction a as [|y a IH]; intros i Hi Hr; [done|]. simpl in *.
  destruct (f y) eqn:Hy.
  - exists y. replace (i - i) with 0 by lia. done.
  - destruct (IH (i + 1)) as (x & Hx & Hfx); [lia|done|].
    exists x. split; [|done].
    destruct (findIndex_from_range f a (i + 1)) as [[? _]|Hrange]; [done|].
    unfold item in *. rewrite decide_True in Hx by lia. rewrite decide_True by lia.
    replace (Z.to_nat (findIndex_from f a (i + 1) - i))
      with (S (Z.to_nat (findIndex_from f a (i + 1) - (i + 1)))) by lia.
    done.
Qed.

Lemma findIndex_hit {A} (f : A -> bool) (a : list A) :
  findIndex f a <> -1 -> exists x, item a (findIndex f a) = Some x /\ f x = true.
Proof.
  intros Hr. destruct (findIndex_from_hit f a 0) as (x & Hx & Hfx); [lia|done|].
  exists x. unfold findIndex. by rewrite Z.sub_0_r in Hx.
Qed.

Lemma item_elem_of {A} (a : list A) i x : item a i = Some x -> x ∈ a.
Proof. unfold item. case_decide; [|done]. apply list_elem_of_lookup_2. Qed.

Lemma item_inside {A} (a : list A) i : 0 <= i < len a -> exists x, item a i = Some x.
Proof.
  intros Hi. unfold item. rewrite decide_True by lia.
  destruct (a !! Z.to_nat i) as [x|] eqn:Hx; [by exists x|].
  apply lookup_ge_None in Hx. unfold len in Hi. lia.
Qed.

(** Rounding [m] up to the next multiple of [j], as both return
    statements of the upper-anchor search do. *)
Lemma round_up_multiple m j :
  0 < j ->
  (if bool_decide (Z.rem m j = 0) then m + j else m - Z.rem m j + j)
  = j * (Z.quot m j + 1) /\
  m < j * (Z.quot m j + 1) /\
  j * (Z.quot m j + 1) = m - Z.rem m j + j /\
  (0 <= m -> j * (Z.quot m j + 1) <= m + j).
Proof.
  intros Hj. pose proof (Z.quot_rem' m j) as Hqr.
  assert (Z.rem m j < j) as Hlt.
  { destruct (decide (0 <= m)).
    - pose proof (Z.rem_bound_pos m j). lia.
    - assert (Z.rem m j = - Z.rem (- m) j) as -> by (rewrite Z.rem_opp_l by lia; lia).
      pose proof (Z.rem_nonneg (- m) j). lia. }
  split; [case_bool_decide; lia|]. split; [lia|]. split; [lia|].
  intros Hm. pose proof (Z.rem_bound_pos m j). lia.
Qed.

Lemma Sorted_gt_snoc (l : list Z) (y : Z) :
  Sorted Z.gt l -> Forall (fun t => y < t) l -> Sorted Z.gt (l ++ [y]).
Proof.
  induction l as [|x l IH]; intros Hs Hall; simpl.
  - repeat constructor.
  - apply Sorted_inv in Hs as [Hs Hhd]. rewrite Forall_cons in Hall.
    destruct Hall as [Hx Hall]. constructor; [by apply IH|].
    destruct l as [|z l]; simpl; constructor; [lia|].
    apply HdRel_inv in Hhd. done.
Qed.

Section anchorSearches.
Variable jumps : list Z.
Hypothesis jumps_nonempty : jumps <> [].
Hypothesis jumps_positive : Forall (fun j => 0 < j) jumps.

Lemma jumpAt_elem i : 0 <= i < len jumps -> jumpAt jumps i ∈ jumps /\ 0 < jumpAt jumps i.
Proof.
  intros Hi. split; [|by apply jumpAt_pos].
  destruct (item_inside jumps i Hi) as [x Hx]. unfold jumpAt. rewrite Hx. simpl.
  by eapply item_elem_of.
Qed.

(** X1: on safe integers, from a base [min] that is not negative, the
    upper-anchor search returns the next multiple of an entry [j] of the
    jump table: the least multiple of [j] strictly above [min], at most
    [min + j], itself a safe integer.  The range: [max] and the number
    of iterations are safe integers, and [min + j] is one for every
    entry, so that no sum is rounded. *)
Theorem findLargerValuesFor_next_multiple (min max iteration : Z) :
  0 <= min -> safeInteger max -> iteration <= MAX_SAFE_INTEGER ->
  Forall (fun j => min + j <= MAX_SAFE_INTEGER) jumps ->
  exists j, j ∈ jumps /\
    findLargerValuesFor min max iteration jumps = j * (Z.quot min j + 1) /\
    min < findLargerValuesFor min max iteration jumps <= min + j /\
    (forall k, min < j * k -> findLargerValuesFor min max iteration jumps <= j * k) /\
    safeInteger (findLargerValuesFor min max iteration jumps).
Proof.
  intros Hmin _ _ Hsafe. unfold findLargerValuesFor. cbv zeta.
  set (start := orLast jumps _).
  assert (0 <= start < len jumps) as Hstart
    by (unfold start; by apply jumpIndex_inside).
  pose proof (refined_inside jumps min max iteration start Hstart) as Hk.
  set (k := for_loop iteration _ start) in *.
  destruct (jumpAt_elem k Hk) as [Hin Hpos].
  destruct (round_up_multiple min (jumpAt jumps k) Hpos) as (Heq & Hlt & Hrem & Hle).
  specialize (Hle Hmin). rewrite Forall_forall in Hsafe. specialize (Hsafe _ Hin).
  pose proof (Z.rem_bound_pos min (jumpAt jumps k) Hmin Hpos) as Hr.
  exists (jumpAt jumps k). rewrite Heq.
  split; [done|]. split; [done|]. split; [lia|]. split.
  - intros m Hm. assert (Z.quot min (jumpAt jumps k) < m) as Hq by nia. nia.
  - unfold safeInteger. lia.
Qed.

(** X2: on safe integers, from a base that is not negative, the
    upper-anchor search stays below [max] exactly when some entry of the
    table allows it, that is when rounding the base up to the entry's
    next multiple stays below [max].  The range is that of X1. *)
Theorem findLargerValuesFor_below_max (min max iteration : Z) :
  0 <= min -> safeInteger max -> iteration <= MAX_SAFE_INTEGER ->
  Forall (fun j => min + j <= MAX_SAFE_INTEGER) jumps ->
  findLargerValuesFor min max iteration jumps < max <->
  exists j, j ∈ jumps /\ min - Z.rem min j + j < max.
Proof.
  intros Hmin _ _ _. unfold findLargerValuesFor. cbv zeta.
  set (f := fun jump => bool_decide (jump < max) &&
                        bool_decide (min - Z.rem min jump + jump < max)).
  set (start := orLast jumps (findIndex f jumps)).
  assert (0 <= start < len jumps) as Hstart
    by (unfold start; by apply jumpIndex_inside).
  set (good := fun k => min - Z.rem min (jumpAt jumps k) + jumpAt jumps k < max).
  assert (forall j, j ∈ jumps -> min - Z.rem min j + j < max -> f j = true) as Hf.
  { intros j Hj Hr. unfold f. rewrite Forall_forall in jumps_positive.
    pose proof (jumps_positive j Hj). pose proof (Z.rem_bound_pos min j).
    pose proof (Z.rem_le min j). rewrite !bool_decide_eq_true_2; [done|lia|lia]. }
  assert (good start \/
          (start = len jumps - 1 /\
           forall j, j ∈ jumps -> ~ min - Z.rem min j + j < max)) as Hinit.
  { unfold start, orLast.
    destruct (findIndex_range f jumps) as [[Hnone Hall]|Hfound].
    - right. rewrite Hnone. rewrite decide_False by lia. split; [done|].
      intros j Hj Hr. rewrite Forall_forall in Hall. specialize (Hall j Hj).
      rewrite (Hf j Hj Hr) in Hall. done.
    - left. rewrite decide_True by lia.
      destruct (findIndex_hit f jumps) as (x & Hx & Hfx); [lia|].
      unfold good, jumpAt. rewrite Hx. simpl. unfold f in Hfx.
      apply andb_true_iff in Hfx as [_ Hfx]. by apply bool_decide_eq_true in Hfx. }
  match goal with |- context [for_loop iteration ?b start] => set (body := b) end.
  pose (P := fun (_ : Z) k => 0 <= k < len jumps /\
             (good k \/ (k = len jumps - 1 /\
                forall j, j ∈ jumps -> ~ min - Z.rem min j + j < max))).
  assert (P (Z.max 0 iteration) (for_loop iteration body start)) as [Hk Hgood].
  { apply for_loop_ind; [done|]. intros i k _ [Hk Hor]. unfold body.
    destruct (bool_decide (k + 1 < len jumps)) eqn:Hlt; simpl; [|done].
    apply bool_decide_eq_true in Hlt.
    case_bool_decide as Hr; [|done]. split; [lia|]. by left. }
  set (k := for_loop iteration body start) in *.
  destruct (jumpAt_elem k Hk) as [Hin Hpos].
  destruct (round_up_multiple min (jumpAt jumps k) Hpos) as (Heq & _ & Hround & _).
  rewrite Heq, Hround. split.
  - intros Hlt. exists (jumpAt jumps k). done.
  - intros (j & Hj & Hr). destruct Hgood as [Hg|[_ Hnone]]; [done|].
    by destruct (Hnone j Hj).
Qed.

Lemma lower_anchor_below (min max iteration pad : Z) :
  0 < max \/ 0 < iteration ->
  findLowerValuesFor min max iteration pad jumps < max.
Proof.
  intros Hor. destruct (decide (0 < iteration)) as [Hit|Hit].
  - unfold findLowerValuesFor. cbv zeta.
    set (ji := orLast jumps _).
    assert (0 <= ji < len jumps) as Hji by (unfold ji; by apply jumpIndex_inside).
    pose proof (margin_inside jumps min max (pad - iteration) ji ltac:(lia)) as Hm.
    set (margin := for_loop _ _ _) in *.
    rewrite bool_decide_eq_false_2 by lia.
    pose proof (jumpAt_pos jumps jumps_positive (ji - margin)). lia.
  - assert (0 < max) as Hmax by lia.
    unfold findLowerValuesFor. cbv zeta.
    set (ji := orLast jumps _).
    assert (0 < jumpAt jumps ji) as Hj0.
    { apply (jumpAt_pos jumps jumps_positive). unfold ji. by apply jumpIndex_inside. }
    set (margin := for_loop _ _ _).
    pose proof (jumpAt_nonneg jumps jumps_positive (ji - margin)) as Hjm.
    pose proof (Z.rem_nonneg max (jumpAt jumps ji) ltac:(lia) ltac:(lia)).
    rewrite bool_decide_eq_true_2 by lia.
    repeat case_bool_decide; lia.
Qed.

(** X3: on safe integers the lower-anchor search returns a value
    strictly below its ceiling [max], for a positive ceiling or after the
    first iteration.  The range: the arguments are safe integers, the
    loop runs a safe number of times, and the ceiling less two entries of
    the table is a safe integer, so that no difference is rounded. *)
Theorem findLowerValuesFor_below_ceiling (min max iteration pad : Z) :
  0 < max \/ 0 < iteration ->
  safeInteger min -> safeInteger max -> safeInteger iteration -> safeInteger pad ->
  pad - iteration <= MAX_SAFE_INTEGER ->
  Forall (fun j => - MAX_SAFE_INTEGER <= max - 2 * j) jumps ->
  findLowerValuesFor min max iteration pad jumps < max.
Proof. intros Hor _ _ _ _ _ _. by apply lower_anchor_below. Qed.

(** The chain of lower anchors descends strictly. *)
Lemma lower_anchors_chain (p : list token) (current pad : Z) :
  0 <= pad ->
  Sorted Z.gt (lowerAnchors p current pad jumps) /\
  Forall (fun v => 1 < v < current - pad - 1 /\ Page v ∉ p)
         (lowerAnchors p current pad jumps) /\
  len (lowerAnchors p current pad jumps) <= pad + 1.
Proof.
  intros Hpad.
  destruct (lowerAnchors_spec jumps jumps_nonempty jumps_positive p current pad)
    as [Hall Hlen].
  split; [|split; [|lia]].
  2:{ eapply Forall_impl; [done|]. intros v [? ?]. split; [lia|done]. }
  clear Hall Hlen. unfold lowerAnchors.
  pose (P := fun (i : Z) (s : Z * list Z) =>
    (i = 0 -> s.2 = []) /\ Sorted Z.gt s.2 /\ Forall (fun t => s.1 <= t) s.2).
  match goal with |- context [for_loop ?n ?b ?s] =>
    assert (P (Z.max 0 n) (for_loop n b s)) as (_ & Hs & _) end; [|done].
  apply for_loop_ind.
  - unfold P. simpl. split; [done|]. split; constructor.
  - intros i [value temps] Hi (H0 & Hs & Hall). simpl in *.
    set (value' := findLowerValuesFor 1 value i pad jumps).
    assert (Forall (fun t => value' < t) temps) as Hlt.
    { destruct (decide (i = 0)) as [->|Hne]; [by rewrite H0|].
      assert (0 < i) as Hpos by lia.
      pose proof (lower_anchor_below 1 value i pad (or_intror Hpos)) as Hv.
      fold value' in Hv. eapply Forall_impl; [done|]. simpl. intros t ?. lia. }
    destruct (bool_decide (value' > 1) && bool_decide (indexOf p (Page value') < 0)).
    + unfold P. simpl. split; [lia|]. split; [by apply Sorted_gt_snoc|].
      apply Forall_app. split; [|apply Forall_singleton; lia].
      eapply Forall_impl; [exact Hlt|]. simpl. intros t ?. lia.
    + unfold P. simpl. split; [lia|]. split; [done|].
      eapply Forall_impl; [exact Hlt|]. simpl. intros t ?. lia.
Qed.

(** X4: on safe integers the left-side batch keeps at most [pad + 1]
    values, in strictly descending order, each above 1, below the window
    and absent from the array it was computed for.  The range: the first
    ceiling, [current - pad - 1], is a safe integer and stays one when
    two entries of the table are taken off it in each of the [pad + 1]
    steps, so that no step of the chain is rounded. *)
Theorem lowerAnchors_descending (p : list token) (current pad : Z) :
  0 <= pad -> pad < MAX_SAFE_INTEGER -> current - pad - 1 <= MAX_SAFE_INTEGER ->
  Forall (fun j => - MAX_SAFE_INTEGER <= current - pad - 1 - 2 * (pad + 1) * j) jumps ->
  Sorted Z.gt (lowerAnchors p current pad jumps) /\
  Forall (fun v => 1 < v < current - pad - 1 /\ Page v ∉ p)
         (lowerAnchors p current pad jumps) /\
  len (lowerAnchors p current pad jumps) <= pad + 1.
Proof. intros Hpad _ _ _. by apply lower_anchors_chain. Qed.
End anchorSearches.

(** Checks a concrete jump table: non-empty, positive entries. *)
Ltac valid_table :=
  split; [discriminate|repeat constructor].

(** Checks the entries of a concrete jump table against a bound. *)
Ltac safe_entries :=
  cbv [DEFAULT_JUMP_VALUES];
  repeat (apply Forall_cons; split; [vm_compute; discriminate|]); constructor.

(** Checks that a concrete integer is a safe integer. *)
Ltac safe_integer := split; vm_compute; discriminate.

Lemma findLargerValuesFor_next_multiple_witness :
  (DEFAULT_JUMP_VALUES <> [] /\ Forall (fun j => 0 < j) DEFAULT_JUMP_VALUES /\
   0 <= 9 /\ safeInteger 100 /\ 5 <= MAX_SAFE_INTEGER /\
   Forall (fun j => 9 + j <= MAX_SAFE_INTEGER) DEFAULT_JUMP_VALUES) /\
  exists j, j ∈ DEFAULT_JUMP_VALUES /\
    findLargerValuesFor 9 100 5 DEFAULT_JUMP_VALUES = j * (Z.quot 9 j + 1) /\
    9 < findLargerValuesFor 9 100 5 DEFAULT_JUMP_VALUES <= 9 + j /\
    (forall k, 9 < j * k -> findLargerValuesFor 9 100 5 DEFAULT_JUMP_VALUES <= j * k) /\
    safeInteger (findLargerValuesFor 9 100 5 DEFAULT_JUMP_VALUES).
Proof.
  assert (DEFAULT_JUMP_VALUES <> [] /\ Forall (fun j => 0 < j) DEFAULT_JUMP_VALUES)
    as Ht by valid_table.
  assert (0 <= 9) as Hmin by lia.
  assert (safeInteger 100) as Hmax by safe_integer.
  assert (5 <= MAX_SAFE_INTEGER) as Hit by (vm_compute; discriminate).
  assert (Forall (fun j => 9 + j <= MAX_SAFE_INTEGER) DEFAULT_JUMP_VALUES) as Hs
    by safe_entries.
  split; [split; [exact (proj1 Ht)|split; [exact (proj2 Ht)|split; [exact Hmin|
          split; [exact Hmax|split; [exact Hit|exact Hs]]]]]|].
  exact (findLargerValuesFor_next_multiple DEFAULT_JUMP_VALUES (proj1 Ht) (proj2 Ht)
           9 100 5 Hmin Hmax Hit Hs).
Defined.

Lemma findLargerValuesFor_below_max_witness :
  ([10] <> [] /\ Forall (fun j => 0 < j) [10] /\ 0 <= 30 /\ safeInteger 35 /\
   0 <= MAX_SAFE_INTEGER /\ Forall (fun j => 30 + j <= MAX_SAFE_INTEGER) [10]) /\
  (findLargerValuesFor 30 35 0 [10] < 35 <->
   exists j, j ∈ [10] /\ 30 - Z.rem 30 j + j < 35).
Proof.
  assert ([10] <> [] /\ Forall (fun j => 0 < j) [10]) as Ht by valid_table.
  assert (0 <= 30) as Hm by lia.
  assert (safeInteger 35) as Hmax by safe_integer.
  assert (0 <= MAX_SAFE_INTEGER) as Hit by (vm_compute; discriminate).
  assert (Forall (fun j => 30 + j <= MAX_SAFE_INTEGER) [10]) as Hs by safe_entries.
  split; [split; [exact (proj1 Ht)|split; [exact (proj2 Ht)|split; [exact Hm|
          split; [exact Hmax|split; [exact Hit|exact Hs]]]]]|].
  exact (findLargerValuesFor_below_max [10] (proj1 Ht) (proj2 Ht) 30 35 0 Hm Hmax Hit Hs).
Defined.

Lemma findLowerValuesFor_below_ceiling_witness :
  (DEFAULT_JUMP_VALUES <> [] /\ Forall (fun j => 0 < j) DEFAULT_JUMP_VALUES /\
   (0 < 1247 \/ 0 < 0) /\
   safeInteger 1 /\ safeInteger 1247 /\ safeInteger 0 /\ safeInteger 2 /\
   2 - 0 <= MAX_SAFE_INTEGER /\
   Forall (fun j => - MAX_SAFE_INTEGER <= 1247 - 2 * j) DEFAULT_JUMP_VALUES) /\
  findLowerValuesFor 1 1247 0 2 DEFAULT_JUMP_VALUES < 1247.
Proof.
  assert (DEFAULT_JUMP_VALUES <> [] /\ Forall (fun j => 0 < j) DEFAULT_JUMP_VALUES)
    as Ht by valid_table.
  assert (0 < 1247 \/ 0 < 0) as Hc by (left; lia).
  assert (safeInteger 1) as H1 by safe_integer.
  assert (safeInteger 1247) as H2 by safe_integer.
  assert (safeInteger 0) as H3 by safe_integer.
  assert (safeInteger 2) as H4 by safe_integer.
  assert (2 - 0 <= MAX_SAFE_INTEGER) as H5 by (vm_compute; discriminate).
  assert (Forall (fun j => - MAX_SAFE_INTEGER <= 1247 - 2 * j) DEFAULT_JUMP_VALUES) as H6
    by safe_entries.
  split; [split; [exact (proj1 Ht)|split; [exact (proj2 Ht)|split; [exact Hc|
          split; [exact H1|split; [exact H2|split; [exact H3|split; [exact H4|
          split; [exact H5|exact H6]]]]]]]]|].
  exact (findLowerValuesFor_below_ceiling DEFAULT_JUMP_VALUES (proj1 Ht) (proj2 Ht)
           1 1247 0 2 Hc H1 H2 H3 H4 H5 H6).
Defined.

Lemma lowerAnchors_descending_witness :
  (DEFAULT_JUMP_VALUES <> [] /\ Forall (fun j => 0 < j) DEFAULT_JUMP_VALUES /\
   0 <= 2 /\ 2 < MAX_SAFE_INTEGER /\ 1250 - 2 - 1 <= MAX_SAFE_INTEGER /\
   Forall (fun j => - MAX_SAFE_INTEGER <= 1250 - 2 - 1 - 2 * (2 + 1) * j)
          DEFAULT_JUMP_VALUES) /\
  Sorted Z.gt (lowerAnchors [Page 1] 1250 2 DEFAULT_JUMP_VALUES) /\
  Forall (fun v => 1 < v < 1250 - 2 - 1 /\ Page v ∉ [Page 1])
         (lowerAnchors [Page 1] 1250 2 DEFAULT_JUMP_VALUES) /\
  len (lowerAnchors [Page 1] 1250 2 DEFAULT_JUMP_VALUES) <= 2 + 1.
Proof.
  assert (DEFAULT_JUMP_VALUES <> [] /\ Forall (fun j => 0 < j) DEFAULT_JUMP_VALUES)
    as Ht by valid_table.
  assert (0 <= 2) as Hp by lia.
  assert (2 < MAX_SAFE_INTEGER) as H1 by (vm_compute; reflexivity).
  assert (1250 - 2 - 1 <= MAX_SAFE_INTEGER) as H2 by (vm_compute; discriminate).
  assert (Forall (fun j => - MAX_SAFE_INTEGER <= 1250 - 2 - 1 - 2 * (2 + 1) * j)
            DEFAULT_JUMP_VALUES) as H3 by safe_entries.
  split; [split; [exact (proj1 Ht)|split; [exact (proj2 Ht)|split; [exact Hp|
          split; [exact H1|split; [exact H2|exact H3]]]]]|].
  exact (lowerAnchors_descending DEFAULT_JUMP_VALUES (proj1 Ht) (proj2 Ht)
           [Page 1] 1250 2 Hp H1 H2 H3).
Defined.

(** * Further properties of the append rule *)

Section appendRuleMore.
Variable g : string.
Implicit Types (p init : list token) (page position : Z).

Lemma addPage_keeps_pages p page position n :
  Page n ∈ p -> Page n ∈ addPage p page position g.
Proof.
  intros Hin. destruct (addPage_cases g p page position) as (core & Hadd & ->).
  assert (Page n ∈ core) as Hcore.
  { assert (forall init, p = init ++ [Page (page - 2); Sym g] ->
              Page n ∈ init ++ [Page (page - 2); Page (page - 1); Page page]) as Hc.
    { intros init ->. revert Hin. rewrite !elem_of_app, !elem_of_cons.
      intros [?|[?|[?|H]]]; [by left|right; by left|done|by apply elem_of_nil in H]. }
    destruct Hadd as [Hl|Hl _|init Hp _|init a b Hp Hpos Hab _ _ _ _].
    - done.
    - apply elem_of_app. by left.
    - by apply Hc.
    - specialize (Hc _ Hp). rewrite Hab in Hc. revert Hc.
      rewrite !elem_of_app, elem_of_cons. tauto. }
  destruct (fixSmallGap_cases g core) as [[-> _]|(x & r & -> & ->)]; [done|].
  revert Hcore. rewrite !elem_of_cons. intros [?|[?|?]]; [by left|done|by right; right].
Qed.

(** X5: the append rule is idempotent: appending the same page again,
    whatever the position tag, changes nothing. *)
Theorem addPage_idempotent p page position position' :
  addPage (addPage p page position g) page position' g = addPage p page position g.
Proof.
  set (r := addPage p page position g).
  assert (last r = Some (Page page)) as Hl by apply addPage_last.
  destruct (addPage_simple g r page position') as [[_ ->]|[Hne _]].
  - apply not_collapsible_last. by rewrite Hl.
  - apply fixSmallGap_id. destruct (addPage_cases g p page position) as (core & _ & Hr).
    unfold r. rewrite Hr. apply fixSmallGap_nofix.
  - done.
Qed.

(** X6: the append rule never drops a page number and always leaves
    [page] as the last element of the array. *)
Theorem addPage_keeps_and_ends p page position :
  (forall n, Page n ∈ p -> Page n ∈ addPage p page position g) /\
  last (addPage p page position g) = Some (Page page).
Proof.
  split; [intros n; apply addPage_keeps_pages|apply addPage_last].
Qed.

(** X7: the append rule grows the array by at most two elements, by at
    most one when the position tag is 1 or more, and by none exactly when
    [page] already is the last element; the number of gap symbols never
    grows. *)
Theorem addPage_growth p page position :
  len p <= len (addPage p page position g) <= len p + 2 /\
  (1 <= position -> len (addPage p page position g) <= len p + 1) /\
  (len (addPage p page position g) = len p <-> last p = Some (Page page)) /\
  (gaps g (addPage p page position g) <= gaps g p)%nat.
Proof.
  split; [|split; [|split]].
  4:{ apply addPage_gaps. }
  2:{ intros Hpos. apply addPage_len. by left. }
  all: destruct (addPage_cases g p page position) as (core & Hadd & ->);
    rewrite fixSmallGap_len;
    destruct Hadd as [Hl|Hl _|init Hp _|init a b Hp Hpos Hab _ _ _ _].
  - lia.
  - rewrite len_app, len_cons. norm_len. lia.
  - subst p. rewrite !len_app, !len_cons. norm_len. lia.
  - subst p. rewrite len_app, len_cons.
    assert (len a + len b = len init + 3) as Hlen.
    { rewrite <- len_app, <- Hab, len_app, !len_cons. norm_len. lia. }
    rewrite len_app, !len_cons. norm_len. lia.
  - done.
  - rewrite len_app, len_cons. norm_len. split; [lia|done].
  - subst p. rewrite !len_app, !len_cons, last_snoc2. norm_len. split; [lia|done].
  - subst p. rewrite last_snoc2.
    assert (len a + len b = len init + 3) as Hlen.
    { rewrite <- len_app, <- Hab, len_app, !len_cons. norm_len. lia. }
    rewrite !len_app, !len_cons. norm_len. split; [lia|done].
Qed.

(** X8: on safe integers, on an array that ends in [page - 2] and the
    gap symbol, the append rule closes the gap: the result ends in
    [page - 2], [page - 1], [page].  With a position tag of 1 or more
    nothing else changes before the closing fix and a gap symbol is gone;
    with a smaller tag the array grows by one when all its elements are
    then consecutive, and by two (a gap symbol is re-opened) otherwise.
    The range: [page - 2], [page] and the page numbers of the array are
    safe integers, so that neither [page - 1] nor the [+ 1] of the
    backward scan is rounded, and the array has room for the two pushes. *)
Theorem addPage_closes_gap init page position :
  safeInteger (page - 2) -> safeInteger page ->
  Forall (fun t => forall n, t = Page n -> safeInteger n) init ->
  len init + 4 <= MAX_ARRAY_LENGTH ->
  let p := init ++ [Page (page - 2); Sym g] in
  let closed := init ++ [Page (page - 2); Page (page - 1); Page page] in
  [Page (page - 2); Page (page - 1); Page page] `suffix_of` addPage p page position g /\
  (1 <= position ->
   addPage p page position g = fixSmallGap closed g /\
   (gaps g (addPage p page position g) < gaps g p)%nat) /\
  (position < 1 ->
   (consec closed /\ len (addPage p page position g) = len p + 1) \/
   (~ consec closed /\ len (addPage p page position g) = len p + 2)).
Proof.
  intros _ _ _ _ p closed. split; [|split].
  - pose proof (addPage_suffix_collapse g (page - 1 - 1) (page - 1) p position) as H.
    replace (page - 1 - 1) with (page - 2) in H by lia.
    replace (page - 1 + 1) with page in H by lia.
    rewrite run_single in H.
    rewrite (run_cons (page - 2)), (run_cons (page - 2 + 1)) in H by lia.
    replace (page - 2 + 1 + 1) with page in H by lia.
    replace (page - 2 + 1) with (page - 1) in H by lia.
    rewrite run_single in H. apply H; [lia|]. by exists init.
  - intros Hpos.
    destruct (addPage_cases g p page position) as (core & Hadd & Heq).
    destruct Hadd as [Hl|_ Hnc|init' Hi _|init' a b Hi Hlt _ _ _ _ _].
    + unfold p in Hl. by rewrite last_snoc2 in Hl.
    + by destruct (Hnc init).
    + unfold p in Hi. apply snoc2_inj in Hi as (<- & _ & _).
      split; [done|]. rewrite Heq.
      eapply Nat.le_lt_trans; [apply fixSmallGap_gaps|].
      unfold p. rewrite !gaps_app. simpl. rewrite decide_True by done. lia.
    + lia.
  - intros Hpos.
    destruct (addPage_cases g p page position) as (core & Hadd & ->).
    rewrite fixSmallGap_len.
    destruct Hadd as [Hl|_ Hnc|init' Hi Hor|init' a b Hi _ Hab Ha Hb Hd Hc].
    + unfold p in Hl. by rewrite last_snoc2 in Hl.
    + by destruct (Hnc init).
    + unfold p in Hi. apply snoc2_inj in Hi as (<- & _ & _).
      destruct Hor as [?|Hc]; [lia|]. left. split; [done|].
      unfold p. rewrite !len_app, !len_cons. norm_len. lia.
    + unfold p in Hi. apply snoc2_inj in Hi as (<- & _ & _). right. split.
      * unfold closed. rewrite Hab. intros Hcons.
        pose proof (consec_app_mid a b Ha Hb Hcons). congruence.
      * assert (len a + len b = len init + 3) as Hlen.
        { rewrite <- len_app, <- Hab, len_app, !len_cons. norm_len. lia. }
        unfold p. rewrite !len_app, !len_cons. norm_len. lia.
Qed.
End appendRuleMore.

Lemma addPage_closes_gap_witness :
  (safeInteger (12 - 2) /\ safeInteger 12 /\
   Forall (fun t => forall n, t = Page n -> safeInteger n) [Page 1; Page 7] /\
   len [Page 1; Page 7] + 4 <= MAX_ARRAY_LENGTH) /\
  let p := [Page 1; Page 7] ++ [Page (12 - 2); Sym DEFAULT_GAP] in
  let closed := [Page 1; Page 7] ++ [Page (12 - 2); Page (12 - 1); Page 12] in
  [Page (12 - 2); Page (12 - 1); Page 12] `suffix_of` addPage p 12 0 DEFAULT_GAP /\
  (1 <= 0 ->
   addPage p 12 0 DEFAULT_GAP = fixSmallGap closed DEFAULT_GAP /\
   (gaps DEFAULT_GAP (addPage p 12 0 DEFAULT_GAP) < gaps DEFAULT_GAP p)%nat) /\
  (0 < 1 ->
   (consec closed /\ len (addPage p 12 0 DEFAULT_GAP) = len p + 1) \/
   (~ consec closed /\ len (addPage p 12 0 DEFAULT_GAP) = len p + 2)).
Proof.
  assert (safeInteger (12 - 2)) as H1 by safe_integer.
  assert (safeInteger 12) as H2 by safe_integer.
  assert (Forall (fun t => forall n, t = Page n -> safeInteger n) [Page 1; Page 7]) as H3.
  { repeat (apply Forall_cons; split; [intros n [= <-]; safe_integer|]). constructor. }
  assert (len [Page 1; Page 7] + 4 <= MAX_ARRAY_LENGTH) as H4 by (vm_compute; discriminate).
  split; [split; [exact H1|split; [exact H2|split; [exact H3|exact H4]]]|].
  exact (addPage_closes_gap DEFAULT_GAP [Page 1; Page 7] 12 0 H1 H2 H3 H4).
Defined.

(** * Further properties of the builder *)

Section tokenRange.
Variables (current max pad : Z) (g : string) (jumps : list Z).
Hypothesis current_pos : 1 <= current.
Hypothesis current_le_max : current <= max.
Hypothesis pad_nonneg : 0 <= pad.
Hypothesis jumps_nonempty : jumps <> [].
Hypothesis jumps_positive : Forall (fun j => 0 < j) jumps.

(** Every page number of the array lies in [1 .. max]. *)
Local Abbreviation within := (Forall (fun t => forall n, t = Page n -> 1 <= n <= max)).

Lemma fixSmallGap_within p : within p -> within (fixSmallGap p g).
Proof.
  intros Hp. destruct (fixSmallGap_cases g p) as [[-> _]|(x & r & -> & ->)]; [done|].
  apply Forall_cons in Hp as (Hx & Hp). apply Forall_cons in Hp as (_ & Hp).
  pose proof Hp as H3. apply Forall_cons in H3 as (H3 & _). specialize (H3 3 eq_refl).
  apply Forall_cons. split; [done|]. apply Forall_cons. split; [|done].
  intros n [= <-]. lia.
Qed.

Lemma addPage_within p page position :
  within p -> 1 <= page <= max -> within (addPage p page position g).
Proof.
  intros Hp Hpage. destruct (addPage_cases g p page position) as (core & Hadd & ->).
  apply fixSmallGap_within.
  assert (forall init, p = init ++ [Page (page - 2); Sym g] ->
            within (init ++ [Page (page - 2); Page (page - 1); Page page])) as Hc.
  { intros init ->. rewrite Forall_app in Hp. destruct Hp as (Hi & Ht).
    apply Forall_cons in Ht as (H2 & _). specialize (H2 _ eq_refl).
    apply Forall_app. split; [done|].
    repeat (apply Forall_cons; split; [intros n [= <-]; lia|]). done. }
  destruct Hadd as [Hl|Hl _|init Hi _|init a b Hi _ Hab _ _ _ _].
  - done.
  - apply Forall_app. split; [done|]. apply Forall_singleton. intros n [= <-]. lia.
  - by apply Hc.
  - specialize (Hc _ Hi). rewrite Hab, Forall_app in Hc. destruct Hc as (Ha & Hb).
    apply Forall_app. split; [done|]. by apply Forall_cons.
Qed.

Lemma addPages_within p (temps : list Z) :
  within p -> Forall (fun v => 1 <= v <= max) temps ->
  within (foldl (fun p v => addPage p v (-1) g) p temps).
Proof.
  revert p. induction temps as [|v temps IH]; intros p Hp Ht; [done|].
  apply Forall_cons in Ht as (Hv & Ht). simpl. apply IH; [|done].
  by apply addPage_within.
Qed.

Lemma larger_anchor_above min iteration :
  min < findLargerValuesFor min max iteration jumps.
Proof.
  unfold findLargerValuesFor. cbv zeta.
  set (start := orLast jumps _).
  assert (0 <= start < len jumps) as Hstart
    by (unfold start; by apply jumpIndex_inside).
  pose proof (refined_inside jumps min max iteration start Hstart) as Hk.
  set (k := for_loop iteration _ start) in *.
  pose proof (jumpAt_pos jumps jumps_positive k Hk) as Hpos.
  destruct (round_up_multiple min (jumpAt jumps k) Hpos) as (Heq & Hlt & _ & _).
  by rewrite Heq.
Qed.

Lemma loopBody_within p page :
  within p -> 1 <= page <= max -> within (loopBody current max pad g jumps p page).
Proof.
  intros Hp Hpage. unfold loopBody. cbv zeta.
  destruct (_ || _); [by apply addPage_within|].
  destruct (_ && _).
  { apply Forall_app. split; [|by apply Forall_singleton].
    apply addPages_within; [done|]. apply Forall_reverse.
    destruct (lowerAnchors_spec jumps jumps_nonempty jumps_positive p current pad)
      as [Hall _].
    eapply Forall_impl; [apply Hall|]. simpl. intros v [Hv _]. lia. }
  destruct (_ && _); [by apply addPage_within|].
  destruct (bool_decide (page > current)); [|done].
  destruct (_ && _); [apply Forall_app; split; [done|by apply Forall_singleton]|].
  destruct (bool_decide (len p < _)); [|done].
  set (base := if is_sym g _ then page else _).
  assert (0 <= base) as Hbase.
  { unfold base. destruct (is_sym g _); [lia|]. rewrite item_last.
    destruct (last p) as [[n|s]|] eqn:Hl; simpl; try lia.
    apply last_Some_elem_of in Hl. rewrite Forall_forall in Hp.
    specialize (Hp _ Hl n eq_refl). lia. }
  pose proof (larger_anchor_above base (7 + pad * 4 - len p - 2)) as Habove.
  destruct (bool_decide (_ < max)) eqn:Hlt.
  - apply bool_decide_eq_true in Hlt. apply addPage_within; [done|lia].
  - by apply addPage_within.
Qed.

Lemma loop_within (n : nat) :
  Z.of_nat n <= max ->
  within (foldl (loopBody current max pad g jumps) [] (seqZ 1 (Z.of_nat n))).
Proof.
  induction n as [|n IH]; intros Hn; [done|].
  rewrite seqZ_S, foldl_app. simpl. apply loopBody_within; [apply IH|]; lia.
Qed.

Lemma built_within : within (builtPages current max pad g jumps).
Proof.
  rewrite builtPages_eq. destruct (bool_decide _).
  - rewrite simple_mode_run. apply Forall_forall. intros t Ht n ->.
    apply elem_of_run in Ht as (m & [= <-] & ?). lia.
  - pose proof (loop_within (Z.to_nat max)) as H. rewrite Z2Nat.id in H by lia.
    apply H. lia.
Qed.
End tokenRange.

(** * The array on the two sides of the window's last page *)

Lemma pageNumbers_app a b : pageNumbers (a ++ b) = pageNumbers a ++ pageNumbers b.
Proof. apply omap_app. Qed.

Lemma elem_of_pageNumbers n p : n ∈ pageNumbers p <-> Page n ∈ p.
Proof.
  unfold pageNumbers. rewrite list_elem_of_omap. split.
  - intros ([m|s] & Hin & [= <-]). done.
  - intros Hin. by exists (Page n).
Qed.

Lemma pageNumbers_run a b : pageNumbers (run a b) = seqZ a (b - a + 1).
Proof.
  unfold run, pageNumbers. generalize (seqZ a (b - a + 1)). intros l.
  induction l as [|x l IH]; [done|]. csimpl. by f_equal.
Qed.

Lemma StronglySorted_lt_app (a b : list Z) :
  StronglySorted Z.lt (a ++ b) <->
  StronglySorted Z.lt a /\ StronglySorted Z.lt b /\
  (forall x y, x ∈ a -> y ∈ b -> x < y).
Proof.
  induction a as [|t a IH]; simpl.
  - split; [intros H; split; [constructor|split; [done|]]|tauto].
    intros x y Hx. by apply elem_of_nil in Hx.
  - split.
    + intros H. apply StronglySorted_inv in H as [Hs Hall].
      apply IH in Hs as (Ha & Hb & Hab). rewrite Forall_app in Hall.
      destruct Hall as [Hta Htb]. split; [by constructor|]. split; [done|].
      intros x y Hx Hy. apply elem_of_cons in Hx as [->|Hx]; [|by apply Hab].
      rewrite Forall_forall in Htb. by apply Htb.
    + intros (Hta & Hb & Hab). apply StronglySorted_inv in Hta as [Ha Hall].
      constructor.
      * apply IH. split; [done|]. split; [done|]. intros x y Hx Hy. apply Hab; [|done].
        by right.
      * apply Forall_app. split; [done|]. apply Forall_forall. intros y Hy.
        apply Hab; [by left|done].
Qed.

Lemma StronglySorted_lt_seqZ a (n : nat) : StronglySorted Z.lt (seqZ a (Z.of_nat n)).
Proof.
  induction n as [|n IH]; [constructor|].
  rewrite seqZ_S. apply StronglySorted_lt_app. split; [done|]. split.
  - repeat constructor.
  - intros x y Hx Hy. apply elem_of_seqZ in Hx. apply list_elem_of_singleton in Hy. lia.
Qed.

Lemma StronglySorted_lt_run a b : StronglySorted Z.lt (pageNumbers (run a b)).
Proof.
  rewrite pageNumbers_run. destruct (decide (0 <= b - a + 1)) as [Hn|Hn].
  - rewrite <- (Z2Nat.id (b - a + 1)) by done. apply StronglySorted_lt_seqZ.
  - replace (seqZ a (b - a + 1)) with (@nil Z); [constructor|].
    unfold seqZ. by replace (Z.to_nat (b - a + 1)) with 0%nat by lia.
Qed.

Lemma StronglySorted_gt_reverse (l : list Z) :
  Sorted Z.gt l -> StronglySorted Z.lt (reverse l).
Proof.
  intros Hs. apply Sorted_StronglySorted in Hs; [|intros x y z; lia].
  induction Hs as [|x l Hs IH Hall]; [constructor|].
  rewrite reverse_cons. apply StronglySorted_lt_app. split; [done|]. split.
  - repeat constructor.
  - intros a b Ha Hb. rewrite elem_of_reverse in Ha. apply list_elem_of_singleton in Hb.
    subst b. rewrite Forall_forall in Hall. specialize (Hall a Ha). lia.
Qed.

Section ascendingAppend.
Variable g : string.

Local Abbreviation ascending := (fun p => StronglySorted Z.lt (pageNumbers p)).

Lemma fixSmallGap_ascending core :
  head core = Some (Page 1) -> ascending core ->
  ascending (fixSmallGap core g) /\
  (forall n, Page n ∈ fixSmallGap core g -> Page n ∈ core \/ (n = 2 /\ Page 3 ∈ core)).
Proof.
  intros Hh Hs. destruct (fixSmallGap_cases g core) as [[-> _]|(x & r & -> & ->)].
  { split; [done|]. intros n ?. by left. }
  injection Hh as ->. split.
  - change (StronglySorted Z.lt (1 :: 2 :: 3 :: pageNumbers r)).
    change (StronglySorted Z.lt (1 :: 3 :: pageNumbers r)) in Hs.
    apply StronglySorted_inv in Hs as [Hs H1]. pose proof Hs as Hs'.
    apply StronglySorted_inv in Hs' as [_ H3].
    apply Forall_cons in H1 as [_ H1].
    constructor.
    + constructor; [exact Hs|]. constructor; [lia|].
      eapply Forall_impl; [exact H3|]. simpl. intros; lia.
    + constructor; [lia|]. constructor; [lia|]. exact H1.
  - intros n. rewrite !elem_of_cons. intros [?|[[= ->]|[?|?]]].
    + left. by left.
    + right. split; [done|]. right; right; by left.
    + left. right; right; by left.
    + left. by do 3 right.
Qed.

Lemma closed_gap_ascending init n :
  ascending (init ++ [Page (n - 2); Sym g]) ->
  ascending (init ++ [Page (n - 2); Page (n - 1); Page n]).
Proof.
  cbv beta. rewrite !pageNumbers_app.
  change (pageNumbers [Page (n - 2); Sym g]) with [n - 2].
  change (pageNumbers [Page (n - 2); Page (n - 1); Page n]) with [n - 2; n - 1; n].
  rewrite !StronglySorted_lt_app. intros (Hi & _ & Hlt). split; [done|]. split.
  - repeat constructor; lia.
  - intros x y Hx Hy. specialize (Hlt x (n - 2) Hx). rewrite list_elem_of_singleton in Hlt.
    specialize (Hlt eq_refl). rewrite !elem_of_cons in Hy.
    destruct Hy as [->|[->|[->|Hy]]]; [lia..|by apply elem_of_nil in Hy].
Qed.

Lemma closed_gap_pages init n m :
  Page m ∈ init ++ [Page (n - 2); Page (n - 1); Page n] ->
  Page m ∈ init ++ [Page (n - 2); Sym g] \/ m = n - 1 \/ m = n.
Proof.
  rewrite !elem_of_app, !elem_of_cons.
  intros [?|[?|[[= ->]|[[= ->]|H]]]]; [tauto|tauto|lia|lia|by apply elem_of_nil in H].
Qed.

Lemma addPage_ascending p page position :
  head p = Some (Page 1) -> ascending p -> (forall n, Page n ∈ p -> n < page) ->
  ascending (addPage p page position g) /\
  (forall n, Page n ∈ addPage p page position g -> n <= page).
Proof.
  intros Hh Hs Hlt. pose proof (addPage_head g p page position Hh) as Hh'.
  destruct (addPage_cases g p page position) as (core & Hadd & Heq).
  rewrite Heq in *. rewrite fixSmallGap_head in Hh'.
  assert (ascending core /\ forall n, Page n ∈ core -> n <= page) as [Hc Hle].
  { destruct Hadd as [Hl|Hl _|init Hi _|init a b Hi _ Hab _ _ _ _].
    - split; [done|]. intros n Hn. specialize (Hlt n Hn). lia.
    - split.
      + cbv beta. rewrite pageNumbers_app. apply StronglySorted_lt_app.
        split; [done|]. split; [repeat constructor|].
        intros x y Hx Hy. apply list_elem_of_singleton in Hy. subst y.
        apply Hlt. by apply elem_of_pageNumbers.
      + intros n. rewrite elem_of_app, list_elem_of_singleton.
        intros [Hn|[= ->]]; [specialize (Hlt n Hn)|]; lia.
    - subst p. split; [by apply closed_gap_ascending|].
      intros n Hn. apply closed_gap_pages in Hn as [Hn|Hn]; [specialize (Hlt n Hn)|]; lia.
    - subst p. pose proof (closed_gap_ascending init page Hs) as Ha.
      rewrite Hab in Ha. cbv beta in Ha. rewrite pageNumbers_app in Ha. split.
      + cbv beta. by rewrite pageNumbers_app.
      + intros n Hn.
        assert (Page n ∈ a ++ b) as Hn'.
        { revert Hn. rewrite !elem_of_app, elem_of_cons. intros [?|[?|?]]; [tauto|done|tauto]. }
        rewrite <- Hab in Hn'.
        apply closed_gap_pages in Hn' as [Hn'|Hn']; [specialize (Hlt n Hn')|]; lia. }
  destruct (fixSmallGap_ascending core Hh' Hc) as [Hf Hin]. split; [done|].
  intros n Hn. destruct (Hin n Hn) as [Hn'|[-> H3]]; [by apply Hle|].
  specialize (Hle 3 H3). lia.
Qed.

Lemma addPages_ascending p (temps : list Z) :
  Sym g ∉ p -> StronglySorted Z.lt (pageNumbers p ++ temps) ->
  pageNumbers (foldl (fun p v => addPage p v (-1) g) p temps) = pageNumbers p ++ temps.
Proof.
  revert p. induction temps as [|v temps IH]; intros p Hng Hs; simpl.
  { by rewrite app_nil_r. }
  destruct (addPage_nogap g p v (-1) Hng) as [[Hl _]|[_ ->]].
  - exfalso. apply StronglySorted_lt_app in Hs as (_ & _ & Hlt).
    assert (v < v); [|lia]. apply Hlt; [|by left].
    apply elem_of_pageNumbers. by eapply last_Some_elem_of.
  - rewrite IH.
    + rewrite pageNumbers_app. by rewrite <- app_assoc.
    + rewrite elem_of_app, list_elem_of_singleton. intros [?|[=]]. done.
    + rewrite pageNumbers_app. by rewrite <- app_assoc.
Qed.

(** A page appended after a prefix that ends in a page number leaves the
    prefix as it is, unless a gap is re-opened. *)
Lemma addPage_keeps_prefix before after h page position :
  last before = Some (Page h) -> nofix g (before ++ after) ->
  1 <= position \/ ~ collapsible g (before ++ after) page ->
  exists after', addPage (before ++ after) page position g = before ++ after' /\
                 (gaps g after' <= gaps g after)%nat.
Proof.
  intros Hl Hnf Hpos. set (p := before ++ after) in *.
  assert (forall r, addPage p page position g = before ++ r ->
            (gaps g r <= gaps g after)%nat) as Hgaps.
  { intros r Hr. pose proof (addPage_gaps g p page position) as H.
    rewrite Hr in H. unfold p in H. rewrite !gaps_app in H. lia. }
  assert (exists r, addPage p page position g = before ++ r) as [r Hr];
    [|exists r; split; [done|by apply Hgaps]].
  destruct (addPage_cases g p page position) as (core & Hadd & ->).
  assert (exists r, core = before ++ r) as [r ->].
  { destruct Hadd as [_|_ _|init Hi _|init a b Hi Hlt _ _ _ _ _].
    - by exists after.
    - exists (after ++ [Page page]). unfold p. by rewrite app_assoc.
    - unfold p in Hi. destruct after as [|x after _] using rev_ind.
      + rewrite app_nil_r in Hi. rewrite Hi, last_snoc2 in Hl. done.
      + change [Page (page - 2); Sym g] with ([Page (page - 2)] ++ [Sym g]) in Hi.
        rewrite !app_assoc in Hi. apply app_inj_tail in Hi as [Hi _].
        exists (after ++ [Page (page - 1); Page page]).
        change [Page (page - 2); Page (page - 1); Page page]
          with ([Page (page - 2)] ++ [Page (page - 1); Page page]).
        by rewrite !app_assoc, <- Hi.
    - destruct Hpos as [?|Hnc]; [lia|]. destruct Hnc. by exists init. }
  destruct (fixSmallGap_cases g (before ++ r)) as [[-> _]|(x & t & Heq & ->)].
  { by exists r. }
  destruct before as [|x' [|y before]].
  - done.
  - injection Heq as -> ->. by exists (Page 2 :: Page 3 :: t).
  - exfalso. injection Heq as -> -> Heq.
    destruct before as [|z before]; [done|]. injection Heq as -> _.
    apply Hnf. by unfold p.
Qed.
End ascendingAppend.

Section sides.
Variables (current max pad : Z) (g : string) (jumps : list Z).
Hypothesis current_pos : 1 <= current.
Hypothesis current_le_max : current <= max.
Hypothesis pad_nonneg : 0 <= pad.
Hypothesis complex_mode : 7 + pad * 4 <= max.
Hypothesis jumps_nonempty : jumps <> [].
Hypothesis jumps_positive : Forall (fun j => 0 < j) jumps.

Local Abbreviation Inv := (Inv current max pad g).
Local Abbreviation body := (loopBody current max pad g jumps).
Local Abbreviation hi := (Z.min max (current + pad)).

(** Up to the window's last page: the page numbers ascend and stay below
    the window until the turns reach it; without a pad nothing but pages
    1 and [current] is there. *)
Local Abbreviation leftSide := (fun (q : Z) (p : list token) =>
  StronglySorted Z.lt (pageNumbers p) /\
  (forall n, Page n ∈ p -> n < Z.max (q + 1) (current - pad)) /\
  (pad = 0 -> p = Page 1 :: (if decide (1 < current <= q) then [Page current] else []))).

(** From the window's last page on: the array as it stood then is a
    prefix of the array. *)
Local Abbreviation rightSide := (fun (q : Z) (p : list token) =>
  exists before after,
    p = before ++ after /\ Inv hi before /\ leftSide hi before /\
    (gaps g after <= 1)%nat /\ (q = hi -> after = [])).

Lemma Inv_body q p : Inv q p -> 1 <= q < max -> Inv (q + 1) (body p (q + 1)).
Proof. by apply Inv_step. Qed.

Lemma window_end_last p : Inv hi p -> last p = Some (Page hi).
Proof.
  intros HI. pose proof (runStart_le current pad current_pos pad_nonneg) as Hstart.
  assert (current <= hi <= current + pad) as Hw by lia.
  pose proof (in_window current max pad g current_pos pad_nonneg hi p HI Hw) as Hsuf.
  assert (runStart current pad <= hi) as Hle by lia.
  by eapply suffix_last_run.
Qed.

Lemma leftSide_step q p :
  Inv q p -> 1 <= q < max -> q + 1 <= hi -> leftSide q p -> leftSide (q + 1) (body p (q + 1)).
Proof.
  intros HI Hq Hhi (Hs & Hlt & Hzero).
  assert (current - pad <= q + 1 -> forall n, Page n ∈ p -> n < q + 1) as Hbelow.
  { intros Hlo n Hn. specialize (Hlt n Hn). lia. }
  assert (forall r : list token, (forall n, Page n ∈ r -> n <= q + 1) ->
            forall n, Page n ∈ r -> n < Z.max (q + 1 + 1) (current - pad)) as Hbound.
  { intros r Hr n Hn. specialize (Hr n Hn). lia. }
  assert (pad = 0 -> p = [Page 1]) as Hone.
  { intros H0. rewrite (Hzero H0). rewrite decide_False by lia. done. }
  assert (current - pad <= q + 1 ->
          q + 1 = max \/ q + 1 = current \/ current - pad <= q + 1 <= current + pad ->
          leftSide (q + 1) (addPage p (q + 1) 0 g)) as Hadd.
  { intros Hlo Hpage.
    destruct (addPage_ascending g p (q + 1) 0 (inv_head _ _ _ _ _ _ HI) Hs (Hbelow Hlo))
      as [Hs' Hle].
    split; [done|]. split; [by apply Hbound|].
    intros H0. rewrite (Hone H0). rewrite decide_True by lia.
    destruct (addPage_nogap g [Page 1] (q + 1) 0) as [[Hl _]|[_ ->]].
    - intros Hin. by apply list_elem_of_singleton in Hin.
    - injection Hl as Hl. lia.
    - simpl. repeat f_equal. lia. }
  destruct (loopBody_turn current max pad g jumps current_pos p (q + 1))
    as [Ha|H1 Hm Hc Hl|H1 Hm Hc Hl Hw|H1 Hm Hg Hm1|v H1 Hm Hr Hlen|H1 Hm Hc Hl Hw].
  - apply Hadd; lia.
  - destruct Hl as (Hcur & Hng & _ & Hpad).
    assert (q < current) as Hq' by lia.
    destruct (inv_left _ _ _ _ _ _ HI Hpad Hq') as [?|[Hp Hor]]; [done|].
    destruct (lower_anchors_chain jumps jumps_nonempty jumps_positive p current pad
                pad_nonneg) as (Hsorted & Hall & _).
    set (temps := reverse (lowerAnchors p current pad jumps)) in *.
    assert (StronglySorted Z.lt temps) as Htemps by by apply StronglySorted_gt_reverse.
    assert (forall v, v ∈ temps -> 1 < v < current - pad - 1 /\ Page v ∉ p) as Hin.
    { intros v Hv. unfold temps in Hv. rewrite elem_of_reverse in Hv.
      rewrite Forall_forall in Hall. by apply Hall. }
    assert (q = 1 \/ temps = []) as Hcases.
    { destruct Hor as [?|Hlo]; [by left|]. right. unfold temps.
      rewrite (lowerAnchors_nil jumps jumps_nonempty jumps_positive); [done|].
      intros v Hv. rewrite Hp. apply elem_of_run. exists v. split; [done|]. lia. }
    assert (StronglySorted Z.lt (pageNumbers p ++ temps)) as Hchain.
    { destruct Hcases as [->| ->]; [|by rewrite app_nil_r].
      rewrite Hp, run_single. change (pageNumbers [Page 1]) with [1].
      apply StronglySorted_lt_app. split; [repeat constructor|]. split; [done|].
      intros x y Hx Hy. apply list_elem_of_singleton in Hx. subst x.
      destruct (Hin y Hy) as [? _]. lia. }
    pose proof (addPages_ascending g p temps Hng Hchain) as Hnums.
    assert (forall r, pageNumbers (r ++ [Sym g]) = pageNumbers r) as Hgap.
    { intros r. rewrite pageNumbers_app. apply app_nil_r. }
    split; [|split].
    + by rewrite Hgap, Hnums.
    + intros n Hn. apply elem_of_pageNumbers in Hn. rewrite Hgap, Hnums in Hn.
      apply elem_of_app in Hn as [Hn|Hn].
      * apply elem_of_pageNumbers in Hn. specialize (Hlt n Hn). lia.
      * destruct (Hin n Hn) as [? _]. lia.
    + intros ?. lia.
  - apply Hadd; lia.
  - lia.
  - lia.
  - split; [done|]. split.
    + intros n Hn. specialize (Hlt n Hn). lia.
    + intros H0. rewrite (Hone H0). rewrite decide_False by lia. done.
Qed.

Lemma rightSide_start p : Inv hi p -> leftSide hi p -> rightSide hi p.
Proof.
  intros HI Hleft. exists p, []. rewrite app_nil_r.
  split; [done|]. split; [done|]. split; [done|]. split; [simpl; lia|done].
Qed.

Lemma rightSide_step q p :
  Inv q p -> 1 <= q < max -> hi <= q -> rightSide q p -> rightSide (q + 1) (body p (q + 1)).
Proof.
  intros HI Hq Hhi (before & after & Hp & HIb & Hleft & Hga & Hnil).
  pose proof (window_end_last before HIb) as Hl.
  assert (current + pad <= q < max) as Hpast by lia.
  destruct (past_window current max pad g current_pos pad_nonneg q p HI Hpast)
    as (_ & Htail & _ & _).
  pose proof (inv_nofix _ _ _ _ _ _ HI) as Hnf.
  assert (forall page position,
            1 <= position \/ ~ collapsible g p page ->
            rightSide (q + 1) (addPage p page position g)) as Hadd.
  { intros page position Hpos. rewrite Hp in Hnf, Hpos.
    destruct (addPage_keeps_prefix g before after hi page position Hl Hnf Hpos)
      as (after' & Heq & Hle).
    exists before, after'. rewrite Hp. split; [done|]. split; [done|]. split; [done|].
    split; [lia|]. intros ?. lia. }
  destruct (loopBody_turn current max pad g jumps current_pos p (q + 1))
    as [Ha|H1 Hm Hc Hlb|H1 Hm Hc Hlb Hw|H1 Hm Hg Hm1|v H1 Hm Hr Hlen|H1 Hm Hc Hlb Hw].
  - apply Hadd. right. assert (q + 1 = max) as -> by lia.
    by apply (tailOK_not_collapsible current max pad g).
  - destruct Hlb as (? & _). lia.
  - lia.
  - assert (q = hi) as Hq' by lia. specialize (Hnil Hq'). subst after.
    exists before, [Sym g]. rewrite Hp, app_nil_r. split; [done|]. split; [done|].
    split; [done|]. split; [by rewrite gaps_sym|]. intros ?. lia.
  - apply Hadd. left. lia.
  - exists before, after. split; [done|]. split; [done|]. split; [done|].
    split; [done|]. intros ?. lia.
Qed.

Lemma sides_first :
  leftSide 1 (body [] 1) /\ (hi <= 1 -> rightSide 1 (body [] 1)).
Proof.
  assert (Inv 1 (body [] 1)) as HI by by apply Inv_first.
  assert (body [] 1 = [Page 1]) as Heq.
  { unfold loopBody. cbv zeta. rewrite (bool_decide_eq_true_2 (1 = 1)) by done.
    simpl. apply addPage_nil. }
  rewrite Heq in *.
  assert (leftSide 1 [Page 1]) as Hleft.
  { split; [repeat constructor|]. split.
    - intros n Hn. apply list_elem_of_singleton in Hn. injection Hn as ->. lia.
    - intros _. rewrite decide_False by lia. done. }
  split; [done|]. intros Hhi. assert (hi = 1) as Hone by lia.
  pose proof (rightSide_start [Page 1]) as H. rewrite Hone in H. rewrite Hone.
  by apply H.
Qed.

Lemma sides_loop (n : nat) :
  1 <= Z.of_nat n <= max ->
  let p := foldl body [] (seqZ 1 (Z.of_nat n)) in
  (Z.of_nat n <= hi -> leftSide (Z.of_nat n) p) /\
  (hi <= Z.of_nat n -> rightSide (Z.of_nat n) p).
Proof.
  induction n as [|n IH]; intros Hn; [lia|].
  rewrite seqZ_S, foldl_app. simpl.
  destruct n as [|n].
  - simpl. destruct sides_first as [Hl Hr]. split; [done|]. exact Hr.
  - replace (Z.of_nat (S (S n))) with (Z.of_nat (S n) + 1) by lia.
    replace (1 + Z.of_nat (S n)) with (Z.of_nat (S n) + 1) by lia.
    set (q := Z.of_nat (S n)) in *.
    assert (1 <= q < max) as Hq by lia.
    assert (1 <= q <= max) as Hq' by lia.
    destruct (IH Hq') as [IHl IHr].
    pose proof (Inv_loop current max pad g jumps current_pos current_le_max pad_nonneg
                  complex_mode jumps_nonempty jumps_positive (S n) Hq') as HI.
    fold q in HI. set (p := foldl body [] (seqZ 1 q)) in *.
    assert (q + 1 <= hi -> leftSide (q + 1) (body p (q + 1))) as Hleft.
    { intros Hle. apply leftSide_step; [done|done|done|]. apply IHl. lia. }
    split; [done|]. intros Hge.
    destruct (decide (q + 1 = hi)) as [Heq|Hne].
    + pose proof (Inv_body q p HI Hq) as HI'. rewrite Heq in HI', Hleft |- *.
      apply rightSide_start; [done|]. apply Hleft. lia.
    + apply rightSide_step; [done|done|lia|]. apply IHr. lia.
Qed.

Lemma sides_complex :
  rightSide max (foldl body [] (seqZ 1 max)).
Proof.
  pose proof (sides_loop (Z.to_nat max)) as H. rewrite Z2Nat.id in H by lia.
  apply H; lia.
Qed.

(** The array of a request in complex mode, split after the window's
    last page. *)
Lemma built_sides_complex :
  exists before after,
    builtPages current max pad g jumps = before ++ after /\
    head before = Some (Page 1) /\
    last before = Some (Page hi) /\
    run (runStart current pad) hi `suffix_of` before /\
    StronglySorted Z.lt (pageNumbers before) /\
    (gaps g before <= 1)%nat /\ (gaps g after <= 1)%nat /\
    (hi = max -> after = []) /\
    (pad = 0 -> before = Page 1 :: (if decide (1 < current) then [Page current] else [])).
Proof.
  rewrite builtPages_eq. rewrite bool_decide_eq_false_2 by lia.
  destruct sides_complex as (before & after & Hp & HI & (Hs & _ & Hzero) & Hga & Hnil).
  exists before, after. split; [done|]. split; [by apply (inv_head _ _ _ _ _ _ HI)|].
  split; [by apply window_end_last|]. split.
  { apply (in_window current max pad g current_pos pad_nonneg); [done|lia]. }
  split; [done|]. split.
  { apply (inv_gaps _ _ _ _ _ _ HI). lia. }
  split; [done|]. split; [intros Hm; apply Hnil; lia|].
  intros H0. rewrite (Hzero H0). f_equal.
  destruct (decide (1 < current)); [rewrite decide_True by lia|rewrite decide_False by lia];
    done.
Qed.
End sides.

Lemma gaps_run g a b : gaps g (run a b) = 0%nat.
Proof. apply gaps_0. intros Hin. by apply elem_of_run in Hin as (n & ? & _). Qed.

Section arraySides.
Variables (current max pad : Z) (g : string) (jumps : list Z).
Hypothesis current_pos : 1 <= current.
Hypothesis current_le_max : current <= max.
Hypothesis pad_nonneg : 0 <= pad.
Hypothesis jumps_nonempty : jumps <> [].
Hypothesis jumps_positive : Forall (fun j => 0 < j) jumps.

Local Abbreviation built := (builtPages current max pad g jumps).
Local Abbreviation hi := (Z.min max (current + pad)).

(** The array of a well-formed request, split after the window's last
    page. *)
Lemma built_sides :
  exists before after,
    built = before ++ after /\
    head before = Some (Page 1) /\
    last before = Some (Page hi) /\
    run (runStart current pad) hi `suffix_of` before /\
    StronglySorted Z.lt (pageNumbers before) /\
    (gaps g before <= 1)%nat /\ (gaps g after <= 1)%nat /\
    (hi = max -> after = []).
Proof.
  pose proof (runStart_le current pad current_pos pad_nonneg) as Hs.
  destruct (decide (max < 7 + pad * 4)) as [Hsimple|Hc].
  - exists (run 1 hi), (run (hi + 1) max).
    rewrite (built_simple current max pad g jumps) by done.
    split; [apply run_app; lia|]. split; [by rewrite run_cons by lia|].
    split; [apply last_run; lia|]. split.
    { exists (run 1 (runStart current pad - 1)).
      rewrite (run_app 1 (runStart current pad - 1) hi) by lia.
      by replace (runStart current pad - 1 + 1) with (runStart current pad) by lia. }
    split; [apply StronglySorted_lt_run|]. rewrite !gaps_run.
    split; [lia|]. split; [lia|]. intros Heq. apply run_empty. lia.
  - assert (7 + pad * 4 <= max) as Hc' by lia.
    destruct (built_sides_complex current max pad g jumps current_pos current_le_max
                pad_nonneg Hc' jumps_nonempty jumps_positive)
      as (before & after & Hp & Hh & Hl & Hsuf & Hsort & Hgb & Hga & Hnil & _).
    exists before, after. tauto.
Qed.

(** A window that starts at page 2 or below leaves no room for a gap on
    its left: the array begins with the run up to the window's last
    page. *)
Lemma built_left_closed :
  current - pad <= 2 -> exists after, built = run 1 hi ++ after.
Proof.
  intros Hlo.
  destruct built_sides as (before & after & Hp & Hh & _ & [k Hsuf] & Hsort & _).
  exists after. rewrite Hp. f_equal.
  assert (runStart current pad = 1) as Hone by (unfold runStart; by rewrite decide_True).
  rewrite Hone in Hsuf. rewrite Hsuf in *.
  destruct k as [|t k]; [done|]. exfalso. injection Hh as ->.
  rewrite run_cons in Hsort by lia. rewrite pageNumbers_app in Hsort.
  change (StronglySorted Z.lt
            (1 :: pageNumbers k ++ 1 :: pageNumbers (run (1 + 1) hi))) in Hsort.
  apply StronglySorted_inv in Hsort as [_ Hall]. rewrite Forall_app in Hall.
  destruct Hall as [_ Hall]. apply Forall_cons in Hall as [Hall _]. lia.
Qed.

(** A window that reaches page [max - 1] leaves no room for a gap on its
    right: the array ends with the run from the window to the last
    page. *)
Lemma built_right_closed :
  max - 1 <= current + pad -> run (runStart current pad) max `suffix_of` built.
Proof.
  intros Hhi. pose proof (runStart_le current pad current_pos pad_nonneg) as Hs.
  destruct (decide (max < 7 + pad * 4)) as [Hsimple|Hc].
  { rewrite (built_simple current max pad g jumps) by done.
    exists (run 1 (runStart current pad - 1)).
    rewrite (run_app 1 (runStart current pad - 1) max) by lia.
    by replace (runStart current pad - 1 + 1) with (runStart current pad) by lia. }
  assert (7 + pad * 4 <= max) as Hc' by lia.
  destruct (decide (max <= current + pad)) as [Hle|Hgt].
  { pose proof (built_complex current max pad g jumps current_pos current_le_max
                  pad_nonneg jumps_nonempty jumps_positive Hc') as HI.
    apply (in_window current max pad g current_pos pad_nonneg); [done|lia]. }
  rewrite builtPages_eq. rewrite bool_decide_eq_false_2 by lia.
  assert (exists n : nat, max = Z.of_nat (S n) /\ 1 <= Z.of_nat n) as (n & Hn & Hn1).
  { exists (Z.to_nat (max - 1)). lia. }
  rewrite Hn at 3. rewrite seqZ_S, foldl_app. simpl.
  assert (1 <= Z.of_nat n <= max) as Hn' by lia.
  pose proof (Inv_loop current max pad g jumps current_pos current_le_max pad_nonneg
                Hc' jumps_nonempty jumps_positive n Hn') as HI.
  set (p := foldl _ [] (seqZ 1 (Z.of_nat n))) in *.
  assert (current <= Z.of_nat n <= current + pad) as Hw by lia.
  pose proof (in_window current max pad g current_pos pad_nonneg _ p HI Hw) as Hsuf.
  replace (1 + Z.of_nat n) with max by lia.
  assert (loopBody current max pad g jumps p max = addPage p max 0 g) as ->.
  { unfold loopBody. cbv zeta. rewrite (bool_decide_eq_true_2 (max = max)) by done.
    by rewrite orb_true_r. }
  assert (runStart current pad <= Z.of_nat n) as Hsn by lia.
  pose proof (addPage_suffix_push g _ _ p 0 Hsn Hsuf) as H.
  by replace (Z.of_nat n + 1) with max in H by lia.
Qed.

(** Without a pad, in complex mode, nothing stands between page 1 and
    the current page. *)
Lemma built_pad_zero :
  pad = 0 -> 7 <= max ->
  exists after,
    built = Page 1 :: (if decide (1 < current) then [Page current] else []) ++ after.
Proof.
  intros H0 Hc. assert (7 + pad * 4 <= max) as Hc' by lia.
  destruct (built_sides_complex current max pad g jumps current_pos current_le_max
              pad_nonneg Hc' jumps_nonempty jumps_positive)
    as (before & after & Hp & _ & _ & _ & _ & _ & _ & _ & Hzero).
  exists after. by rewrite Hp, (Hzero H0).
Qed.
End arraySides.

(** * Further properties of the entry point *)

Lemma Sorted_gt_lookup (l : list Z) :
  (forall (i j : nat) x y, (i < j)%nat -> l !! i = Some x -> l !! j = Some y -> y < x) ->
  Sorted Z.gt l.
Proof.
  induction l as [|a l IH]; intros Hp; [constructor|]. constructor.
  - apply IH. intros i j x y Hij Hi Hj. apply (Hp (S i) (S j)); [lia|done..].
  - destruct l as [|b l]; constructor.
    assert (b < a); [|lia]. apply (Hp 0%nat 1%nat); [lia|done..].
Qed.

Lemma StronglySorted_gt_lookup (l : list Z) (i j : nat) x y :
  StronglySorted Z.gt l -> (i < j)%nat -> l !! i = Some x -> l !! j = Some y -> y < x.
Proof.
  intros Hs. revert i j. induction Hs as [|a l Hs IH Hall]; intros i j Hij Hi Hj; [done|].
  destruct j as [|j]; [lia|]. destruct i as [|i].
  - injection Hi as ->. rewrite Forall_forall in Hall.
    assert (x > y); [|lia]. apply Hall. by eapply list_elem_of_lookup_2.
  - apply (IH i j); [lia|done..].
Qed.

(** X9: for every valid request in range, every token of [pages] is either the gap symbol of the request or
    a page number between 1 and [max]. *)
Theorem tokens_in_range (o : PaginationOptions) :
  validRequest o -> inRange o ->
  exists r, generatePagination o = Returns r /\
    forall t, t ∈ r.(pages) ->
      t = Sym (gapOf o) \/ exists n, t = Page n /\ 1 <= n <= maxOf o.
Proof.
  intros Hv Hr. with_valid_request o Hv Hr. intros t Ht.
  pose proof (built_wf (currentOf o) (maxOf o) (padOf o) (gapOf o) (jumpsOf o)
                Hcur Hle Hpad Hjne Hjpos) as Hwf.
  assert (Forall (fun t => forall n, t = Page n -> 1 <= n <= maxOf o)
            (builtPages (currentOf o) (maxOf o) (padOf o) (gapOf o) (jumpsOf o)))
    as Hin by by apply built_within.
  rewrite Forall_forall in Hin. unfold wf in Hwf. rewrite Forall_forall in Hwf.
  destruct (Hwf t Ht) as [->|[n ->]]; [by left|]. right. exists n. split; [done|].
  by apply (Hin _ Ht).
Qed.

(** X10: for every valid request in range, [pages] holds at most two gap symbols: at most one up to the
    last page of the window, [min(max, current + pad)], and at most one
    after it. *)
Theorem gap_symbols_at_most_two (o : PaginationOptions) :
  validRequest o -> inRange o ->
  exists r, generatePagination o = Returns r /\
    (gaps (gapOf o) r.(pages) <= 2)%nat /\
    exists before after,
      r.(pages) = before ++ after /\
      last before = Some (Page (Z.min (maxOf o) (currentOf o + padOf o))) /\
      (gaps (gapOf o) before <= 1)%nat /\ (gaps (gapOf o) after <= 1)%nat.
Proof.
  intros Hv Hr. with_valid_request o Hv Hr.
  destruct (built_sides (currentOf o) (maxOf o) (padOf o) (gapOf o) (jumpsOf o)
              Hcur Hle Hpad Hjne Hjpos)
    as (before & after & Hp & _ & Hl & _ & _ & Hgb & Hga & _).
  split.
  - rewrite Hp, gaps_app. lia.
  - by exists before, after.
Qed.

(** X11: for every valid request in range, up to the last page of the window the page numbers of [pages]
    are strictly increasing, starting from page 1; when the window
    reaches page [max] that is the whole array.  Only the page numbers
    right of the window can be out of order. *)
Theorem ascending_up_to_window (o : PaginationOptions) :
  validRequest o -> inRange o ->
  exists r, generatePagination o = Returns r /\
    exists before after,
      r.(pages) = before ++ after /\
      head before = Some (Page 1) /\
      last before = Some (Page (Z.min (maxOf o) (currentOf o + padOf o))) /\
      Sorted Z.lt (pageNumbers before) /\
      (maxOf o <= currentOf o + padOf o -> after = []).
Proof.
  intros Hv Hr. with_valid_request o Hv Hr.
  destruct (built_sides (currentOf o) (maxOf o) (padOf o) (gapOf o) (jumpsOf o)
              Hcur Hle Hpad Hjne Hjpos)
    as (before & after & Hp & Hh & Hl & _ & Hs & _ & _ & Hnil).
  exists before, after. split; [done|]. split; [done|]. split; [done|].
  split; [by apply StronglySorted_Sorted|]. intros Hm. apply Hnil. lia.
Qed.

(** X12: for every valid request in range with [pad = 0] and [max >= 7] (complex mode) no anchor and no
    gap symbol is put on the left: [pages] starts with page 1 followed
    directly by the current page. *)
Theorem pad_zero_left_side (o : PaginationOptions) :
  validRequest o -> inRange o -> padOf o = 0 -> 7 <= maxOf o ->
  exists r, generatePagination o = Returns r /\
    exists after,
      r.(pages) =
        Page 1 :: (if decide (1 < currentOf o) then [Page (currentOf o)] else []) ++ after.
Proof.
  intros Hv Hr H0 Hc. with_valid_request o Hv Hr.
  by apply (built_pad_zero (currentOf o) (maxOf o) (padOf o) (gapOf o) (jumpsOf o)).
Qed.

(** X13: for every valid request in range, when the window starts at page 2 or below, [pages] begins with
    every page from 1 to the last page of the window: there is no gap
    symbol and no anchor on the left. *)
Theorem window_at_the_start (o : PaginationOptions) :
  validRequest o -> inRange o -> currentOf o - padOf o <= 2 ->
  exists r, generatePagination o = Returns r /\
    exists after,
      r.(pages) =
        (Page <$> seqZ 1 (Z.min (maxOf o) (currentOf o + padOf o))) ++ after.
Proof.
  intros Hv Hr Hlo. with_valid_request o Hv Hr.
  destruct (built_left_closed (currentOf o) (maxOf o) (padOf o) (gapOf o) (jumpsOf o)
              Hcur Hle Hpad Hjne Hjpos Hlo) as [after Hp].
  exists after. rewrite Hp. unfold run.
  by replace (Z.min (maxOf o) (currentOf o + padOf o) - 1 + 1)
    with (Z.min (maxOf o) (currentOf o + padOf o)) by lia.
Qed.

(** X14: for every valid request in range, when the window reaches page [max - 1] or beyond, [pages] ends
    with every page from the first page of the window to [max]: there is
    no gap symbol and no anchor on the right. *)
Theorem window_at_the_end (o : PaginationOptions) :
  validRequest o -> inRange o -> maxOf o - 1 <= currentOf o + padOf o ->
  exists r, generatePagination o = Returns r /\
    exists before,
      r.(pages) =
        before ++ (Page <$> seqZ (Z.max 1 (currentOf o - padOf o))
                                 (maxOf o - Z.max 1 (currentOf o - padOf o) + 1)).
Proof.
  intros Hv Hr Hhi. with_valid_request o Hv Hr.
  destruct (built_right_closed (currentOf o) (maxOf o) (padOf o) (gapOf o) (jumpsOf o)
              Hcur Hle Hpad Hjne Hjpos Hhi) as [k Hp].
  pose proof (runStart_cases (currentOf o) (padOf o)) as Hs.
  set (s := runStart (currentOf o) (padOf o)) in *.
  set (m := Z.max 1 (currentOf o - padOf o)).
  exists (k ++ run s (m - 1)). rewrite Hp, <- app_assoc. f_equal.
  change (Page <$> seqZ m (maxOf o - m + 1)) with (run m (maxOf o)).
  rewrite (run_app s (m - 1) (maxOf o)) by lia.
  by replace (m - 1 + 1) with m by lia.
Qed.

(** X15: [validateJumpValues] accepts a jump table exactly when it is
    not empty, every entry is a positive integer, and the entries are
    pairwise strictly descending: an earlier entry is larger than any
    later one, so no value occurs twice. *)
Theorem accepted_jumps_pairwise_descending (given : list number) :
  validateJumpValues given = Returns tt <->
  given <> [] /\
  (forall (i : nat) x, given !! i = Some x -> exists a, x = Int a /\ 0 < a) /\
  (forall (i j : nat) x y,
     (i < j)%nat -> given !! i = Some x -> given !! j = Some y -> intOf y < intOf x).
Proof.
  pose proof (validateJumpValues_cases given) as Hv. split.
  - intros Hok. rewrite Hok in Hv. destruct Hv as (Hne & Hpos & Hs).
    split; [done|]. split.
    + intros i x Hi. rewrite Forall_forall in Hpos.
      by apply Hpos, (list_elem_of_lookup_2 _ i).
    + intros i j x y Hij Hi Hj.
      apply Sorted_StronglySorted in Hs; [|intros ? ? ?; lia].
      apply (StronglySorted_gt_lookup (intOf <$> given) i j); [done|done|..].
      * by rewrite list_lookup_fmap, Hi.
      * by rewrite list_lookup_fmap, Hj.
  - intros (Hne & Hpos & Hpair).
    assert (Forall positiveInteger given) as Hall.
    { apply Forall_lookup. intros i x Hi. by apply (Hpos i). }
    assert (Sorted Z.gt (intOf <$> given)) as Hsorted.
    { apply Sorted_gt_lookup. intros i j a b Hij Ha Hb.
      rewrite list_lookup_fmap in Ha, Hb.
      destruct (given !! i) as [x|] eqn:Hi; [|done].
      destruct (given !! j) as [y|] eqn:Hj; [|done].
      injection Ha as <-. injection Hb as <-. by apply (Hpair i j). }
    destruct (validateJumpValues given) as [[]|e]; [done|].
    destruct Hv as [[_ ?]|[(_ & _ & ?)|(_ & _ & _ & ?)]]; done.
Qed.

(** X16: the defaults are those of the documentation: passing pad 2, the
    default gap symbol and the default jump table explicitly gives the
    same outcome, result or error, as leaving the three options out; more
    generally, filling in whichever options are missing changes
    nothing. *)
Theorem explicit_defaults (o : PaginationOptions) :
  generatePagination
    {| current := o.(current); max := o.(max);
       pad := Some (default (Int DEFAULT_PAD) o.(pad));
       gapSymbol := Some (default DEFAULT_GAP o.(gapSymbol));
       jumpValues := Some (default (Int <$> DEFAULT_JUMP_VALUES) o.(jumpValues)) |}
  = generatePagination o.
Proof.
  destruct o as [c m p s j]. unfold generatePagination. cbv zeta. simpl.
  destruct (validateInput c m _); [|done].
  destruct j as [given|]; [done|]. reflexivity.
Qed.

(** * The further properties at concrete requests *)

Lemma tokens_in_range_witness :
  (validRequest page_50_of_100 /\ inRange page_50_of_100) /\
  exists r, generatePagination page_50_of_100 = Returns r /\
    forall t, t ∈ r.(pages) ->
      t = Sym (gapOf page_50_of_100) \/ exists n, t = Page n /\ 1 <= n <= 100.
Proof.
  assert (validRequest page_50_of_100) as Hv by valid_request.
  assert (inRange page_50_of_100) as Hr by in_range.
  split; [split; [exact Hv|exact Hr]|]. exact (tokens_in_range page_50_of_100 Hv Hr).
Defined.

Lemma gap_symbols_at_most_two_witness :
  (validRequest page_15_of_100_pad_1 /\ inRange page_15_of_100_pad_1) /\
  exists r, generatePagination page_15_of_100_pad_1 = Returns r /\
    (gaps (gapOf page_15_of_100_pad_1) r.(pages) <= 2)%nat /\
    exists before after,
      r.(pages) = before ++ after /\
      last before = Some (Page 16) /\
      (gaps (gapOf page_15_of_100_pad_1) before <= 1)%nat /\
      (gaps (gapOf page_15_of_100_pad_1) after <= 1)%nat.
Proof.
  assert (validRequest page_15_of_100_pad_1) as Hv by valid_request.
  assert (inRange page_15_of_100_pad_1) as Hr by in_range.
  split; [split; [exact Hv|exact Hr]|].
  exact (gap_symbols_at_most_two page_15_of_100_pad_1 Hv Hr).
Defined.

Lemma ascending_up_to_window_witness :
  (validRequest page_45_of_100_custom /\ inRange page_45_of_100_custom) /\
  exists r, generatePagination page_45_of_100_custom = Returns r /\
    exists before after,
      r.(pages) = before ++ after /\
      head before = Some (Page 1) /\
      last before =
        Some (Page (Z.min (maxOf page_45_of_100_custom)
                          (currentOf page_45_of_100_custom + padOf page_45_of_100_custom))) /\
      Sorted Z.lt (pageNumbers before) /\
      (maxOf page_45_of_100_custom
       <= currentOf page_45_of_100_custom + padOf page_45_of_100_custom -> after = []).
Proof.
  assert (validRequest page_45_of_100_custom) as Hv by valid_request.
  assert (inRange page_45_of_100_custom) as Hr by in_range.
  split; [split; [exact Hv|exact Hr]|].
  exact (ascending_up_to_window page_45_of_100_custom Hv Hr).
Defined.

Lemma pad_zero_left_side_witness :
  (validRequest page_100_of_100_pad_0 /\ inRange page_100_of_100_pad_0 /\
   padOf page_100_of_100_pad_0 = 0 /\ 7 <= maxOf page_100_of_100_pad_0) /\
  exists r, generatePagination page_100_of_100_pad_0 = Returns r /\
    exists after, r.(pages) = Page 1 :: [Page 100] ++ after.
Proof.
  assert (validRequest page_100_of_100_pad_0) as Hv by valid_request.
  assert (inRange page_100_of_100_pad_0) as Hr by in_range.
  assert (padOf page_100_of_100_pad_0 = 0) as H0 by reflexivity.
  assert (7 <= maxOf page_100_of_100_pad_0) as Hc by (vm_compute; discriminate).
  split; [split; [exact Hv|split; [exact Hr|split; [exact H0|exact Hc]]]|].
  exact (pad_zero_left_side page_100_of_100_pad_0 Hv Hr H0 Hc).
Defined.

Lemma window_at_the_start_witness :
  (validRequest page_3_of_100 /\ inRange page_3_of_100 /\
   currentOf page_3_of_100 - padOf page_3_of_100 <= 2) /\
  exists r, generatePagination page_3_of_100 = Returns r /\
    exists after,
      r.(pages) = [Page 1; Page 2; Page 3; Page 4; Page 5] ++ after.
Proof.
  assert (validRequest page_3_of_100) as Hv by valid_request.
  assert (inRange page_3_of_100) as Hr by in_range.
  assert (currentOf page_3_of_100 - padOf page_3_of_100 <= 2) as Hlo
    by (vm_compute; discriminate).
  split; [split; [exact Hv|split; [exact Hr|exact Hlo]]|].
  exact (window_at_the_start page_3_of_100 Hv Hr Hlo).
Defined.

Lemma window_at_the_end_witness :
  (validRequest page_97_of_100 /\ inRange page_97_of_100 /\
   maxOf page_97_of_100 - 1 <= currentOf page_97_of_100 + padOf page_97_of_100) /\
  exists r, generatePagination page_97_of_100 = Returns r /\
    exists before,
      r.(pages) = before ++ [Page 95; Page 96; Page 97; Page 98; Page 99; Page 100].
Proof.
  assert (validRequest page_97_of_100) as Hv by valid_request.
  assert (inRange page_97_of_100) as Hr by in_range.
  assert (maxOf page_97_of_100 - 1 <= currentOf page_97_of_100 + padOf page_97_of_100)
    as Hhi by (vm_compute; discriminate).
  split; [split; [exact Hv|split; [exact Hr|exact Hhi]]|].
  exact (window_at_the_end page_97_of_100 Hv Hr Hhi).
Defined.

(** X15 at one-entry tables: a positive integer alone is accepted, a
    negative integer or a number that is no integer is not. *)
Lemma accepted_jumps_pairwise_descending_witness :
  validateJumpValues [Int 7] = Returns tt /\
  validateJumpValues [Int (-5)] <> Returns tt /\
  validateJumpValues [NonInt] <> Returns tt.
Proof.
  split; [|split].
  - apply (proj2 (accepted_jumps_pairwise_descending [Int 7])).
    split; [discriminate|]. split.
    + intros [|i] x Hx; [|done]. injection Hx as <-. exists 7. split; [reflexivity|lia].
    + intros [|i] [|j] x y Hij Hx Hy; try lia; done.
  - intros Hok.
    destruct (proj1 (accepted_jumps_pairwise_descending [Int (-5)]) Hok) as (_ & Hpos & _).
    destruct (Hpos 0%nat (Int (-5)) eq_refl) as (a & [= <-] & Ha). lia.
  - intros Hok.
    destruct (proj1 (accepted_jumps_pairwise_descending [NonInt]) Hok) as (_ & Hpos & _).
    destruct (Hpos 0%nat NonInt eq_refl) as (a & [=] & _).
Defined.
